(** * Catchonika: capture, take segmentation, note reconstruction, encoding

    A shallow embedding of the capture pipeline of [src/js/catchonika.js].
    The file holds three revisions of the class; the one embedded here is
    the revision with auto-takes and persistence (v1.3.0, the second in the
    file): [_onMIDIMessage], [_handleNoteOff], [_startTake], [_endTake],
    [_markActivity], [_resetIdleTimer], [saveTake], [_saveRange],
    [_reconstructNotes], [_buildMidi], [msToTicks], [midiNoteToName], [_gc],
    [clear], [_saveState] and [_loadState].

    Conventions of the embedding.
    - JavaScript numbers are integers [Z]: event times and window bounds are
      milliseconds, tempo is beats per minute.  [Math.round] is computed
      exactly (nearest integer, halves upwards).
    - A JavaScript [Map] or [Set] is an insertion-ordered list, because the
      code walks [active.entries()] and [keys.forEach] in insertion order.
    - [data[i]] on the message bytes is [nth_error data i]; [None] stands for
      [undefined].  A note number is therefore an [option Z].
    - A loop body or a block of a method becomes a function of its own
      ([replayEvent], [flushKey], [sustainBlock], ...), named in its comment.
    - The user interface ([_renderTakesList], [_status]) and the debounce of
      the persistence ([_schedulePersist]) do not touch the captured data and
      are left out.  The store is not a field of the instance: [_saveState]
      and [_loadState] are functions to and from its content.

    Layout: the embedding, the vocabulary of the statements, then for the
    reconstruction, the live instance and the encoder the supporting lemmas
    followed by the properties C1 to C10; then the properties X1 to X28 of
    runs of an instance, of the log as a journal, of the reconstruction, of
    the export and of the persistence. *)

From Stdlib Require Import ZArith List Lia Bool Permutation Sorted.
From Stdlib Require String DecimalString.
Import ListNotations String.StringSyntax.
Open Scope Z_scope.
Delimit Scope string_scope with string.

Abbreviation string := String.string.

Set Implicit Arguments.

(** ** Decidable equality on keys *)

Class EqDec (A : Type) := eq_dec : forall x y : A, {x = y} + {x <> y}.

#[export] Instance Z_EqDec : EqDec Z := Z.eq_dec.

#[export] Instance option_EqDec {A} `{EqDec A} : EqDec (option A).
Proof. intros [x|] [y|]; try (right; discriminate); [|left; reflexivity].
  destruct (eq_dec x y); [left; congruence | right; congruence]. Defined.

#[export] Instance prod_EqDec {A B} `{EqDec A} `{EqDec B} : EqDec (A * B).
Proof. intros [a b] [a' b'].
  destruct (eq_dec a a'); [|right; congruence].
  destruct (eq_dec b b'); [left; congruence | right; congruence]. Defined.

(** ** JavaScript [Map]: get / has / set / delete / entries

    [set] on a present key keeps the entry's position, [set] on an absent key
    appends; [entries()] is the list itself. *)

Module JsMap.
Section Defs.
Context {K V : Type} `{EqDec K}.

Definition t := list (K * V).

Definition empty : t := [].

Fixpoint get (m : t) (k : K) : option V :=
  match m with
  | [] => None
  | (k', v) :: m' => if eq_dec k k' then Some v else get m' k
  end.

Definition has (m : t) (k : K) : bool :=
  match get m k with Some _ => true | None => false end.

Fixpoint set (m : t) (k : K) (v : V) : t :=
  match m with
  | [] => [(k, v)]
  | (k', v') :: m' =>
      if eq_dec k k' then (k, v) :: m' else (k', v') :: set m' k v
  end.

Fixpoint delete (m : t) (k : K) : t :=
  match m with
  | [] => []
  | (k', v') :: m' =>
      if eq_dec k k' then delete m' k else (k', v') :: delete m' k
  end.

Definition keys (m : t) : list K := map fst m.

(** No key is listed twice: what a [Map] guarantees. *)
Definition wf (m : t) : Prop := NoDup (keys m).

End Defs.
Arguments t : clear implicits.
End JsMap.

(** ** JavaScript [Set]: add / forEach order / clear *)

Module JsSet.
Section Defs.
Context {K : Type} `{EqDec K}.

Definition t := list K.

Definition empty : t := [].

Definition add (s : t) (k : K) : t :=
  if in_dec eq_dec k s then s else s ++ [k].

End Defs.
Arguments t : clear implicits.
End JsSet.

(** ** Data model *)

(** The device an event came from: [inputId], [inputName]. *)
Record Source := { inputId : string; inputName : string }.

(** A note number as read from the message bytes ([None]: [undefined]). *)
Definition NoteNum := option Z.

(** The key [`${ch}:${note}`] of the active-note and pending maps. *)
Definition Key := (Z * NoteNum)%type.

Definition mkKey (ch : Z) (note : NoteNum) : Key := (ch, note).

(** [parseInt(key.split(":")[0], 10)] and [parseInt(key.split(":")[1], 10)]. *)
Definition keyCh (key : Key) : Z := fst key.
Definition keyNote (key : Key) : NoteNum := snd key.

(** One entry of [_events], tagged by its [type] string:
    "noteon", "noteoff", "noteoff_deferred", "cc", "pitchbend", "raw". *)
Inductive Event :=
| E_noteon (t ch : Z) (note : NoteNum) (vel : Z) (src : Source)
| E_noteoff (t ch : Z) (note : NoteNum) (src : Source)
| E_noteoff_deferred (t ch : Z) (note : NoteNum) (src : Source)
| E_cc (t ch : Z) (ctrl : option Z) (val : Z) (src : Source)
| E_pitchbend (t ch : Z) (value : Z) (src : Source)
| E_raw (t : Z) (bytes : list Z) (ch : Z) (src : Source).

Definition ev_t (e : Event) : Z :=
  match e with
  | E_noteon t _ _ _ _ | E_noteoff t _ _ _ | E_noteoff_deferred t _ _ _
  | E_cc t _ _ _ _ | E_pitchbend t _ _ _ | E_raw t _ _ _ => t
  end.

(** [e.cc === 64] *)
Definition is64 (ctrl : option Z) : bool :=
  match ctrl with Some c => c =? 64 | None => false end.

(** Output of the reconstruction: [{ ch, note, startMs, endMs, vel }]. *)
Module Note.
Record t := mk { ch : Z; note : NoteNum; startMs : Z; endMs : Z; vel : Z }.
End Note.

(** Entry of the live [_active] map: [{ tOn, vel, inputId }]. *)
Module Active.
Record t := mk { tOn : Z; vel : Z; inputId : string }.
End Active.

(** Entry of the reconstruction's local [active] map: [{ tOn, vel }]. *)
Module Local.
Record t := mk { tOn : Z; vel : Z }.
End Local.

(** A closed take [{ startMs, endMs }]. *)
Module Take.
Record t := mk { startMs : Z; endMs : Z }.
End Take.

(** The open take [{ startMs, lastActivityMs }]. *)
Module CurrentTake.
Record t := mk { startMs : Z; lastActivityMs : Z }.
End CurrentTake.

(** Track key of [byTrack]: ["main"] or [`ch-${ch}`]. *)
Inductive TrackKey := T_main | T_ch (ch : Z).

#[export] Instance TrackKey_EqDec : EqDec TrackKey.
Proof. intros [|a] [|b]; try (right; discriminate); [left; reflexivity|].
  destruct (Z.eq_dec a b); [left; congruence | right; congruence]. Defined.

(** ** [_reconstructNotes] *)

Module Reconstruct.

(** The locals of the replay loop: [active], [sustain], [pending], [notes]. *)
Record State := mkState {
  active : JsMap.t Key Local.t;
  sustain : JsMap.t Z bool;
  pending : JsMap.t Z (JsSet.t Key);
  notes : list Note.t
}.

Definition init : State :=
  {| active := JsMap.empty; sustain := JsMap.empty;
     pending := JsMap.empty; notes := [] |}.

(** [ensureSet(m, ch)]: creates the empty set when the channel has none. *)
Definition ensureSet (m : JsMap.t Z (JsSet.t Key)) (ch : Z)
  : JsMap.t Z (JsSet.t Key) * JsSet.t Key :=
  match JsMap.get m ch with
  | Some s => (m, s)
  | None => (JsMap.set m ch JsSet.empty, JsSet.empty)
  end.

(** [sustain.get(ch) === true]; also the truthiness test [sustain.get(ch)]. *)
Definition isDown (m : JsMap.t Z bool) (ch : Z) : bool :=
  match JsMap.get m ch with Some b => b | None => false end.

Section Window.
Variables windowStart windowEnd : Z.

(** [pushNote(ch, note, tOn, tOff, vel)]; every caller passes a [tOff]. *)
Definition pushNote (ch : Z) (note : NoteNum) (tOn tOff vel : Z)
  (notes : list Note.t) : list Note.t :=
  let startMs := Z.max windowStart (Z.min windowEnd tOn) in
  let endMs := Z.max windowStart (Z.min windowEnd tOff) in
  if endMs >? startMs then notes ++ [Note.mk ch note startMs endMs vel]
  else notes.

(** Body of [keys.forEach] on a pedal release at time [t] on channel [ch]. *)
Definition flushKey (ch t : Z) (acc : JsMap.t Key Local.t * list Note.t)
  (key : Key) : JsMap.t Key Local.t * list Note.t :=
  let (act, ns) := acc in
  match JsMap.get act key with
  | Some st =>
      (JsMap.delete act key,
       pushNote ch (keyNote key) (Local.tOn st) t (Local.vel st) ns)
  | None => (act, ns)
  end.

(** Body of [for (const e of events)]. *)
Definition replayEvent (s : State) (e : Event) : State :=
  match e with
  | E_cc t ch ctrl val _ =>
      if is64 ctrl then
        let down := val >=? 64 in
        let was := isDown (sustain s) ch in
        let sustain' := JsMap.set (sustain s) ch down in
        if was && negb down then
          let (pending', keys) := ensureSet (pending s) ch in
          let (active', notes') :=
            fold_left (flushKey ch t) keys (active s, notes s) in
          {| active := active'; sustain := sustain';
             pending := JsMap.set pending' ch JsSet.empty;
             notes := notes' |}
        else
          {| active := active s; sustain := sustain';
             pending := pending s; notes := notes s |}
      else s
  | E_noteon t ch note vel _ =>
      {| active := JsMap.set (active s) (mkKey ch note) (Local.mk t vel);
         sustain := sustain s; pending := pending s; notes := notes s |}
  | E_noteoff t ch note _ | E_noteoff_deferred t ch note _ =>
      let key := mkKey ch note in
      match JsMap.get (active s) key with
      | None => s
      | Some st =>
          if isDown (sustain s) ch then
            let (pending', keys) := ensureSet (pending s) ch in
            {| active := active s; sustain := sustain s;
               pending := JsMap.set pending' ch (JsSet.add keys key);
               notes := notes s |}
          else
            {| active := JsMap.delete (active s) key; sustain := sustain s;
               pending := pending s;
               notes := pushNote ch note (Local.tOn st) t (Local.vel st)
                          (notes s) |}
      end
  | E_pitchbend _ _ _ _ | E_raw _ _ _ _ => s
  end.

Definition replay (events : list Event) (s : State) : State :=
  fold_left replayEvent events s.

(** [for (const [key, st] of active.entries())]: notes still sounding when
    the slice ends are closed at [windowEnd]. *)
Definition truncateOpen (s : State) : list Note.t :=
  fold_left
    (fun ns '(key, st) =>
       pushNote (keyCh key) (keyNote key) (Local.tOn st) windowEnd
         (Local.vel st) ns)
    (active s) (notes s).

(** All notes pushed, in push order, before they are grouped into tracks. *)
Definition allNotes (events : list Event) : list Note.t :=
  truncateOpen (replay events init).

End Window.

(** [trackKeyFor(ch)] *)
Definition trackKeyFor (groupByChannel : bool) (ch : Z) : TrackKey :=
  if groupByChannel then T_ch ch else T_main.

(** [for (const n of notes)]: append [n] to its track, creating the track on
    first use. *)
Definition groupNote (groupByChannel : bool)
  (byTrack : JsMap.t TrackKey (list Note.t)) (n : Note.t)
  : JsMap.t TrackKey (list Note.t) :=
  let k := trackKeyFor groupByChannel (Note.ch n) in
  match JsMap.get byTrack k with
  | Some arr => JsMap.set byTrack k (arr ++ [n])
  | None => JsMap.set byTrack k [n]
  end.

(** [arr.sort((a, b) => a.startMs - b.startMs)]: a stable sort. *)
Fixpoint insertByStart (n : Note.t) (l : list Note.t) : list Note.t :=
  match l with
  | [] => [n]
  | m :: l' =>
      if Note.startMs n <=? Note.startMs m then n :: l
      else m :: insertByStart n l'
  end.

Fixpoint sortByStart (l : list Note.t) : list Note.t :=
  match l with
  | [] => []
  | n :: l' => insertByStart n (sortByStart l')
  end.

Definition sortTracks (byTrack : JsMap.t TrackKey (list Note.t))
  : JsMap.t TrackKey (list Note.t) :=
  map (fun '(k, arr) => (k, sortByStart arr)) byTrack.

Definition _reconstructNotes (groupByChannel : bool) (events : list Event)
  (windowStart windowEnd : Z) : JsMap.t TrackKey (list Note.t) :=
  sortTracks
    (fold_left (groupNote groupByChannel)
       (allNotes windowStart windowEnd events) JsMap.empty).

(** Every interval of every track, track after track. *)
Definition intervals (byTrack : JsMap.t TrackKey (list Note.t))
  : list Note.t :=
  flat_map snd byTrack.

End Reconstruct.

(** ** The live instance: ingest, takes, buffer hygiene *)

Record Settings := mkSettings {
  bufferMinutes : Z;
  defaultBpm : Z;
  groupByChannel : bool;
  takeIdleSeconds : Z
}.

(** The fields of a [Catchonika] instance that hold captured data.
    [_idleTimer] is [Some d] while a [setTimeout] of [d] milliseconds that
    will run [_endTake] is armed, and [None] for [null]. *)
Record Catchonika := mkCatchonika {
  settings : Settings;
  _start : Z;
  _events : list Event;
  _active : JsMap.t Key Active.t;
  _sustain : JsMap.t Z bool;
  _pendingRelease : JsMap.t Z (JsSet.t Key);
  _takes : list Take.t;
  _currentTake : option CurrentTake.t;
  _idleTimer : option Z
}.

Definition with_events (s : Catchonika) (v : list Event) : Catchonika :=
  mkCatchonika (settings s) (_start s) v (_active s) (_sustain s)
    (_pendingRelease s) (_takes s) (_currentTake s) (_idleTimer s).

Definition with_active (s : Catchonika) (v : JsMap.t Key Active.t)
  : Catchonika :=
  mkCatchonika (settings s) (_start s) (_events s) v (_sustain s)
    (_pendingRelease s) (_takes s) (_currentTake s) (_idleTimer s).

Definition with_sustain (s : Catchonika) (v : JsMap.t Z bool) : Catchonika :=
  mkCatchonika (settings s) (_start s) (_events s) (_active s) v
    (_pendingRelease s) (_takes s) (_currentTake s) (_idleTimer s).

Definition with_pendingRelease (s : Catchonika)
  (v : JsMap.t Z (JsSet.t Key)) : Catchonika :=
  mkCatchonika (settings s) (_start s) (_events s) (_active s) (_sustain s)
    v (_takes s) (_currentTake s) (_idleTimer s).

Definition with_takes (s : Catchonika) (v : list Take.t) : Catchonika :=
  mkCatchonika (settings s) (_start s) (_events s) (_active s) (_sustain s)
    (_pendingRelease s) v (_currentTake s) (_idleTimer s).

Definition with_currentTake (s : Catchonika) (v : option CurrentTake.t)
  : Catchonika :=
  mkCatchonika (settings s) (_start s) (_events s) (_active s) (_sustain s)
    (_pendingRelease s) (_takes s) v (_idleTimer s).

Definition with_idleTimer (s : Catchonika) (v : option Z) : Catchonika :=
  mkCatchonika (settings s) (_start s) (_events s) (_active s) (_sustain s)
    (_pendingRelease s) (_takes s) (_currentTake s) v.

Definition with_settings (s : Catchonika) (v : Settings) : Catchonika :=
  mkCatchonika v (_start s) (_events s) (_active s) (_sustain s)
    (_pendingRelease s) (_takes s) (_currentTake s) (_idleTimer s).

(** [this._events.push(e)] *)
Definition pushEvent (s : Catchonika) (e : Event) : Catchonika :=
  with_events s (_events s ++ [e]).

(** The instance the constructor leaves behind, [_loadState] having restored
    [events] and the closed [takes] (both empty on a first run). *)
Definition create (opts : Settings) (start : Z) (events : list Event)
  (takes : list Take.t) : Catchonika :=
  {| settings := opts; _start := start; _events := events;
     _active := JsMap.empty; _sustain := JsMap.empty;
     _pendingRelease := JsMap.empty; _takes := takes;
     _currentTake := None; _idleTimer := None |}.

(** *** Auto-takes *)

Definition _resetIdleTimer (s : Catchonika) : Catchonika :=
  with_idleTimer s (Some (takeIdleSeconds (settings s) * 1000)).

Definition _startTake (t : Z) (s : Catchonika) : Catchonika :=
  match _currentTake s with
  | Some _ => s
  | None => _resetIdleTimer (with_currentTake s (Some (CurrentTake.mk t t)))
  end.

(** Also the callback of the idle timer. *)
Definition _endTake (s : Catchonika) : Catchonika :=
  match _currentTake s with
  | None => s
  | Some ct =>
      let s1 := with_idleTimer s None in
      let s2 :=
        with_takes s1
          (_takes s1 ++
           [Take.mk (CurrentTake.startMs ct) (CurrentTake.lastActivityMs ct)])
      in
      with_currentTake s2 None
  end.

Definition _markActivity (t : Z) (s : Catchonika) : Catchonika :=
  match _currentTake s with
  | Some ct =>
      _resetIdleTimer
        (with_currentTake s (Some (CurrentTake.mk (CurrentTake.startMs ct) t)))
  | None => s
  end.

(** The [change] handler that [_attachUIHandlers] puts on the idle-seconds
    input: a positive number [v] becomes [takeIdleSeconds], and the timer of
    an open take is re-armed. *)
Definition onIdleSecondsChange (v : Z) (s : Catchonika) : Catchonika :=
  if v >? 0 then
    let s :=
      with_settings s
        (mkSettings (bufferMinutes (settings s)) (defaultBpm (settings s))
           (groupByChannel (settings s)) v) in
    match _currentTake s with
    | Some _ => _resetIdleTimer s
    | None => s
    end
  else s.

(** [destroy()]: the idle timer is cancelled (and the input detached). *)
Definition destroy (s : Catchonika) : Catchonika := with_idleTimer s None.

(** *** Ingest *)

(** The closures of [_onMIDIMessage]. *)
Definition sustainDown (s : Catchonika) (c : Z) : bool :=
  match JsMap.get (_sustain s) c with Some b => b | None => false end.

Definition setSustain (c : Z) (val : bool) (s : Catchonika) : Catchonika :=
  with_sustain s (JsMap.set (_sustain s) c val).

Definition pendKeySet (s : Catchonika) (c : Z) : Catchonika * JsSet.t Key :=
  match JsMap.get (_pendingRelease s) c with
  | Some keys => (s, keys)
  | None =>
      (with_pendingRelease s (JsMap.set (_pendingRelease s) c JsSet.empty),
       JsSet.empty)
  end.

(** The keys waiting for the pedal of channel [c]. *)
Definition pendingKeys (s : Catchonika) (c : Z) : JsSet.t Key :=
  match JsMap.get (_pendingRelease s) c with
  | Some keys => keys
  | None => []
  end.

Definition _handleNoteOff (t ch : Z) (note : NoteNum) (src : Source)
  (s : Catchonika) : Catchonika :=
  let key := mkKey ch note in
  match JsMap.get (_active s) key with
  | None => pushEvent s (E_noteoff t ch note src)
  | Some _ =>
      if sustainDown s ch then
        let (s1, keys) := pendKeySet s ch in
        let s2 :=
          with_pendingRelease s1
            (JsMap.set (_pendingRelease s1) ch (JsSet.add keys key)) in
        pushEvent s2 (E_noteoff_deferred t ch note src)
      else
        let s1 := pushEvent s (E_noteoff t ch note src) in
        with_active s1 (JsMap.delete (_active s1) key)
  end.

(** Body of [keys.forEach] when the pedal of channel [ch] comes up at [t]. *)
Definition flushPending (t ch : Z) (src : Source) (s : Catchonika)
  (key : Key) : Catchonika :=
  match JsMap.get (_active s) key with
  | Some _ =>
      let s1 := pushEvent s (E_noteoff t ch (keyNote key) src) in
      with_active s1 (JsMap.delete (_active s1) key)
  | None => s
  end.

Definition hasTake (s : Catchonika) : bool :=
  match _currentTake s with Some _ => true | None => false end.

(** [x ?? 0] and [x || 0] on a byte read. *)
Definition orZero (x : option Z) : Z :=
  match x with Some v => v | None => 0 end.

(** The block [if (cc === 64) { ... }] of [_onMIDIMessage]: the pedal edge
    detection, the take opened by a pedal press, the flush on a pedal
    release. *)
Definition sustainBlock (t ch val : Z) (input : Source) (s : Catchonika)
  : Catchonika :=
  let wasDown := sustainDown s ch in
  let nowDown := val >=? 64 in
  let s := setSustain ch nowDown s in
  let s := if negb wasDown && nowDown then _startTake t s else s in
  if wasDown && negb nowDown then
    let (s1, keys) := pendKeySet s ch in
    let s2 := fold_left (flushPending t ch input) keys s1 in
    with_pendingRelease s2 (JsMap.set (_pendingRelease s2) ch JsSet.empty)
  else s.

(** [_onMIDIMessage(input, message)], with [tNow] the value of [ts()] and
    [data] the bytes of [message.data]. *)
Definition _onMIDIMessage (input : Source) (tNow : Z) (data : list Z)
  (s : Catchonika) : Catchonika :=
  match data with
  | [] => s
  | status :: _ =>
      let type := Z.land status 0xf0 in
      let ch := Z.land status 0x0f + 1 in
      let t := tNow - _start s in
      let s := _markActivity t s in
      if type =? 0x90 then
        let note := nth_error data 1 in
        let vel := orZero (nth_error data 2) in
        if vel >? 0 then
          let s := if hasTake s then s else _startTake t s in
          let s := pushEvent s (E_noteon t ch note vel input) in
          with_active s
            (JsMap.set (_active s) (mkKey ch note)
               (Active.mk t vel (inputId input)))
        else _handleNoteOff t ch note input s
      else if type =? 0x80 then
        _handleNoteOff t ch (nth_error data 1) input s
      else if type =? 0xb0 then
        let ctrl := nth_error data 1 in
        let val := orZero (nth_error data 2) in
        let s :=
          if negb (hasTake s) && negb (is64 ctrl) then _startTake t s else s in
        let s := pushEvent s (E_cc t ch ctrl val input) in
        if is64 ctrl then sustainBlock t ch val input s else s
      else if type =? 0xe0 then
        let s := if hasTake s then s else _startTake t s in
        let lsb := orZero (nth_error data 1) in
        let msb := orZero (nth_error data 2) in
        let value := Z.lor (Z.shiftl msb 7) lsb - 8192 in
        pushEvent s (E_pitchbend t ch value input)
      else pushEvent s (E_raw t data ch input)
  end.

(** *** Buffer hygiene *)

(** [_gc()], with [tNow] the value of [ts()]. *)
Definition _gc (tNow : Z) (s : Catchonika) : Catchonika :=
  let maxMs := bufferMinutes (settings s) * 60 * 1000 in
  let cutoff := tNow - _start s - maxMs in
  if cutoff <=? 0 then s
  else with_events s (filter (fun e => ev_t e >=? cutoff) (_events s)).

Definition clear (s : Catchonika) : Catchonika :=
  {| settings := settings s; _start := _start s; _events := [];
     _active := JsMap.empty; _sustain := JsMap.empty;
     _pendingRelease := JsMap.empty; _takes := [];
     _currentTake := None; _idleTimer := None |}.

(** ** Export: [_saveRange], [_buildMidi], [msToTicks] *)

Definition PPQ : Z := 128.
Definition DEFAULT_BPM : Z := 120.

Definition clamp (n min max : Z) : Z := Z.max min (Z.min max n).

(** [Math.round(p / q)] for [q > 0]: the nearest integer, halves upwards. *)
Definition roundDiv (p q : Z) : Z := (2 * p + q) / (2 * q).

(** [msToTicks(ms, bpm, ppq)]:
    [Math.max(1, Math.round((ms / 60000) * (bpm * ppq)))]. *)
Definition msToTicks (ms bpm ppq : Z) : Z :=
  Z.max 1 (roundDiv (ms * (bpm * ppq)) 60000).

(** [.sort((a, b) => a.t - b.t)] on the filtered events: a stable sort. *)
Fixpoint insertByT (e : Event) (l : list Event) : list Event :=
  match l with
  | [] => [e]
  | e' :: l' =>
      if ev_t e <=? ev_t e' then e :: l else e' :: insertByT e l'
  end.

Fixpoint sortByT (l : list Event) : list Event :=
  match l with
  | [] => []
  | e :: l' => insertByT e (sortByT l')
  end.

(** The event slice [_saveRange] hands to the reconstruction. *)
Definition sliceEvents (s : Catchonika) (startMs endMs : Z) : list Event :=
  sortByT
    (filter (fun e => (ev_t e >=? startMs) && (ev_t e <=? endMs)) (_events s)).

(** What the encoder is called with for one note:
    [{ pitch, duration: `T${durTick}`, velocity, channel, tick }]; [pitch]
    holds the note number that [midiNoteToName] formats. *)
Module NoteEvent.
Record t := mk {
  pitch : NoteNum; duration : Z; velocity : Z; channel : Z; tick : Z
}.
End NoteEvent.

(** One [MidiWriter.Track]: tempo, the fixed 4/4 time signature, the name
    [`Catchonika ${trackKey}`] and the note events added to it. *)
Module Track.
Record t := mk { tempo : Z; name : TrackKey; events : list NoteEvent.t }.
End Track.

(** The loop computing [_t0Global]; [None] is [Infinity]. *)
Definition t0Step (t0 : option Z) (entry : TrackKey * list Note.t)
  : option Z :=
  match snd entry with
  | [] => t0
  | first :: _ =>
      match t0 with
      | None => Some (Note.startMs first)
      | Some m =>
          if Note.startMs first <? m then Some (Note.startMs first)
          else Some m
      end
  end.

Definition t0Global (notesByTrack : JsMap.t TrackKey (list Note.t)) : Z :=
  match fold_left t0Step notesByTrack None with
  | Some m => m
  | None => 0
  end.

Definition encodeNote (t0 bpm : Z) (n : Note.t) : NoteEvent.t :=
  let startTick := msToTicks (Note.startMs n - t0) bpm PPQ in
  let durTick := msToTicks (Note.endMs n - Note.startMs n) bpm PPQ in
  let velocity01_100 := clamp (roundDiv (Note.vel n * 100) 127) 1 100 in
  NoteEvent.mk (Note.note n) durTick velocity01_100 (Note.ch n) startTick.

Definition encodeTrack (t0 bpm : Z) (entry : TrackKey * list Note.t)
  : Track.t :=
  let (trackKey, notes) := entry in
  match notes with
  | [] => Track.mk bpm trackKey []
  | _ => Track.mk bpm trackKey (map (encodeNote t0 bpm) notes)
  end.

(** [_buildMidi(notesByTrack, bpm)], the MidiWriter library being loaded
    (the method throws when it is not): the tracks handed to
    [MidiWriter.Writer]. *)
Definition _buildMidi (notesByTrack : JsMap.t TrackKey (list Note.t))
  (bpm : Z) : list Track.t :=
  map (encodeTrack (t0Global notesByTrack) bpm) notesByTrack.

(** [_saveRange(startMs, endMs, { bpm })] up to the writer's tracks; a [bpm]
    that is not a finite number ([None]) falls back to [defaultBpm]. *)
Definition _saveRange (s : Catchonika) (startMs endMs : Z) (bpm : option Z)
  : list Track.t :=
  let bpmToUse :=
    match bpm with Some b => b | None => defaultBpm (settings s) end in
  let events := sliceEvents s startMs endMs in
  let notesByTrack :=
    Reconstruct._reconstructNotes (groupByChannel (settings s)) events
      startMs endMs in
  _buildMidi notesByTrack bpmToUse.

(** ** More of the class: [saveTake], persistence, [midiNoteToName] *)

(** [saveTake(index, opts)]: [None] when [_takes] has no entry at [index]
    (the method reports "No take" and returns nothing); [bpm] stands for
    [opts.bpm], or the tempo field of the panel when it holds a number. *)
Definition saveTake (index : Z) (bpm : option Z) (s : Catchonika)
  : option (list Track.t) :=
  if index <? 0 then None
  else
    match nth_error (_takes s) (Z.to_nat index) with
    | None => None
    | Some take =>
        Some (_saveRange s (Take.startMs take) (Take.endMs take) bpm)
    end.

(** The event [e] with its time replaced:
    [{ tAbs: ..., ...rest }] and [{ ...e, t: ... }]. *)
Definition withT (e : Event) (t : Z) : Event :=
  match e with
  | E_noteon _ ch note vel src => E_noteon t ch note vel src
  | E_noteoff _ ch note src => E_noteoff t ch note src
  | E_noteoff_deferred _ ch note src => E_noteoff_deferred t ch note src
  | E_cc _ ch ctrl val src => E_cc t ch ctrl val src
  | E_pitchbend _ ch value src => E_pitchbend t ch value src
  | E_raw _ bytes ch src => E_raw t bytes ch src
  end.

(** The object [_saveState] writes under [STORAGE_KEY], as [JSON.parse]
    gives it back: [{ baseEpoch, settings, events, takes }].  The time of a
    stored event is its [tAbs]; a stored take is [(startAbs, endAbs)], with
    [None] for a [null] end. *)
Record Stored := mkStored {
  baseEpoch : Z;
  storedSettings : Settings;
  storedEvents : list Event;
  storedTakes : list (Z * option Z)
}.

(** [Math.round(x)], on the integer milliseconds of the embedding. *)
Definition round (x : Z) : Z := roundDiv x 1.

(** The [state] object built by [_saveState]: the events not older than the
    retention horizon and the closed takes, on the wall clock. *)
Definition stateToStore (startEpoch tNow : Z) (s : Catchonika) : Stored :=
  let toAbs := fun rel => startEpoch + rel in
  let maxMs := bufferMinutes (settings s) * 60 * 1000 in
  let nowRel := tNow - _start s in
  let cutoff := nowRel - maxMs in
  let prunedEvents :=
    filter (fun e => ev_t e >=? Z.max 0 cutoff) (_events s) in
  {| baseEpoch := startEpoch;
     storedSettings := settings s;
     storedEvents :=
       map (fun e => withT e (round (toAbs (ev_t e)))) prunedEvents;
     storedTakes :=
       map (fun tk => (round (toAbs (Take.startMs tk)),
                       Some (round (toAbs (Take.endMs tk)))))
         (_takes s) |}.

(** The retry of [_saveState]: the older half of the events is dropped,
    [state.events.slice(Math.floor(state.events.length / 2))]. *)
Definition trimmedState (state : Stored) : Stored :=
  {| baseEpoch := baseEpoch state;
     storedSettings := storedSettings state;
     storedEvents :=
       skipn (Nat.div (List.length (storedEvents state)) 2)
         (storedEvents state);
     storedTakes := storedTakes state |}.

(** [_saveState()], with [startEpoch] the field [_startEpoch] and [tNow] the
    value of [ts()].  [fits] tells whether [localStorage.setItem] accepts an
    object (it throws when the quota is exceeded); the result is the content
    of the store afterwards, [old] being its content before. *)
Definition _saveState (fits : Stored -> bool) (startEpoch tNow : Z)
  (s : Catchonika) (old : option Stored) : option Stored :=
  let state := stateToStore startEpoch tNow s in
  if fits state then Some state
  else
    let trimmed := trimmedState state in
    if fits trimmed then Some trimmed else old.

(** [_loadState()] as the constructor runs it, before any message: [opts]
    are the constructor's settings, [nowPerf] and [nowEpoch] the values of
    [ts()] and [Date.now()], [stored] what the store holds ([None]: nothing,
    or nothing readable).  Stored settings win over [opts]; events and takes
    come back relative to the stored epoch, takes without end are left out;
    the start of the clock is re-anchored on the stored epoch. *)
Definition _loadState (opts : Settings) (nowPerf nowEpoch : Z)
  (stored : option Stored) : Catchonika :=
  match stored with
  | None => create opts nowPerf [] []
  | Some state =>
      let startEpoch := baseEpoch state in
      let start := nowPerf - (nowEpoch - startEpoch) in
      let events :=
        map (fun e => withT e (Z.max 0 (ev_t e - startEpoch)))
          (storedEvents state) in
      let takes :=
        flat_map
          (fun tk =>
             match snd tk with
             | Some endAbs =>
                 [Take.mk (Z.max 0 (fst tk - startEpoch))
                    (Z.max 0 (endAbs - startEpoch))]
             | None => []
             end)
          (storedTakes state) in
      create (storedSettings state) start events takes
  end.

(** The [names] table of [midiNoteToName]. *)
Definition noteNames : list string :=
  ["C"; "C#"; "D"; "D#"; "E"; "F"; "F#"; "G"; "G#"; "A"; "A#"; "B"]%string.

(** An integer as a template literal prints it. *)
Definition showZ (z : Z) : string :=
  DecimalString.NilZero.string_of_int (Z.to_int z).

(** [midiNoteToName(n)]: [`${names[n % 12]}${Math.floor(n / 12) - 1}`], for an
    integer [n]; an index outside the table reads [undefined]. *)
Definition midiNoteToName (n : Z) : string :=
  let r := Z.rem n 12 in
  let name :=
    if r <? 0 then "undefined"%string
    else nth (Z.to_nat r) noteNames "undefined"%string in
  String.append name (showZ (n / 12 - 1)).

(** ** Vocabulary of the statements *)

Definition keyEqb (k1 k2 : Key) : bool :=
  if eq_dec k1 k2 then true else false.

(** A note-on for [key]. *)
Definition isNoteOn (key : Key) (e : Event) : bool :=
  match e with
  | E_noteon _ ch note _ _ => keyEqb (mkKey ch note) key
  | _ => false
  end.

(** A termination for [key], immediate or deferred. *)
Definition isRelease (key : Key) (e : Event) : bool :=
  match e with
  | E_noteoff _ ch note _ | E_noteoff_deferred _ ch note _ =>
      keyEqb (mkKey ch note) key
  | _ => false
  end.

(** Any controller-64 event. *)
Definition isSustain (e : Event) : bool :=
  match e with
  | E_cc _ _ ctrl _ _ => is64 ctrl
  | _ => false
  end.

(** Controller 64 on channel [ch] with a value of 64 or more. *)
Definition isPedalDown (ch : Z) (e : Event) : bool :=
  match e with
  | E_cc _ c ctrl val _ => is64 ctrl && (c =? ch) && (val >=? 64)
  | _ => false
  end.

(** Controller 64 on channel [ch] with a value below 64. *)
Definition isPedalUp (ch : Z) (e : Event) : bool :=
  match e with
  | E_cc _ c ctrl val _ => is64 ctrl && (c =? ch) && negb (val >=? 64)
  | _ => false
  end.

(** The interval lies in the window and is not empty. *)
Definition inWindow (windowStart windowEnd : Z) (n : Note.t) : Prop :=
  windowStart <= Note.startMs n /\ Note.startMs n < Note.endMs n /\
  Note.endMs n <= windowEnd.

(** The keys the replay holds back for the pedal of channel [ch]. *)
Definition pendingSet (s : Reconstruct.State) (ch : Z) : JsSet.t Key :=
  match JsMap.get (Reconstruct.pending s) ch with
  | Some keys => keys
  | None => []
  end.

(** Every key held back for a channel is a key of that channel. *)
Definition pendingOwn (s : Reconstruct.State) : Prop :=
  forall c k, In k (pendingSet s c) -> keyCh k = c.

(** While the pedal of [key]'s channel stays down after the release of
    [key]: the pedal is down, the key waits for it, and the note [st] is
    still sounding. *)
Definition heldByPedal (key : Key) (st : Local.t) (s : Reconstruct.State)
  : Prop :=
  pendingOwn s /\
  Reconstruct.isDown (Reconstruct.sustain s) (keyCh key) = true /\
  In key (pendingSet s (keyCh key)) /\
  JsMap.get (Reconstruct.active s) key = Some st.

(** *** Note-on / note-off pairs *)

(** The first event of [l] that starts or ends a note of [key]. *)
Fixpoint nextForKey (key : Key) (l : list Event) : option Event :=
  match l with
  | [] => None
  | e :: l' =>
      if isNoteOn key e || isRelease key e then Some e else nextForKey key l'
  end.

(** The interval of a note of [key] struck at [tOn], when the next event for
    [key] in [l] is its termination. *)
Definition closeAt (key : Key) (tOn vel : Z) (l : list Event) : list Note.t :=
  match nextForKey key l with
  | Some e =>
      if isRelease key e
      then [Note.mk (keyCh key) (keyNote key) tOn (ev_t e) vel]
      else []
  | None => []
  end.

Definition closeEntry (l : list Event) (entry : Key * Local.t)
  : list Note.t :=
  closeAt (fst entry) (Local.tOn (snd entry)) (Local.vel (snd entry)) l.

(** One interval per note-on, from the note-on to its matching note-off. *)
Fixpoint pairedIntervals (l : list Event) : list Note.t :=
  match l with
  | [] => []
  | e :: l' =>
      match e with
      | E_noteon t ch note vel _ => closeAt (mkKey ch note) t vel l'
      | _ => []
      end ++ pairedIntervals l'
  end.

(** Every note-on is followed by a termination of its key before the key is
    struck again, and [later tOn tOff] holds of the two times. *)
Fixpoint pairedBy (later : Z -> Z -> bool) (l : list Event) : bool :=
  match l with
  | [] => true
  | e :: l' =>
      match e with
      | E_noteon t ch note _ _ =>
          match nextForKey (mkKey ch note) l' with
          | Some e' => isRelease (mkKey ch note) e' && later t (ev_t e')
          | None => false
          end
      | _ => true
      end && pairedBy later l'
  end.

Definition isAnyNoteOn (e : Event) : bool :=
  match e with E_noteon _ _ _ _ _ => true | _ => false end.

Definition countNoteOn (l : list Event) : nat :=
  length (filter isAnyNoteOn l).

Definition noSustain (l : list Event) : bool :=
  forallb (fun e => negb (isSustain e)) l.

(** Every event of the slice lies in the window. *)
Definition inRange (windowStart windowEnd : Z) (l : list Event) : bool :=
  forallb (fun e => (windowStart <=? ev_t e) && (ev_t e <=? windowEnd)) l.

(** The note [st] of [key], open when [l] is about to be replayed, started
    in the window and is terminated in [l] at a later time. *)
Definition closable (windowStart : Z) (l : list Event) (key : Key)
  (st : Local.t) : Prop :=
  windowStart <= Local.tOn st /\
  exists e, nextForKey key l = Some e /\ isRelease key e = true /\
            Local.tOn st < ev_t e.

(** *** Ingest *)

(** The states one instance goes through: the constructor, then incoming
    messages, the idle timer firing, the periodic sweep, [clear], a change of
    the idle setting and [destroy]. *)
Inductive reachable : Catchonika -> Prop :=
| reach_create opts start events takes :
    reachable (create opts start events takes)
| reach_message s input tNow data :
    reachable s -> reachable (_onMIDIMessage input tNow data s)
| reach_idle s : reachable s -> reachable (_endTake s)
| reach_gc s tNow : reachable s -> reachable (_gc tNow s)
| reach_clear s : reachable s -> reachable (clear s)
| reach_setting s v : reachable s -> reachable (onIdleSecondsChange v s)
| reach_destroy s : reachable s -> reachable (destroy s).

(** The pending sets are sets, they are empty unless the pedal of their
    channel is down, and every pending key is a sounding note of the
    channel. *)
Definition pendingSound (s : Catchonika) : Prop :=
  forall c,
    NoDup (pendingKeys s c) /\
    (pendingKeys s c <> [] -> sustainDown s c = true) /\
    (forall k, In k (pendingKeys s c) ->
               keyCh k = c /\ JsMap.get (_active s) k <> None).

(** Two instances with the same active notes, pedals and pending sets. *)
Definition sameCore (s1 s2 : Catchonika) : Prop :=
  _active s1 = _active s2 /\ _sustain s1 = _sustain s2 /\
  _pendingRelease s1 = _pendingRelease s2.

(** The channel a status byte addresses, and its message type. *)
Definition statusCh (status : Z) : Z := Z.land status 0x0f + 1.
Definition statusType (status : Z) : Z := Z.land status 0xf0.

(** The messages that open a take when none is open: a note-on with a
    positive velocity, a controller other than 64, a pedal-down edge of
    controller 64, a pitch bend. *)
Inductive opensTake (s : Catchonika) : list Z -> Prop :=
| opens_noteon status note vel rest :
    statusType status = 0x90 -> vel > 0 ->
    opensTake s (status :: note :: vel :: rest)
| opens_cc status ctrl rest :
    statusType status = 0xb0 -> ctrl <> 64 ->
    opensTake s (status :: ctrl :: rest)
| opens_pedal_down status val rest :
    statusType status = 0xb0 -> val >= 64 ->
    sustainDown s (statusCh status) = false ->
    opensTake s (status :: 64 :: val :: rest)
| opens_pitchbend status rest :
    statusType status = 0xe0 -> opensTake s (status :: rest).

(** A termination request: a note-off, or a note-on with velocity 0. *)
Definition isTermination (data : list Z) : bool :=
  match data with
  | [] => false
  | status :: _ =>
      (statusType status =? 0x80) ||
      ((statusType status =? 0x90) && (orZero (nth_error data 2) =? 0))
  end.

(** *** Encoding *)

Definition startLe (a b : Note.t) : Prop := Note.startMs a <= Note.startMs b.


(** *** Runs of one instance *)

(** The channel and the device of a logged event. *)
Definition ev_ch (e : Event) : Z :=
  match e with
  | E_noteon _ ch _ _ _ | E_noteoff _ ch _ _ | E_noteoff_deferred _ ch _ _
  | E_cc _ ch _ _ _ | E_pitchbend _ ch _ _ | E_raw _ _ ch _ => ch
  end.

Definition ev_src (e : Event) : Source :=
  match e with
  | E_noteon _ _ _ _ src | E_noteoff _ _ _ src
  | E_noteoff_deferred _ _ _ src | E_cc _ _ _ _ src
  | E_pitchbend _ _ _ src | E_raw _ _ _ src => src
  end.

Definition timeLe (a b : Event) : Prop := ev_t a <= ev_t b.

(** Two instances with the same settings, clock origin, closed takes, open
    take and idle timer. *)
Definition sameTakes (s1 s2 : Catchonika) : Prop :=
  settings s1 = settings s2 /\ _start s1 = _start s2 /\
  _takes s1 = _takes s2 /\ _currentTake s1 = _currentTake s2 /\
  _idleTimer s1 = _idleTimer s2.

(** A run on a clock that does not go backwards: [clocked now s] when [s] is
    the state of a fresh instance after a series of messages, timer
    callbacks, sweeps and user actions, the last of them at clock value
    [now].  The constructor reads the clock for [_start]. *)
Inductive clocked : Z -> Catchonika -> Prop :=
| clocked_create opts start : clocked start (create opts start [] [])
| clocked_message now s input tNow data :
    clocked now s -> now <= tNow ->
    clocked tNow (_onMIDIMessage input tNow data s)
| clocked_idle now s tNow :
    clocked now s -> now <= tNow -> clocked tNow (_endTake s)
| clocked_gc now s tNow :
    clocked now s -> now <= tNow -> clocked tNow (_gc tNow s)
| clocked_clear now s tNow :
    clocked now s -> now <= tNow -> clocked tNow (clear s)
| clocked_setting now s tNow v :
    clocked now s -> now <= tNow -> clocked tNow (onIdleSecondsChange v s)
| clocked_destroy now s tNow :
    clocked now s -> now <= tNow -> clocked tNow (destroy s).

(** The closed takes follow one another in time, none ends before it starts
    or after [bound]. *)
Definition takesOrdered (bound : Z) (takes : list Take.t) : Prop :=
  StronglySorted (fun a b => Take.endMs a <= Take.startMs b) takes /\
  Forall (fun tk => 0 <= Take.startMs tk /\ Take.startMs tk <= Take.endMs tk /\
                    Take.endMs tk <= bound) takes.

(** The open take, if any, starts after every closed take and was last
    active no later than [bound]. *)
Definition openTakeOrdered (bound : Z) (s : Catchonika) : Prop :=
  match _currentTake s with
  | None => True
  | Some ct =>
      Forall (fun tk => Take.endMs tk <= CurrentTake.startMs ct) (_takes s) /\
      0 <= CurrentTake.startMs ct /\
      CurrentTake.startMs ct <= CurrentTake.lastActivityMs ct /\
      CurrentTake.lastActivityMs ct <= bound
  end.

(** Messages that leave an idle instance idle: a termination request, a
    controller 64 that is not a pedal press (a value below 64, or the pedal
    already down), and a message of any other type than note-off, note-on,
    controller and pitch bend. *)
Inductive keepsIdle (s : Catchonika) : list Z -> Prop :=
| idle_termination data : isTermination data = true -> keepsIdle s data
| idle_pedal_up status val rest :
    statusType status = 0xb0 -> val < 64 ->
    keepsIdle s (status :: 64 :: val :: rest)
| idle_pedal_held status val rest :
    statusType status = 0xb0 ->
    sustainDown s (statusCh status) = true ->
    keepsIdle s (status :: 64 :: val :: rest)
| idle_raw status rest :
    statusType status <> 0x80 -> statusType status <> 0x90 ->
    statusType status <> 0xb0 -> statusType status <> 0xe0 ->
    keepsIdle s (status :: rest).

(** A run in which the log starts empty and is never swept. *)
Inductive logging : Catchonika -> Prop :=
| logging_create opts start takes : logging (create opts start [] takes)
| logging_message s input tNow data :
    logging s -> logging (_onMIDIMessage input tNow data s)
| logging_idle s : logging s -> logging (_endTake s)
| logging_clear s : logging s -> logging (clear s)
| logging_setting s v : logging s -> logging (onIdleSecondsChange v s)
| logging_destroy s : logging s -> logging (destroy s).

(** An entry of [_active] as the reconstruction keeps it: without the
    device. *)
Definition localOf (a : Active.t) : Local.t :=
  Local.mk (Active.tOn a) (Active.vel a).

Definition localView (m : JsMap.t Key Active.t) : JsMap.t Key Local.t :=
  map (fun entry => (fst entry, localOf (snd entry))) m.

(** The locals of a replay hold what the live instance tracks. *)
Definition trackerMatches (r : Reconstruct.State) (s : Catchonika) : Prop :=
  Reconstruct.active r = localView (_active s) /\
  Reconstruct.sustain r = _sustain s /\
  Reconstruct.pending r = _pendingRelease s.

(** The replay of the log of [s] over a window holds the tracker of [s]. *)
Definition journal (windowStart windowEnd : Z) (s : Catchonika) : Prop :=
  trackerMatches
    (Reconstruct.replay windowStart windowEnd (_events s) Reconstruct.init) s.

(** *** Reconstruction *)

(** The events the replay loop looks at: notes and controller 64. *)
Definition isTrackerEvent (e : Event) : bool :=
  match e with
  | E_noteon _ _ _ _ _ | E_noteoff _ _ _ _ | E_noteoff_deferred _ _ _ _ =>
      true
  | E_cc _ _ ctrl _ _ => is64 ctrl
  | E_pitchbend _ _ _ _ | E_raw _ _ _ _ => false
  end.

(** The interval [n] stems from a note-on of [events]: same channel, note
    and velocity, and it starts at the clamped time of the note-on. *)
Definition fromNoteOn (windowStart windowEnd : Z) (events : list Event)
  (n : Note.t) : Prop :=
  exists t src,
    In (E_noteon t (Note.ch n) (Note.note n) (Note.vel n) src) events /\
    Note.startMs n = clamp t windowStart windowEnd.

(** A time at which the reconstruction of [events] can end a note of
    channel [ch] and number [note]: the time of a termination of the key, the
    time of a release of the pedal of the channel, or the end of the
    window. *)
Definition endsNote (windowEnd : Z) (events : list Event) (ch : Z)
  (note : NoteNum) (tOff : Z) : Prop :=
  tOff = windowEnd \/
  exists e,
    In e events /\ ev_t e = tOff /\
    (isRelease (mkKey ch note) e = true \/ isPedalUp ch e = true).

(** The interval [n] is a candidate span clamped to the window: the span
    runs from a note-on of [events] with the channel, note number and
    velocity of [n] to a time that can end the note, and both ends of [n] are
    the ends of the span clamped. *)
Definition clampedSpan (windowStart windowEnd : Z) (events : list Event)
  (n : Note.t) : Prop :=
  exists tOn tOff src,
    In (E_noteon tOn (Note.ch n) (Note.note n) (Note.vel n) src) events /\
    endsNote windowEnd events (Note.ch n) (Note.note n) tOff /\
    Note.startMs n = clamp tOn windowStart windowEnd /\
    Note.endMs n = clamp tOff windowStart windowEnd.

(** Every note sounding in the replay was struck by a note-on of
    [events]. *)
Definition activeFromNoteOn (events : list Event)
  (act : JsMap.t Key Local.t) : Prop :=
  forall key st,
    In (key, st) act ->
    exists src,
      In (E_noteon (Local.tOn st) (keyCh key) (keyNote key) (Local.vel st) src)
        events.

(** The events after a note-on of [key] that leave the note sounding: no
    other note-on and no termination for [key], and no release of the pedal
    of its channel. *)
Definition leavesOpen (key : Key) (e : Event) : bool :=
  negb (isNoteOn key e) && negb (isRelease key e) &&
  negb (isPedalUp (keyCh key) e).

(** *** Encoding *)

Definition shiftNote (d : Z) (n : Note.t) : Note.t :=
  Note.mk (Note.ch n) (Note.note n) (Note.startMs n + d) (Note.endMs n + d)
    (Note.vel n).

(** Every interval of every track moved by [d] milliseconds. *)
Definition shiftTracks (d : Z) (tracks : JsMap.t TrackKey (list Note.t))
  : JsMap.t TrackKey (list Note.t) :=
  map (fun entry => (fst entry, map (shiftNote d) (snd entry))) tracks.

(** The MIDI note numbers. *)
Definition midiNotes : list Z := map Z.of_nat (seq 0 128).

(** No string is listed twice. *)
Fixpoint distinctStrings (l : list string) : bool :=
  match l with
  | [] => true
  | x :: l' =>
      negb (existsb (String.eqb x) l') && distinctStrings l'
  end.
Module JsMapFacts.
Import JsMap.
Section Facts.
Context {K V : Type} `{EqDec K}.
Implicit Types (m : JsMap.t K V).

Lemma get_set_eq m k v : get (set m k v) k = Some v.
Proof.
  induction m as [|[k' v'] m IH]; simpl.
  - destruct (eq_dec k k); congruence.
  - destruct (eq_dec k k') as [->|Hne]; simpl.
    + destruct (eq_dec k' k'); congruence.
    + destruct (eq_dec k k'); congruence.
Qed.

Lemma get_set_ne m k k' v : k <> k' -> get (set m k v) k' = get m k'.
Proof.
  intros Hne. induction m as [|[k0 v0] m IH]; simpl.
  - destruct (eq_dec k' k); congruence.
  - destruct (eq_dec k k0) as [->|Hk]; simpl.
    + destruct (eq_dec k' k0); congruence.
    + destruct (eq_dec k' k0); congruence.
Qed.

Lemma get_delete_eq m k : get (delete m k) k = None.
Proof.
  induction m as [|[k' v'] m IH]; simpl; auto.
  destruct (eq_dec k k') as [->|Hne]; simpl; auto.
  destruct (eq_dec k k'); congruence.
Qed.

Lemma get_delete_ne m k k' : k <> k' -> get (delete m k) k' = get m k'.
Proof.
  intros Hne. induction m as [|[k0 v0] m IH]; simpl; auto.
  destruct (eq_dec k k0) as [->|Hk]; simpl.
  - destruct (eq_dec k' k0); congruence.
  - destruct (eq_dec k' k0); congruence.
Qed.

Lemma get_In m k v : get m k = Some v -> In (k, v) m.
Proof.
  induction m as [|[k' v'] m IH]; simpl; [discriminate|].
  destruct (eq_dec k k') as [->|Hne]; intros Hg.
  - left; congruence.
  - right; auto.
Qed.

Lemma get_None_notin m k : get m k = None -> ~ In k (keys m).
Proof.
  induction m as [|[k' v'] m IH]; simpl; [tauto|].
  destruct (eq_dec k k') as [->|Hne]; [discriminate|].
  intros Hg [Heq|Hin]; [congruence | exact (IH Hg Hin)].
Qed.

Lemma notin_get_None m k : ~ In k (keys m) -> get m k = None.
Proof.
  induction m as [|[k' v'] m IH]; simpl; auto.
  intros Hn. destruct (eq_dec k k') as [->|Hne]; [tauto|].
  apply IH. tauto.
Qed.

Lemma In_get m k v : wf m -> In (k, v) m -> get m k = Some v.
Proof.
  unfold wf. induction m as [|[k' v'] m IH]; simpl; [tauto|].
  intros Hnd [Heq|Hin]; inversion Hnd as [|? ? Hnotin Hnd']; subst.
  - inversion Heq; subst. destruct (eq_dec k k); congruence.
  - destruct (eq_dec k k') as [->|Hne]; [|auto].
    exfalso. apply Hnotin. change (In (fst (k', v)) (map fst m)).
    apply in_map. exact Hin.
Qed.

Lemma all_None_nil m : (forall k, get m k = None) -> m = [].
Proof.
  destruct m as [|[k v] m]; auto. intros Hall.
  specialize (Hall k). simpl in Hall. destruct (eq_dec k k); congruence.
Qed.

Lemma keys_set_absent m k v : get m k = None -> set m k v = m ++ [(k, v)].
Proof.
  induction m as [|[k' v'] m IH]; simpl; auto.
  destruct (eq_dec k k') as [->|Hne]; [discriminate|].
  intros Hg. rewrite IH; auto.
Qed.

Lemma keys_set_present m k v :
  get m k <> None -> keys (set m k v) = keys m.
Proof.
  induction m as [|[k' v'] m IH]; simpl; [congruence|].
  destruct (eq_dec k k') as [->|Hne]; simpl; auto.
  intros Hg. rewrite IH; auto.
Qed.

Lemma keys_delete_incl m k k' : In k' (keys (delete m k)) -> In k' (keys m).
Proof.
  induction m as [|[k0 v0] m IH]; simpl; auto.
  destruct (eq_dec k k0) as [->|Hne]; simpl; intuition.
Qed.

Lemma wf_empty : wf (@empty K V).
Proof. constructor. Qed.

Lemma wf_set m k v : wf m -> wf (set m k v).
Proof.
  unfold wf. intros Hwf. destruct (get m k) eqn:Hg.
  - rewrite keys_set_present; congruence.
  - rewrite keys_set_absent by assumption. unfold keys.
    rewrite map_app. simpl.
    apply NoDup_app; [assumption | repeat constructor; simpl; tauto |].
    intros x Hin [<-|[]]. exact (get_None_notin _ _ Hg Hin).
Qed.

Lemma wf_delete m k : wf m -> wf (delete m k).
Proof.
  unfold wf. induction m as [|[k' v'] m IH]; simpl; auto.
  intros Hnd. inversion Hnd as [|? ? Hnotin Hnd']; subst.
  destruct (eq_dec k k') as [->|Hne]; simpl; auto.
  constructor; auto. intros Hin. apply Hnotin.
  exact (keys_delete_incl _ _ _ Hin).
Qed.

Lemma delete_absent m k : get m k = None -> delete m k = m.
Proof.
  induction m as [|[k' v'] m IH]; simpl; auto.
  destruct (eq_dec k k') as [->|Hne]; [discriminate|].
  intros Hg. rewrite IH; auto.
Qed.

Lemma delete_perm m k v :
  wf m -> get m k = Some v -> Permutation m ((k, v) :: delete m k).
Proof.
  unfold wf. induction m as [|[k' v'] m IH]; simpl; [discriminate|].
  intros Hnd Hg. inversion Hnd as [|? ? Hnotin Hnd']; subst.
  destruct (eq_dec k k') as [->|Hne].
  - inversion Hg; subst. rewrite delete_absent; auto.
    apply notin_get_None. exact Hnotin.
  - rewrite perm_swap. constructor. apply IH; auto.
Qed.

End Facts.
End JsMapFacts.

Module JsSetFacts.
Import JsSet.
Section Facts.
Context {K : Type} `{EqDec K}.
Implicit Types (s : JsSet.t K).

Lemma add_In s k : In k (add s k).
Proof.
  unfold add. destruct (in_dec eq_dec k s); auto.
  apply in_or_app; right; left; reflexivity.
Qed.

Lemma add_incl s k k' : In k' s -> In k' (add s k).
Proof.
  unfold add. destruct (in_dec eq_dec k s); auto.
  intros Hin. apply in_or_app; left; assumption.
Qed.

Lemma add_inv s k k' : In k' (add s k) -> k' = k \/ In k' s.
Proof.
  unfold add. destruct (in_dec eq_dec k s); auto.
  intros Hin. apply in_app_or in Hin. destruct Hin as [|[<-|[]]]; auto.
Qed.

Lemma add_NoDup s k : NoDup s -> NoDup (add s k).
Proof.
  unfold add. intros Hnd. destruct (in_dec eq_dec k s); auto.
  apply NoDup_app; [assumption | repeat constructor; simpl; tauto |].
  intros x Hin [<-|[]]. contradiction.
Qed.

End Facts.
End JsSetFacts.

(** * Facts about the reconstruction *)

Import Reconstruct.

Lemma keyEqb_true k1 k2 : keyEqb k1 k2 = true <-> k1 = k2.
Proof. unfold keyEqb. destruct (eq_dec k1 k2); split; congruence. Qed.

Lemma keyEqb_refl k : keyEqb k k = true.
Proof. apply keyEqb_true. reflexivity. Qed.

Section ReplayFacts.
Variables ws we : Z.

Lemma pushNote_cases ch note tOn tOff vel ns :
  let startMs := Z.max ws (Z.min we tOn) in
  let endMs := Z.max ws (Z.min we tOff) in
  (startMs < endMs /\
   pushNote ws we ch note tOn tOff vel ns =
     ns ++ [Note.mk ch note startMs endMs vel]) \/
  (endMs <= startMs /\ pushNote ws we ch note tOn tOff vel ns = ns).
Proof.
  intros startMs endMs. unfold pushNote. fold startMs endMs.
  destruct (endMs >? startMs) eqn:Hgt.
  - left. split; [lia | reflexivity].
  - right. split; [lia | reflexivity].
Qed.

Lemma pushNote_incl ch note tOn tOff vel ns n :
  In n ns -> In n (pushNote ws we ch note tOn tOff vel ns).
Proof.
  intros Hin. destruct (pushNote_cases ch note tOn tOff vel ns)
    as [[_ ->]|[_ ->]]; auto using in_or_app.
Qed.

Lemma pushNote_inWindow ch note tOn tOff vel ns :
  Forall (inWindow ws we) ns ->
  Forall (inWindow ws we) (pushNote ws we ch note tOn tOff vel ns).
Proof.
  intros Hall. destruct (pushNote_cases ch note tOn tOff vel ns)
    as [[Hlt ->]|[_ ->]]; auto.
  apply Forall_app. split; auto. constructor; [|constructor].
  unfold inWindow; simpl. lia.
Qed.

(** *** What every push preserves

    A property of the list of notes that [pushNote] preserves holds
    throughout: across the flush loop, across every step of the replay and
    across the closing of the open notes. *)

Section NotesInvariant.
Variable P : list Note.t -> Prop.
Hypothesis P_push :
  forall ch note tOn tOff vel ns,
    P ns -> P (pushNote ws we ch note tOn tOff vel ns).

Lemma flush_notes_ind ch t keys act ns :
  P ns -> P (snd (fold_left (flushKey ws we ch t) keys (act, ns))).
Proof.
  revert act ns. induction keys as [|k keys IH]; intros act ns HP; simpl; auto.
  destruct (JsMap.get act k); apply IH; auto.
Qed.

Lemma replayEvent_notes_ind s e :
  P (notes s) -> P (notes (replayEvent ws we s e)).
Proof.
  intros HP.
  assert (Hrel : forall t ch note,
    P (notes
         match JsMap.get (active s) (mkKey ch note) with
         | None => s
         | Some st =>
             if isDown (sustain s) ch then
               let (pending', keys) := ensureSet (pending s) ch in
               {| active := active s; sustain := sustain s;
                  pending :=
                    JsMap.set pending' ch (JsSet.add keys (mkKey ch note));
                  notes := notes s |}
             else
               {| active := JsMap.delete (active s) (mkKey ch note);
                  sustain := sustain s; pending := pending s;
                  notes := pushNote ws we ch note (Local.tOn st) t
                             (Local.vel st) (notes s) |}
         end)).
  { intros t ch note. destruct (JsMap.get (active s) (mkKey ch note)); auto.
    destruct (isDown (sustain s) ch); [|simpl; auto].
    destruct (ensureSet (pending s) ch); simpl; auto. }
  destruct e; simpl; auto.
  destruct (is64 ctrl); auto.
  destruct (isDown (sustain s) ch && negb (val >=? 64)); simpl; auto.
  destruct (ensureSet (pending s) ch) as [p keys].
  pose proof (@flush_notes_ind ch t keys (active s) (notes s) HP) as H.
  destruct (fold_left (flushKey ws we ch t) keys (active s, notes s)).
  exact H.
Qed.

Lemma replay_notes_ind l s :
  P (notes s) -> P (notes (replay ws we l s)).
Proof.
  revert s. induction l as [|e l IH]; intros s HP; simpl; auto.
  apply IH. apply replayEvent_notes_ind. exact HP.
Qed.

Lemma truncateOpen_notes_ind s : P (notes s) -> P (truncateOpen ws we s).
Proof.
  unfold truncateOpen. generalize (notes s).
  induction (active s) as [|[k st] act IH]; intros ns HP; simpl; auto.
Qed.

End NotesInvariant.

Lemma replay_app l1 l2 s :
  replay ws we (l1 ++ l2) s = replay ws we l2 (replay ws we l1 s).
Proof. unfold replay. apply fold_left_app. Qed.

Lemma replay_cons e l s :
  replay ws we (e :: l) s = replay ws we l (replayEvent ws we s e).
Proof. reflexivity. Qed.

(** Notes are only ever added. *)
Lemma flush_notes_incl ch t keys act ns n :
  In n ns -> In n (snd (fold_left (flushKey ws we ch t) keys (act, ns))).
Proof.
  apply (flush_notes_ind (fun ns => In n ns)). intros; apply pushNote_incl; auto.
Qed.

Lemma replay_notes_incl l s n :
  In n (notes s) -> In n (notes (replay ws we l s)).
Proof.
  apply (replay_notes_ind (fun ns => In n ns)). intros; apply pushNote_incl; auto.
Qed.

Lemma allNotes_incl events n :
  In n (notes (replay ws we events init)) -> In n (allNotes ws we events).
Proof.
  apply (truncateOpen_notes_ind (fun ns => In n ns)).
  intros; apply pushNote_incl; auto.
Qed.

(** Every note pushed lies in the window. *)
Lemma allNotes_inWindow events :
  Forall (inWindow ws we) (allNotes ws we events).
Proof.
  unfold allNotes.
  apply (truncateOpen_notes_ind (Forall (inWindow ws we)));
    [intros; apply pushNote_inWindow; auto|].
  apply (replay_notes_ind (Forall (inWindow ws we)));
    [intros; apply pushNote_inWindow; auto|].
  constructor.
Qed.

(** *** The flush loop *)

Lemma flush_get_other ch t keys act ns key :
  ~ In key keys ->
  JsMap.get (fst (fold_left (flushKey ws we ch t) keys (act, ns))) key =
  JsMap.get act key.
Proof.
  revert act ns. induction keys as [|k keys IH]; intros act ns Hnotin; simpl; auto.
  simpl in Hnotin. destruct (JsMap.get act k) eqn:Hk.
  - rewrite IH by tauto. apply JsMapFacts.get_delete_ne. tauto.
  - apply IH. tauto.
Qed.

Lemma flush_pushes ch t keys act ns key st :
  In key keys -> JsMap.get act key = Some st ->
  Z.max ws (Z.min we (Local.tOn st)) < Z.max ws (Z.min we t) ->
  In (Note.mk ch (keyNote key) (Z.max ws (Z.min we (Local.tOn st)))
        (Z.max ws (Z.min we t)) (Local.vel st))
     (snd (fold_left (flushKey ws we ch t) keys (act, ns))).
Proof.
  revert act ns. induction keys as [|k keys IH]; intros act ns Hin Hget Hlt;
    simpl in *; [tauto|].
  destruct (eq_dec k key) as [->|Hne].
  - rewrite Hget. apply flush_notes_incl.
    destruct (pushNote_cases ch (keyNote key) (Local.tOn st) t (Local.vel st) ns)
      as [[_ ->]|[Hle _]]; [|lia].
    apply in_or_app; right; left; reflexivity.
  - destruct Hin as [Heq|Hin]; [congruence|].
    destruct (JsMap.get act k) eqn:Hk; apply IH; auto.
    rewrite JsMapFacts.get_delete_ne; auto.
Qed.


End ReplayFacts.

(** *** Grouping into tracks and sorting keep every interval *)

Lemma insertByStart_perm n l : Permutation (insertByStart n l) (n :: l).
Proof.
  induction l as [|m l IH]; simpl; auto.
  destruct (Note.startMs n <=? Note.startMs m); auto.
  rewrite IH. apply perm_swap.
Qed.

Lemma sortByStart_perm l : Permutation (sortByStart l) l.
Proof.
  induction l as [|n l IH]; simpl; auto.
  rewrite insertByStart_perm. auto.
Qed.

Lemma intervals_sortTracks m :
  Permutation (intervals (sortTracks m)) (intervals m).
Proof.
  unfold intervals, sortTracks. induction m as [|[k arr] m IH]; simpl; auto.
  apply Permutation_app; auto using sortByStart_perm.
Qed.

Lemma intervals_set_append (m : JsMap.t TrackKey (list Note.t)) k arr n :
  JsMap.get m k = Some arr ->
  Permutation (intervals (JsMap.set m k (arr ++ [n]))) (intervals m ++ [n]).
Proof.
  unfold intervals. induction m as [|[k' arr'] m IH]; simpl; [discriminate|].
  destruct (eq_dec k k') as [->|Hne]; simpl; intros Hg.
  - inversion Hg; subst. rewrite <- !app_assoc.
    apply Permutation_app_head. apply Permutation_app_comm.
  - rewrite <- app_assoc. apply Permutation_app_head. auto.
Qed.

Lemma intervals_set_new (m : JsMap.t TrackKey (list Note.t)) k n :
  JsMap.get m k = None ->
  intervals (JsMap.set m k [n]) = intervals m ++ [n].
Proof.
  intros Hg. rewrite JsMapFacts.keys_set_absent by assumption.
  unfold intervals. rewrite flat_map_app. simpl. reflexivity.
Qed.

Lemma intervals_groupNote g m n :
  Permutation (intervals (groupNote g m n)) (intervals m ++ [n]).
Proof.
  unfold groupNote. destruct (JsMap.get m _) eqn:Hg.
  - apply intervals_set_append. assumption.
  - rewrite intervals_set_new by assumption. reflexivity.
Qed.

Lemma intervals_group g l m :
  Permutation (intervals (fold_left (groupNote g) l m)) (intervals m ++ l).
Proof.
  revert m. induction l as [|n l IH]; intros m; simpl.
  - rewrite app_nil_r. reflexivity.
  - rewrite IH, intervals_groupNote, <- app_assoc. reflexivity.
Qed.

Lemma reconstruct_intervals g events ws we :
  Permutation (intervals (_reconstructNotes g events ws we))
    (allNotes ws we events).
Proof.
  unfold _reconstructNotes. rewrite intervals_sortTracks, intervals_group.
  reflexivity.
Qed.

(** *** Pedal state and pending keys during the replay *)

Lemma isDown_set_eq (m : JsMap.t Z bool) ch b :
  isDown (JsMap.set m ch b) ch = b.
Proof. unfold isDown. rewrite JsMapFacts.get_set_eq. reflexivity. Qed.

Lemma isDown_set_ne (m : JsMap.t Z bool) c ch b :
  c <> ch -> isDown (JsMap.set m c b) ch = isDown m ch.
Proof. intros Hne. unfold isDown. rewrite JsMapFacts.get_set_ne; auto. Qed.

Lemma ensureSet_set_eq (m : JsMap.t Z (JsSet.t Key)) ch X :
  JsMap.get (JsMap.set (fst (ensureSet m ch)) ch X) ch = Some X.
Proof. apply JsMapFacts.get_set_eq. Qed.

Lemma ensureSet_set_ne (m : JsMap.t Z (JsSet.t Key)) ch c X :
  ch <> c ->
  JsMap.get (JsMap.set (fst (ensureSet m ch)) ch X) c = JsMap.get m c.
Proof.
  intros Hne. rewrite JsMapFacts.get_set_ne by assumption.
  unfold ensureSet. destruct (JsMap.get m ch); simpl; auto.
  apply JsMapFacts.get_set_ne. assumption.
Qed.

Lemma ensureSet_keys (m : JsMap.t Z (JsSet.t Key)) ch :
  snd (ensureSet m ch) =
  match JsMap.get m ch with Some keys => keys | None => [] end.
Proof. unfold ensureSet. destruct (JsMap.get m ch); reflexivity. Qed.

Lemma pendingOwn_init : pendingOwn init.
Proof. intros c k. unfold pendingSet; simpl. tauto. Qed.

Section SustainFacts.
Variables ws we : Z.

Lemma replayEvent_cc_other s t ch ctrl val src :
  is64 ctrl = false -> replayEvent ws we s (E_cc t ch ctrl val src) = s.
Proof. intros H. simpl. rewrite H. reflexivity. Qed.

(** The state after a controller-64 event, field by field. *)
Lemma replayEvent_cc64 s t ch ctrl val src :
  is64 ctrl = true ->
  let s' := replayEvent ws we s (E_cc t ch ctrl val src) in
  sustain s' = JsMap.set (sustain s) ch (val >=? 64) /\
  (isDown (sustain s) ch && negb (val >=? 64) = false ->
   active s' = active s /\ pending s' = pending s /\ notes s' = notes s) /\
  (isDown (sustain s) ch && negb (val >=? 64) = true ->
   (active s', notes s') =
     fold_left (flushKey ws we ch t) (pendingSet s ch) (active s, notes s) /\
   pendingSet s' ch = [] /\
   forall c, ch <> c -> pendingSet s' c = pendingSet s c).
Proof.
  intros H64. simpl. rewrite H64.
  destruct (isDown (sustain s) ch && negb (val >=? 64)) eqn:Hedge.
  - pose proof (ensureSet_keys (pending s) ch) as Hkeys.
    pose proof (ensureSet_set_eq (pending s) ch JsSet.empty) as Heq.
    pose proof (fun c => @ensureSet_set_ne (pending s) ch c JsSet.empty) as Hne.
    destruct (ensureSet (pending s) ch) as [p keys]. simpl in *.
    fold (pendingSet s ch) in Hkeys. subst keys.
    destruct (fold_left (flushKey ws we ch t) (pendingSet s ch)
                (active s, notes s)) as [a ns] eqn:Hfold.
    simpl. repeat split; try discriminate.
    + unfold pendingSet at 1. simpl. rewrite Heq. reflexivity.
    + intros c Hc. unfold pendingSet. simpl. rewrite Hne; auto.
  - simpl. repeat split; discriminate.
Qed.

(** The state after a termination, field by field. *)
Lemma replayEvent_release s e key :
  isRelease key e = true ->
  let s' := replayEvent ws we s e in
  sustain s' = sustain s /\
  match JsMap.get (active s) key with
  | None => s' = s
  | Some st =>
      if isDown (sustain s) (keyCh key) then
        active s' = active s /\ notes s' = notes s /\
        pendingSet s' (keyCh key) = JsSet.add (pendingSet s (keyCh key)) key /\
        (forall c, keyCh key <> c -> pendingSet s' c = pendingSet s c)
      else
        active s' = JsMap.delete (active s) key /\
        pending s' = pending s /\
        notes s' =
          pushNote ws we (keyCh key) (keyNote key) (Local.tOn st) (ev_t e)
            (Local.vel st) (notes s)
  end.
Proof.
  assert (Hgen : forall t ch note,
    mkKey ch note = key ->
    let s' :=
      match JsMap.get (active s) (mkKey ch note) with
      | None => s
      | Some st =>
          if isDown (sustain s) ch then
            let (pending', keys) := ensureSet (pending s) ch in
            {| active := active s; sustain := sustain s;
               pending := JsMap.set pending' ch (JsSet.add keys (mkKey ch note));
               notes := notes s |}
          else
            {| active := JsMap.delete (active s) (mkKey ch note);
               sustain := sustain s; pending := pending s;
               notes := pushNote ws we ch note (Local.tOn st) t (Local.vel st)
                          (notes s) |}
      end in
    sustain s' = sustain s /\
    match JsMap.get (active s) key with
    | None => s' = s
    | Some st =>
        if isDown (sustain s) (keyCh key) then
          active s' = active s /\ notes s' = notes s /\
          pendingSet s' (keyCh key) = JsSet.add (pendingSet s (keyCh key)) key /\
          (forall c, keyCh key <> c -> pendingSet s' c = pendingSet s c)
        else
          active s' = JsMap.delete (active s) key /\
          pending s' = pending s /\
          notes s' =
            pushNote ws we (keyCh key) (keyNote key) (Local.tOn st) t
              (Local.vel st) (notes s)
    end).
  { intros t ch note <-. simpl.
    destruct (JsMap.get (active s) (mkKey ch note)) as [st|]; [|auto].
    destruct (isDown (sustain s) ch) eqn:Hd.
    - pose proof (ensureSet_keys (pending s) ch) as Hkeys.
      pose proof (fun X => @ensureSet_set_eq (pending s) ch X) as Heq.
      pose proof (fun c X => @ensureSet_set_ne (pending s) ch c X) as Hne.
      destruct (ensureSet (pending s) ch) as [p keys]. simpl in *.
      fold (pendingSet s ch) in Hkeys. subst keys.
      repeat split.
      + unfold pendingSet at 1. simpl. rewrite Heq. reflexivity.
      + intros c Hc. unfold pendingSet. simpl. rewrite Hne; auto.
    - simpl. auto. }
  intros Hrel. destruct e; simpl in Hrel; try discriminate;
    apply keyEqb_true in Hrel; exact (Hgen t ch note Hrel).
Qed.

(** An event is a termination of some key or of none. *)
Lemma release_or_not e :
  (exists key, isRelease key e = true) \/
  (forall t ch note src, e <> E_noteoff t ch note src /\
                         e <> E_noteoff_deferred t ch note src).
Proof.
  destruct e; try (right; split; discriminate);
    left; exists (mkKey ch note); simpl; apply keyEqb_refl.
Qed.

Lemma replayEvent_pendingOwn s e :
  pendingOwn s -> pendingOwn (replayEvent ws we s e).
Proof.
  intros Hown. destruct (release_or_not e) as [[key Hrel]|Hnot].
  - pose proof (@replayEvent_release s e key Hrel) as [_ H].
    cbv zeta in H. destruct (JsMap.get (active s) key);
      [|rewrite H; exact Hown].
    destruct (isDown (sustain s) (keyCh key)).
    + destruct H as (_ & _ & Hch & Hoth). intros c k Hin.
      destruct (Z.eq_dec (keyCh key) c) as [<-|Hne].
      * rewrite Hch in Hin. apply JsSetFacts.add_inv in Hin.
        destruct Hin as [->|Hin]; auto.
      * rewrite Hoth in Hin; auto.
    + destruct H as (_ & Hp & _). intros c k. unfold pendingSet.
      rewrite Hp. apply Hown.
  - destruct e as [t ch note vel src|t ch note src|t ch note src
                  |t ch ctrl val src|t ch value src|t bytes ch src];
      try exact Hown;
      try (exfalso; destruct (Hnot t ch note src); congruence).
    destruct (is64 ctrl) eqn:H64; [|rewrite replayEvent_cc_other; auto].
    pose proof (@replayEvent_cc64 s t ch ctrl val src H64) as (_ & Hno & Hyes).
    cbv zeta in Hno, Hyes.
    destruct (isDown (sustain s) ch && negb (val >=? 64)).
    + destruct (Hyes eq_refl) as (_ & Hch & Hoth). intros c k Hin.
      destruct (Z.eq_dec ch c) as [<-|Hne].
      * rewrite Hch in Hin. destruct Hin.
      * rewrite Hoth in Hin; auto.
    + destruct (Hno eq_refl) as (_ & Hp & _). intros c k. unfold pendingSet.
      rewrite Hp. apply Hown.
Qed.

Lemma replay_pendingOwn l s : pendingOwn s -> pendingOwn (replay ws we l s).
Proof.
  revert s. induction l as [|e l IH]; intros s Hown; simpl; auto.
  apply IH. apply replayEvent_pendingOwn. exact Hown.
Qed.

(** A termination whose key is not locally active changes nothing. *)
Lemma replayEvent_orphan s e key :
  isRelease key e = true -> JsMap.get (active s) key = None ->
  replayEvent ws we s e = s.
Proof.
  intros Hrel Hget. pose proof (@replayEvent_release s e key Hrel) as [_ H].
  cbv zeta in H. rewrite Hget in H. exact H.
Qed.

End SustainFacts.

(** *** A released note under a held pedal *)

Lemma isPedalUp_inv ch e :
  isPedalUp ch e = true ->
  exists t ctrl val src,
    e = E_cc t ch ctrl val src /\ is64 ctrl = true /\ (val >=? 64) = false.
Proof.
  destruct e; simpl; try discriminate. intros H.
  apply andb_true_iff in H. destruct H as [H Hval].
  apply andb_true_iff in H. destruct H as [H64 Hch].
  apply Z.eqb_eq in Hch. subst. apply negb_true_iff in Hval.
  eauto 8.
Qed.

Lemma isPedalDown_inv ch e :
  isPedalDown ch e = true ->
  exists t ctrl val src,
    e = E_cc t ch ctrl val src /\ is64 ctrl = true /\ (val >=? 64) = true.
Proof.
  destruct e; simpl; try discriminate. intros H.
  apply andb_true_iff in H. destruct H as [H Hval].
  apply andb_true_iff in H. destruct H as [H64 Hch].
  apply Z.eqb_eq in Hch. subst. eauto 8.
Qed.

Section HeldFacts.
Variables ws we : Z.

(** The pedal of [ch] stays down as long as no pedal-up for [ch] is
    replayed. *)
Lemma replayEvent_stays_down s e ch :
  isDown (sustain s) ch = true -> isPedalUp ch e = false ->
  isDown (sustain (replayEvent ws we s e)) ch = true.
Proof.
  intros Hd Hup. destruct (release_or_not e) as [[key Hrel]|Hnot].
  - pose proof (@replayEvent_release ws we s e key Hrel) as [Hs _].
    cbv zeta in Hs. rewrite Hs. exact Hd.
  - destruct e as [t c note vel src|t c note src|t c note src
                  |t c ctrl val src|t c value src|t bytes c src]; auto;
      try (exfalso; destruct (Hnot t c note src); congruence).
    destruct (is64 ctrl) eqn:H64; [|rewrite replayEvent_cc_other; auto].
    pose proof (@replayEvent_cc64 ws we s t c ctrl val src H64) as (Hs & _).
    cbv zeta in Hs. rewrite Hs. simpl in Hup. rewrite H64 in Hup.
    destruct (Z.eq_dec c ch) as [->|Hne].
    + rewrite isDown_set_eq. rewrite Z.eqb_refl in Hup. simpl in Hup.
      destruct (val >=? 64); [reflexivity | discriminate].
    + rewrite isDown_set_ne; auto.
Qed.

Lemma replay_stays_down l s ch :
  isDown (sustain s) ch = true ->
  forallb (fun e => negb (isPedalUp ch e)) l = true ->
  isDown (sustain (replay ws we l s)) ch = true.
Proof.
  revert s. induction l as [|e l IH]; intros s Hd Hall; simpl in *; auto.
  apply andb_true_iff in Hall. destruct Hall as [He Hl].
  apply negb_true_iff in He. apply IH; auto.
  apply replayEvent_stays_down; auto.
Qed.

Lemma replayEvent_pedal_down s e ch :
  isPedalDown ch e = true ->
  isDown (sustain (replayEvent ws we s e)) ch = true.
Proof.
  intros H. apply isPedalDown_inv in H.
  destruct H as (t & ctrl & val & src & -> & H64 & Hval).
  pose proof (@replayEvent_cc64 ws we s t ch ctrl val src H64) as (Hs & _).
  cbv zeta in Hs. rewrite Hs, isDown_set_eq. exact Hval.
Qed.

(** The release of a sounding note under a held pedal defers it. *)
Lemma release_held s e key st :
  pendingOwn s -> isRelease key e = true ->
  isDown (sustain s) (keyCh key) = true ->
  JsMap.get (active s) key = Some st ->
  heldByPedal key st (replayEvent ws we s e).
Proof.
  intros Hown Hrel Hd Hget.
  pose proof (@replayEvent_release ws we s e key Hrel) as [Hs H].
  cbv zeta in Hs, H. rewrite Hget, Hd in H.
  destruct H as (Ha & _ & Hp & _).
  split; [apply replayEvent_pendingOwn; exact Hown|].
  split; [rewrite Hs; exact Hd|].
  split; [rewrite Hp; apply JsSetFacts.add_In|].
  rewrite Ha. exact Hget.
Qed.

(** Nothing but a pedal-up on the channel or a new note-on for the key
    disturbs a held note. *)
Lemma replayEvent_held s e key st :
  heldByPedal key st s ->
  isPedalUp (keyCh key) e = false -> isNoteOn key e = false ->
  heldByPedal key st (replayEvent ws we s e).
Proof.
  intros (Hown & Hd & Hpend & Hget) Hup Hon.
  split; [apply replayEvent_pendingOwn; exact Hown|].
  split; [apply replayEvent_stays_down; assumption|].
  destruct (release_or_not e) as [[k Hrel]|Hnot].
  - (* a termination, of this key or of another *)
    pose proof (@replayEvent_release ws we s e k Hrel) as [_ H].
    cbv zeta in H. destruct (JsMap.get (active s) k) eqn:Hk;
      [|rewrite H; auto].
    destruct (isDown (sustain s) (keyCh k)) eqn:Hdc.
    + destruct H as (Ha & _ & Hch & Hoth). rewrite Ha. split; auto.
      destruct (Z.eq_dec (keyCh k) (keyCh key)) as [Heq|Hne].
      * rewrite <- Heq, Hch. apply JsSetFacts.add_incl.
        rewrite Heq. exact Hpend.
      * rewrite Hoth; auto.
    + destruct H as (Ha & Hp & _). rewrite Ha. unfold pendingSet.
      rewrite Hp. split; auto. rewrite JsMapFacts.get_delete_ne; auto.
      intros <-. congruence.
  - destruct e as [t c note vel src|t c note src|t c note src
                  |t c ctrl val src|t c value src|t bytes c src]; auto;
      try (exfalso; destruct (Hnot t c note src); congruence).
    + (* a note-on for another key *)
      simpl. split; auto. rewrite JsMapFacts.get_set_ne; auto.
      simpl in Hon. intros Heq. apply keyEqb_true in Heq. congruence.
    + (* a controller *)
      destruct (is64 ctrl) eqn:H64; [|rewrite replayEvent_cc_other; auto].
      pose proof (@replayEvent_cc64 ws we s t c ctrl val src H64)
        as (_ & Hno & Hyes).
      cbv zeta in Hno, Hyes.
      destruct (isDown (sustain s) c && negb (val >=? 64)) eqn:Hedge.
      * destruct (Hyes eq_refl) as (Hfold & _ & Hoth).
        assert (Hne : c <> keyCh key).
        { intros ->. simpl in Hup. rewrite H64, Z.eqb_refl in Hup.
          apply andb_true_iff in Hedge. destruct Hedge as [_ Hv].
          rewrite Hv in Hup. discriminate. }
        rewrite Hoth by assumption. split; auto.
        pose proof (@flush_get_other ws we c t (pendingSet s c) (active s)
                      (notes s) key) as Hg.
        rewrite <- Hfold in Hg. cbn [fst] in Hg. rewrite Hg; auto.
        intros Hin. apply Hown in Hin. congruence.
      * destruct (Hno eq_refl) as (Ha & Hp & _). rewrite Ha.
        unfold pendingSet. rewrite Hp. auto.
Qed.

Lemma replay_held l s key st :
  heldByPedal key st s ->
  forallb (fun e => negb (isPedalUp (keyCh key) e)) l = true ->
  forallb (fun e => negb (isNoteOn key e)) l = true ->
  heldByPedal key st (replay ws we l s).
Proof.
  revert s. induction l as [|e l IH]; intros s Hheld Hup Hon; simpl in *; auto.
  apply andb_true_iff in Hup. destruct Hup as [Hup1 Hup2].
  apply andb_true_iff in Hon. destruct Hon as [Hon1 Hon2].
  apply negb_true_iff in Hup1. apply negb_true_iff in Hon1.
  apply IH; auto. apply replayEvent_held; auto.
Qed.

(** The pedal-up closes the held note at the pedal-up time. *)
Lemma pedal_up_closes s e key st :
  heldByPedal key st s -> isPedalUp (keyCh key) e = true ->
  Z.max ws (Z.min we (Local.tOn st)) < Z.max ws (Z.min we (ev_t e)) ->
  In (Note.mk (keyCh key) (keyNote key) (Z.max ws (Z.min we (Local.tOn st)))
        (Z.max ws (Z.min we (ev_t e))) (Local.vel st))
     (notes (replayEvent ws we s e)).
Proof.
  intros (Hown & Hd & Hpend & Hget) Hup Hlt.
  apply isPedalUp_inv in Hup.
  destruct Hup as (t & ctrl & val & src & -> & H64 & Hval).
  pose proof (@replayEvent_cc64 ws we s t (keyCh key) ctrl val src H64)
    as (_ & _ & Hyes).
  cbv zeta in Hyes. rewrite Hd, Hval in Hyes.
  destruct (Hyes eq_refl) as (Hfold & _).
  pose proof (@flush_pushes ws we (keyCh key) t (pendingSet s (keyCh key))
                (active s) (notes s) key st Hpend Hget Hlt) as Hin.
  rewrite <- Hfold in Hin. exact Hin.
Qed.

End HeldFacts.

(** *** Note-on / note-off pairs without pedal *)

Lemma isNoteOn_isRelease_other key e :
  (forall t ch note vel src, e = E_noteon t ch note vel src ->
                             mkKey ch note <> key) ->
  (forall t ch note src, e = E_noteoff t ch note src -> mkKey ch note <> key) ->
  (forall t ch note src, e = E_noteoff_deferred t ch note src ->
                         mkKey ch note <> key) ->
  isNoteOn key e = false /\ isRelease key e = false.
Proof.
  intros Hon Hoff Hdef. destruct e; simpl; split; auto;
    unfold keyEqb; destruct (eq_dec (mkKey ch note) key) as [Heq|]; auto;
    exfalso;
    first [ eapply Hon; [reflexivity | exact Heq]
          | eapply Hoff; [reflexivity | exact Heq]
          | eapply Hdef; [reflexivity | exact Heq] ].
Qed.

Lemma nextForKey_other key e l :
  isNoteOn key e = false -> isRelease key e = false ->
  nextForKey key (e :: l) = nextForKey key l.
Proof. intros H1 H2. simpl. rewrite H1, H2. reflexivity. Qed.

Lemma nextForKey_release key e l :
  isRelease key e = true -> nextForKey key (e :: l) = Some e.
Proof. intros H. simpl. rewrite H, orb_true_r. reflexivity. Qed.

Lemma nextForKey_noteon key e l :
  isNoteOn key e = true -> nextForKey key (e :: l) = Some e.
Proof. intros H. simpl. rewrite H. reflexivity. Qed.

Lemma closeAt_release key tOn vel e l :
  isRelease key e = true ->
  closeAt key tOn vel (e :: l) =
  [Note.mk (keyCh key) (keyNote key) tOn (ev_t e) vel].
Proof.
  intros H. unfold closeAt. rewrite nextForKey_release by exact H.
  rewrite H. reflexivity.
Qed.

Lemma closeEntries_other e l (act : JsMap.t Key Local.t) :
  (forall key, In key (JsMap.keys act) ->
               isNoteOn key e = false /\ isRelease key e = false) ->
  flat_map (closeEntry (e :: l)) act = flat_map (closeEntry l) act.
Proof.
  induction act as [|[k st] act IH]; intros Hoth; simpl; auto.
  rewrite IH by (intros key Hin; apply Hoth; right; exact Hin).
  f_equal. unfold closeEntry, closeAt. simpl fst.
  destruct (Hoth k) as [H1 H2]; [left; reflexivity|].
  rewrite nextForKey_other; auto.
Qed.

Lemma closable_other ws e l key st :
  isNoteOn key e = false -> isRelease key e = false ->
  closable ws (e :: l) key st -> closable ws l key st.
Proof.
  intros H1 H2 [Hws (e' & Hnext & Hrel & Hlt)].
  rewrite nextForKey_other in Hnext by assumption.
  split; eauto.
Qed.

Lemma pairedIntervals_length l :
  pairedBy Z.ltb l = true -> length (pairedIntervals l) = countNoteOn l.
Proof.
  unfold countNoteOn. induction l as [|e l IH]; simpl; auto.
  intros H. apply andb_true_iff in H. destruct H as [He Hl].
  rewrite length_app, IH by assumption.
  destruct e; simpl; auto.
  unfold closeAt. destruct (nextForKey (mkKey ch note) l) as [e'|];
    [|discriminate].
  apply andb_true_iff in He. destruct He as [-> _]. reflexivity.
Qed.

Section PairFacts.
Variables ws we : Z.

Lemma pushNote_exact ch note tOn tOff vel ns :
  ws <= tOn -> tOn < tOff -> tOff <= we ->
  pushNote ws we ch note tOn tOff vel ns =
  ns ++ [Note.mk ch note tOn tOff vel].
Proof.
  intros H1 H2 H3.
  destruct (pushNote_cases ws we ch note tOn tOff vel ns)
    as [[_ ->]|[Hle _]]; [|lia].
  replace (Z.max ws (Z.min we tOn)) with tOn by lia.
  replace (Z.max ws (Z.min we tOff)) with tOff by lia.
  reflexivity.
Qed.

(** Replaying a termination [e] of [key], the pedal being up, given what
    holds for the rest [l] of the slice from either resulting state. *)
Lemma release_step key e l s :
  isRelease key e = true ->
  (forall s',
     JsMap.wf (active s') ->
     (forall c, isDown (sustain s') c = false) ->
     (forall k st, JsMap.get (active s') k = Some st -> closable ws l k st) ->
     Permutation (truncateOpen ws we (replay ws we l s'))
       (notes s' ++ flat_map (closeEntry l) (active s') ++ pairedIntervals l)) ->
  JsMap.wf (active s) ->
  (forall c, isDown (sustain s) c = false) ->
  ev_t e <= we ->
  (forall k st, JsMap.get (active s) k = Some st ->
                closable ws (e :: l) k st) ->
  Permutation (truncateOpen ws we (replay ws we l (replayEvent ws we s e)))
    (notes s ++ flat_map (closeEntry (e :: l)) (active s)
       ++ pairedIntervals (e :: l)).
Proof.
  intros Hrel IH Hwf Hup Hwe Hopen.
  assert (Hpi : pairedIntervals (e :: l) = pairedIntervals l).
  { destruct e; simpl in Hrel; try discriminate; reflexivity. }
  assert (Hdiff : forall k, key <> k ->
            isNoteOn k e = false /\ isRelease k e = false).
  { intros k Hne. destruct e; simpl in Hrel; try discriminate;
      apply keyEqb_true in Hrel; subst key;
      apply isNoteOn_isRelease_other; try discriminate;
      intros ? ? ? ? Heq; inversion Heq; subst; exact Hne. }
  pose proof (@replayEvent_release ws we s e key Hrel) as [Hs H].
  cbv zeta in Hs, H. rewrite (Hup (keyCh key)) in H. rewrite Hpi.
  destruct (JsMap.get (active s) key) as [st|] eqn:Hk.
  - destruct H as (Ha & _ & Hn).
    destruct (Hopen key st Hk) as [Hws (e' & Hnext & _ & Hlt)].
    rewrite nextForKey_release in Hnext by exact Hrel.
    inversion Hnext; subst e'.
    rewrite IH.
    + rewrite Hn, Ha, (pushNote_exact _ _ _ _ Hws Hlt Hwe).
      rewrite (Permutation_flat_map (closeEntry (e :: l))
                 (JsMapFacts.delete_perm _ Hwf Hk)).
      simpl flat_map. rewrite closeEntries_other.
      * change (closeEntry (e :: l) (key, st))
          with (closeAt key (Local.tOn st) (Local.vel st) (e :: l)).
        rewrite closeAt_release by exact Hrel.
        simpl. rewrite <- !app_assoc. reflexivity.
      * intros k Hin. apply Hdiff. intros <-.
        exact (JsMapFacts.get_None_notin _ _
                 (JsMapFacts.get_delete_eq (active s) key) Hin).
    + rewrite Ha. apply JsMapFacts.wf_delete. exact Hwf.
    + rewrite Hs. exact Hup.
    + intros k st'. rewrite Ha. intros Hk'.
      assert (Hne : key <> k).
      { intros <-. rewrite JsMapFacts.get_delete_eq in Hk'. discriminate. }
      rewrite JsMapFacts.get_delete_ne in Hk' by exact Hne.
      destruct (Hdiff k Hne). apply closable_other with (e := e); auto.
  - rewrite H.
    assert (Hoth : forall k, In k (JsMap.keys (active s)) ->
              isNoteOn k e = false /\ isRelease k e = false).
    { intros k Hin. apply Hdiff. intros <-.
      exact (JsMapFacts.get_None_notin _ _ Hk Hin). }
    rewrite IH; auto.
    + rewrite closeEntries_other by exact Hoth. reflexivity.
    + intros k st Hk'.
      apply closable_other with (e := e); auto;
        apply Hoth; exact (in_map fst _ _ (JsMapFacts.get_In _ _ Hk')).
Qed.

Lemma paired_replay l :
  forall s,
    JsMap.wf (active s) ->
    (forall c, isDown (sustain s) c = false) ->
    pairedBy Z.ltb l = true -> noSustain l = true ->
    inRange ws we l = true ->
    (forall key st, JsMap.get (active s) key = Some st ->
                    closable ws l key st) ->
    Permutation (truncateOpen ws we (replay ws we l s))
      (notes s ++ flat_map (closeEntry l) (active s) ++ pairedIntervals l).
Proof.
  induction l as [|e l IH]; intros s Hwf Hup Hpair Hnos Hrange Hopen.
  - (* nothing left to replay: no note may still be open *)
    assert (Hnil : active s = []).
    { apply JsMapFacts.all_None_nil. intros k.
      destruct (JsMap.get (active s) k) as [st|] eqn:Hk; auto.
      destruct (Hopen k st Hk) as [_ (e & Hnext & _)]. discriminate. }
    unfold truncateOpen, replay. simpl. rewrite Hnil. simpl.
    rewrite app_nil_r. reflexivity.
  - simpl in Hpair, Hnos, Hrange.
    apply andb_true_iff in Hpair. destruct Hpair as [Hpe Hpl].
    apply andb_true_iff in Hnos. destruct Hnos as [Hse Hsl].
    apply andb_true_iff in Hrange. destruct Hrange as [Hre Hrl].
    apply andb_true_iff in Hre. destruct Hre as [Hre1 Hre2].
    apply Z.leb_le in Hre1. apply Z.leb_le in Hre2.
    rewrite replay_cons.
    destruct e as [t ch note vel src|t ch note src|t ch note src
                  |t ch ctrl val src|t ch value src|t bytes ch src].
    + (* note-on: the key is not sounding, and the new note closes in [l] *)
      set (key := mkKey ch note) in *.
      assert (Hfree : JsMap.get (active s) key = None).
      { destruct (JsMap.get (active s) key) as [st|] eqn:Hk; auto.
        destruct (Hopen key st Hk) as [_ (e & Hnext & Hrel & _)].
        rewrite nextForKey_noteon in Hnext by (simpl; apply keyEqb_refl).
        inversion Hnext; subst e. simpl in Hrel. discriminate. }
      assert (Hoth : forall k, In k (JsMap.keys (active s)) ->
                isNoteOn k (E_noteon t ch note vel src) = false /\
                isRelease k (E_noteon t ch note vel src) = false).
      { intros k Hin. apply isNoteOn_isRelease_other; try discriminate.
        intros ? ? ? ? ? Heq Hk. inversion Heq; subst.
        exact (JsMapFacts.get_None_notin _ _ Hfree Hin). }
      destruct (nextForKey key l) as [e'|] eqn:Hnext; [|discriminate].
      apply andb_true_iff in Hpe. destruct Hpe as [Hrel Hlt].
      apply Z.ltb_lt in Hlt.
      rewrite IH; auto.
      * simpl notes. simpl active.
        rewrite JsMapFacts.keys_set_absent by exact Hfree.
        rewrite flat_map_app. simpl flat_map. rewrite app_nil_r.
        rewrite closeEntries_other by exact Hoth.
        change (closeEntry l (key, Local.mk t vel))
          with (closeAt key t vel l).
        simpl pairedIntervals. fold key.
        rewrite <- !app_assoc. reflexivity.
      * simpl. apply JsMapFacts.wf_set. exact Hwf.
      * intros k st. simpl active. destruct (eq_dec key k) as [<-|Hne].
        -- rewrite JsMapFacts.get_set_eq. intros Hst. inversion Hst; subst st.
           split; [simpl in *; lia|]. exists e'. auto.
        -- rewrite JsMapFacts.get_set_ne by exact Hne. intros Hk.
           apply closable_other with (e := E_noteon t ch note vel src); auto;
             apply Hoth; exact (in_map fst _ _ (JsMapFacts.get_In _ _ Hk)).
    + (* note-off *)
      apply release_step with (key := mkKey ch note);
        [simpl; apply keyEqb_refl | intros; apply IH; auto | auto ..].
    + (* deferred note-off *)
      apply release_step with (key := mkKey ch note);
        [simpl; apply keyEqb_refl | intros; apply IH; auto | auto ..].
    + (* a controller other than the pedal: nothing is replayed *)
      simpl in Hse. apply negb_true_iff in Hse.
      rewrite replayEvent_cc_other by exact Hse.
      rewrite IH; auto.
    + (* pitch bend *)
      simpl replayEvent. rewrite IH; auto.
    + (* raw message *)
      simpl replayEvent. rewrite IH; auto.
Qed.

End PairFacts.

(** *** Entries of a map *)

Section MapEntries.
Context {K V : Type} `{EqDec K}.

Lemma In_set_inv (m : JsMap.t K V) k v k' v' :
  In (k', v') (JsMap.set m k v) -> (k' = k /\ v' = v) \/ In (k', v') m.
Proof.
  induction m as [|[k0 v0] m IH]; simpl.
  - intros [Heq|[]]. left. inversion Heq. auto.
  - destruct (eq_dec k k0) as [->|Hne]; simpl.
    + intros [Heq|Hin]; [left; inversion Heq; auto | right; right; exact Hin].
    + intros [Heq|Hin]; [right; left; exact Heq|].
      destruct (IH Hin); [left | right; right]; assumption.
Qed.

Lemma In_delete_incl (m : JsMap.t K V) k e :
  In e (JsMap.delete m k) -> In e m.
Proof.
  induction m as [|[k0 v0] m IH]; simpl; auto.
  destruct (eq_dec k k0); simpl; intuition.
Qed.

Lemma length_set (m : JsMap.t K V) k v :
  (length (JsMap.set m k v) <= S (length m))%nat.
Proof.
  induction m as [|[k0 v0] m IH]; simpl; [lia|].
  destruct (eq_dec k k0); simpl; lia.
Qed.

Lemma length_delete_le (m : JsMap.t K V) k :
  (length (JsMap.delete m k) <= length m)%nat.
Proof.
  induction m as [|[k0 v0] m IH]; simpl; [lia|].
  destruct (eq_dec k k0); simpl; lia.
Qed.

Lemma length_delete (m : JsMap.t K V) k v :
  JsMap.get m k = Some v -> (S (length (JsMap.delete m k)) <= length m)%nat.
Proof.
  induction m as [|[k0 v0] m IH]; simpl; [discriminate|].
  destruct (eq_dec k k0); simpl.
  - intros _. pose proof (length_delete_le m k). lia.
  - intros Hg. specialize (IH Hg). lia.
Qed.

End MapEntries.

(** *** Where the intervals come from *)

Section SpanFacts.
Variables ws we : Z.
Variable all : list Event.

Lemma clampedSpan_fromNoteOn n :
  clampedSpan ws we all n -> fromNoteOn ws we all n.
Proof.
  intros (tOn & tOff & src & Hin & _ & Hs & _). exists tOn, src. auto.
Qed.

Lemma pushNote_span ch note tOn tOff vel ns src :
  In (E_noteon tOn ch note vel src) all ->
  endsNote we all ch note tOff ->
  Forall (clampedSpan ws we all) ns ->
  Forall (clampedSpan ws we all) (pushNote ws we ch note tOn tOff vel ns).
Proof.
  intros Hin Hend Hall.
  destruct (pushNote_cases ws we ch note tOn tOff vel ns)
    as [[_ ->]|[_ ->]]; [|exact Hall].
  apply Forall_app. split; [exact Hall|].
  constructor; [|constructor]. exists tOn, tOff, src.
  split; [exact Hin|]. split; [exact Hend|]. split; reflexivity.
Qed.

Lemma flush_span ch t keys :
  forall act ns,
    (forall note, endsNote we all ch note t) ->
    (forall k, In k keys -> keyCh k = ch) ->
    activeFromNoteOn all act -> Forall (clampedSpan ws we all) ns ->
    activeFromNoteOn all
      (fst (fold_left (flushKey ws we ch t) keys (act, ns))) /\
    Forall (clampedSpan ws we all)
      (snd (fold_left (flushKey ws we ch t) keys (act, ns))).
Proof.
  induction keys as [|k keys IH]; intros act ns Hend Hch Hact Hns; simpl;
    [split; assumption|].
  assert (Hch' : forall k', In k' keys -> keyCh k' = ch)
    by (intros k' Hin; apply Hch; right; exact Hin).
  destruct (JsMap.get act k) as [st|] eqn:Hget; [|apply IH; assumption].
  apply IH; [exact Hend|exact Hch'| |].
  - intros key st' Hin. apply In_delete_incl in Hin. apply Hact. exact Hin.
  - destruct (Hact k st (JsMapFacts.get_In _ _ Hget)) as (src & Hsrc).
    rewrite (Hch k (or_introl eq_refl)) in Hsrc.
    apply pushNote_span with (src := src); auto.
Qed.

Lemma replayEvent_span s e :
  In e all -> pendingOwn s ->
  activeFromNoteOn all (active s) ->
  Forall (clampedSpan ws we all) (notes s) ->
  activeFromNoteOn all (active (replayEvent ws we s e)) /\
  Forall (clampedSpan ws we all) (notes (replayEvent ws we s e)).
Proof.
  intros Hin Hown Hact Hns.
  assert (Hrel : forall t ch note,
            endsNote we all ch note t ->
            let key := mkKey ch note in
            let s' :=
              match JsMap.get (active s) key with
              | None => s
              | Some st =>
                  if isDown (sustain s) ch then
                    let (pending', keys) := ensureSet (pending s) ch in
                    {| active := active s; sustain := sustain s;
                       pending := JsMap.set pending' ch (JsSet.add keys key);
                       notes := notes s |}
                  else
                    {| active := JsMap.delete (active s) key;
                       sustain := sustain s; pending := pending s;
                       notes := pushNote ws we ch note (Local.tOn st) t
                                  (Local.vel st) (notes s) |}
              end in
            activeFromNoteOn all (active s') /\
            Forall (clampedSpan ws we all) (notes s')).
  { intros t ch note Hend key s'. unfold s'.
    destruct (JsMap.get (active s) key) as [st|] eqn:Hget;
      [|split; assumption].
    destruct (isDown (sustain s) ch).
    - destruct (ensureSet (pending s) ch). split; assumption.
    - simpl. split.
      + intros k st' Hin'. apply In_delete_incl in Hin'. apply Hact.
        exact Hin'.
      + destruct (Hact key st (JsMapFacts.get_In _ _ Hget)) as (src & Hsrc).
        apply pushNote_span with (src := src); assumption. }
  destruct e as [t ch note vel src|t ch note src|t ch note src
                |t ch ctrl val src|t ch value src|t bytes ch src];
    try (split; assumption).
  - simpl. split; [|exact Hns]. intros key st Hin'.
    apply In_set_inv in Hin'. destruct Hin' as [[-> ->]|Hin'].
    + exists src. exact Hin.
    + apply Hact. exact Hin'.
  - apply Hrel. right. exists (E_noteoff t ch note src).
    split; [exact Hin|]. split; [reflexivity|]. left. apply keyEqb_refl.
  - apply Hrel. right. exists (E_noteoff_deferred t ch note src).
    split; [exact Hin|]. split; [reflexivity|]. left. apply keyEqb_refl.
  - destruct (is64 ctrl) eqn:H64;
      [|rewrite replayEvent_cc_other by exact H64; split; assumption].
    destruct (@replayEvent_cc64 ws we s t ch ctrl val src H64)
      as (_ & Hno & Hedge).
    destruct (isDown (sustain s) ch && negb (val >=? 64)) eqn:He.
    + destruct (Hedge eq_refl) as (Hfold & _).
      apply andb_true_iff in He. destruct He as [_ Hval].
      destruct (@flush_span ch t (pendingSet s ch) (active s) (notes s))
        as [Fa Fn]; try assumption.
      { intros note. right. exists (E_cc t ch ctrl val src).
        split; [exact Hin|]. split; [reflexivity|]. right. simpl.
        rewrite H64, Z.eqb_refl, Hval. reflexivity. }
      { intros k Hk. apply Hown. exact Hk. }
      rewrite <- Hfold in Fa, Fn. split; assumption.
    + destruct (Hno eq_refl) as (Ha & _ & Hn). rewrite Ha, Hn.
      split; assumption.
Qed.

Lemma replay_span l :
  forall s,
    (forall e, In e l -> In e all) -> pendingOwn s ->
    activeFromNoteOn all (active s) ->
    Forall (clampedSpan ws we all) (notes s) ->
    activeFromNoteOn all (active (replay ws we l s)) /\
    Forall (clampedSpan ws we all) (notes (replay ws we l s)).
Proof.
  induction l as [|e l IH]; intros s Hincl Hown Hact Hns; simpl;
    [split; assumption|].
  destruct (@replayEvent_span s e) as [Ha Hn]; try assumption.
  { apply Hincl. left. reflexivity. }
  apply IH; try assumption.
  - intros e' Hin. apply Hincl. right. exact Hin.
  - apply replayEvent_pendingOwn. exact Hown.
Qed.

Lemma truncateOpen_span s :
  activeFromNoteOn all (active s) ->
  Forall (clampedSpan ws we all) (notes s) ->
  Forall (clampedSpan ws we all) (truncateOpen ws we s).
Proof.
  unfold truncateOpen. generalize (notes s).
  induction (active s) as [|[k st] entries IH]; intros ns Hact Hns; simpl;
    [exact Hns|].
  apply IH.
  - intros key st' Hin. apply Hact. right. exact Hin.
  - destruct (Hact k st (or_introl eq_refl)) as (src & Hsrc).
    apply pushNote_span with (src := src); [exact Hsrc | left; reflexivity
                                           | exact Hns].
Qed.

End SpanFacts.

(** Every note pushed is a candidate span of the slice, clamped. *)
Lemma allNotes_span ws we events :
  Forall (clampedSpan ws we events) (allNotes ws we events).
Proof.
  unfold allNotes.
  destruct (@replay_span ws we events events init) as [Ha Hn].
  - auto.
  - apply pendingOwn_init.
  - intros key st [].
  - constructor.
  - apply truncateOpen_span; assumption.
Qed.

(** * Properties of the reconstruction *)

(** C1 (as amended).  Sustain invariant.  In a slice
    [q0 ++ down :: q1 ++ off :: mid ++ up :: post] where [down] is a
    pedal-down on channel [ch], [off] is the termination (note-off or deferred
    note-off) of a note of [ch] that is sounding, with onset [tOn], when [off]
    is replayed, [up] is the first pedal-up on [ch] after [down], and the key
    is not struck again between [off] and [up], the reconstruction holds the
    interval of that note ending at the time of [up], whatever the time of
    [off], provided the interval is not empty: the pedal-up lies in the window,
    later than the onset clamped to the window. *)
Theorem sustained_note_ends_at_pedal_up :
  forall g ws we q0 down q1 off mid up post ch note tOn vel,
    isPedalDown ch down = true ->
    forallb (fun e => negb (isPedalUp ch e)) (q1 ++ mid) = true ->
    JsMap.get (active (replay ws we (q0 ++ down :: q1) init)) (mkKey ch note)
      = Some (Local.mk tOn vel) ->
    isRelease (mkKey ch note) off = true ->
    forallb (fun e => negb (isNoteOn (mkKey ch note) e)) mid = true ->
    isPedalUp ch up = true ->
    ws <= ev_t up <= we ->
    Z.max ws (Z.min we tOn) < ev_t up ->
    In (Note.mk ch note (Z.max ws (Z.min we tOn)) (ev_t up) vel)
       (intervals
          (_reconstructNotes g ((q0 ++ down :: q1) ++ off :: mid ++ up :: post)
             ws we)).
Proof.
  intros g ws we q0 down q1 off mid up post ch note tOn vel
    Hdown Hnoup Hact Hrel Hnoon Hup Hwin Hlt.
  rewrite forallb_app in Hnoup. apply andb_true_iff in Hnoup.
  destruct Hnoup as [Hq1 Hmid].
  set (key := mkKey ch note) in *.
  set (pre := q0 ++ down :: q1) in *.
  assert (Hd : isDown (sustain (replay ws we pre init)) (keyCh key) = true).
  { unfold pre. rewrite replay_app, replay_cons.
    apply replay_stays_down; auto. apply replayEvent_pedal_down. exact Hdown. }
  assert (Hheld : heldByPedal key (Local.mk tOn vel)
                    (replay ws we (pre ++ off :: mid) init)).
  { rewrite replay_app, replay_cons. apply replay_held; auto.
    apply release_held; auto. apply replay_pendingOwn. apply pendingOwn_init. }
  eapply Permutation_in; [symmetry; apply reconstruct_intervals|].
  apply allNotes_incl.
  replace (pre ++ off :: mid ++ up :: post)
    with ((pre ++ off :: mid) ++ up :: post)
    by (rewrite <- app_assoc; reflexivity).
  rewrite replay_app, replay_cons. apply replay_notes_incl.
  pose proof (@pedal_up_closes ws we _ up key (Local.mk tOn vel) Hheld Hup)
    as Hin.
  simpl in Hin.
  replace (Z.max ws (Z.min we (ev_t up))) with (ev_t up) in Hin by lia.
  apply Hin. exact Hlt.
Qed.

(** Scenario A of the specification: note-on at 0, pedal down at 10,
    release at 50, pedal up at 200, window [0, 250]. *)
Lemma sustained_note_scenario_A :
  let src := {| inputId := "in-1"%string; inputName := "keys"%string |} in
  In (Note.mk 1 (Some 60) 0 200 100)
     (intervals
        (_reconstructNotes false
           (([E_noteon 0 1 (Some 60) 100 src]
             ++ E_cc 10 1 (Some 64) 127 src :: [])
            ++ E_noteoff_deferred 50 1 (Some 60) src
            :: [] ++ E_cc 200 1 (Some 64) 0 src
            :: [E_noteoff 200 1 (Some 60) src])
           0 250)).
Proof.
  intros src.
  apply (@sustained_note_ends_at_pedal_up false 0 250
           [E_noteon 0 1 (Some 60) 100 src] (E_cc 10 1 (Some 64) 127 src) []
           (E_noteoff_deferred 50 1 (Some 60) src) []
           (E_cc 200 1 (Some 64) 0 src) [E_noteoff 200 1 (Some 60) src]
           1 (Some 60) 0 100);
    try reflexivity; simpl; lia.
Defined.

(** C1 as stated fails.  A note is struck at 0, the pedal goes down at 10,
    the note is released at 50, the same key is struck again at 200 and the
    pedal comes up at 200.  The buffer the instance records holds the
    pedal-down before the deferred release and the pedal-up after it, yet the
    flush closes the key with the onset of the second note-on, an empty span,
    and the reconstruction over [0, 250] holds no interval at all.  Struck
    again at 150 instead, the only interval starts at 150 and the note struck
    at 0 has none.  And when note-on, pedal-down, release and pedal-up all
    carry the timestamp 0, the span is empty and no interval is produced. *)
Lemma restruck_note_has_no_interval :
  let src := {| inputId := "in-1"%string; inputName := "keys"%string |} in
  let key := mkKey 1 (Some 60) in
  let on_ := E_noteon 0 1 (Some 60) 100 src in
  let down := E_cc 10 1 (Some 64) 127 src in
  let off := E_noteoff_deferred 50 1 (Some 60) src in
  let up := E_cc 200 1 (Some 64) 0 src in
  let s :=
    fold_left (fun s m => _onMIDIMessage src (fst m) (snd m) s)
      [(0, [0x90; 60; 100]); (10, [0xb0; 64; 127]); (50, [0x80; 60; 0]);
       (200, [0x90; 60; 100]); (200, [0xb0; 64; 0])]
      (create (mkSettings 30 120 false 3) 0 [] []) in
  let events :=
    [on_; down; off; E_noteon 200 1 (Some 60) 100 src; up;
     E_noteoff 200 1 (Some 60) src] in
  sliceEvents s 0 250 = events /\
  isPedalDown 1 down = true /\
  JsMap.get (active (replay 0 250 [on_; down] init)) key
    = Some (Local.mk 0 100) /\
  isRelease key off = true /\
  isPedalUp 1 up = true /\
  intervals (_reconstructNotes false events 0 250) = [] /\
  intervals
    (_reconstructNotes false
       [on_; down; off; E_noteon 150 1 (Some 60) 100 src; up] 0 250)
    = [Note.mk 1 (Some 60) 150 200 100] /\
  intervals
    (_reconstructNotes false
       [on_; E_cc 0 1 (Some 64) 127 src; E_noteoff_deferred 0 1 (Some 60) src;
        E_cc 0 1 (Some 64) 0 src] 0 250)
    = [].
Proof. repeat split. Qed.

(** C6. [pushNote] clamps both ends of a candidate span to the window
    and keeps the note only when the clamped end lies after the clamped
    start; a span whose clamped duration is zero or negative is dropped.
    Every interval of every track returned by [_reconstructNotes] is such a
    clamped span: it has the channel, note number and velocity of a note-on
    of the slice, starts at the time of that note-on clamped to the window,
    ends at the clamped time of a termination of its key, of a release of
    the pedal of its channel, or of the window end, and satisfies
    [windowStart <= startMs < endMs <= windowEnd]. *)
Theorem reconstructed_intervals_in_window :
  forall g events windowStart windowEnd,
    (forall ch note tOn tOff vel notes,
       pushNote windowStart windowEnd ch note tOn tOff vel notes =
       if clamp tOff windowStart windowEnd >? clamp tOn windowStart windowEnd
       then
         notes ++
         [Note.mk ch note (clamp tOn windowStart windowEnd)
            (clamp tOff windowStart windowEnd) vel]
       else notes) /\
    (forall trackKey arr n,
       In (trackKey, arr) (_reconstructNotes g events windowStart windowEnd) ->
       In n arr ->
       (windowStart <= Note.startMs n /\ Note.startMs n < Note.endMs n /\
        Note.endMs n <= windowEnd) /\
       clampedSpan windowStart windowEnd events n).
Proof.
  intros g events ws we. split; [reflexivity|].
  intros k arr n Htrack Hn.
  assert (Hin : In n (intervals (_reconstructNotes g events ws we))).
  { unfold intervals. apply in_flat_map. exists (k, arr). auto. }
  eapply Permutation_in in Hin; [|apply reconstruct_intervals].
  pose proof (allNotes_inWindow ws we events) as Hall.
  pose proof (allNotes_span ws we events) as Hspan.
  rewrite Forall_forall in Hall, Hspan.
  split; [exact (Hall n Hin) | exact (Hspan n Hin)].
Qed.

(** A window [0, 1000] and three notes: one struck at -50 and released at
    100 (its start is clamped to 0), one struck at 1200 and released at 1500
    (both ends are clamped to 1000, the span is dropped), one struck at 900
    and never released (Scenario B of the specification: it is cut at the
    window end). *)
Lemma reconstructed_intervals_scenario_B :
  let src := {| inputId := "in-1"%string; inputName := "keys"%string |} in
  let events :=
    [E_noteon (-50) 1 (Some 60) 90 src; E_noteoff 100 1 (Some 60) src;
     E_noteon 900 1 (Some 64) 80 src;
     E_noteon 1200 1 (Some 62) 70 src; E_noteoff 1500 1 (Some 62) src] in
  let n := Note.mk 1 (Some 60) 0 100 90 in
  _reconstructNotes false events 0 1000 =
    [(T_main, [n; Note.mk 1 (Some 64) 900 1000 80])] /\
  pushNote 0 1000 1 (Some 62) 1200 1500 70 [n] = [n] /\
  (0 <= Note.startMs n /\ Note.startMs n < Note.endMs n /\
   Note.endMs n <= 1000) /\
  clampedSpan 0 1000 events n.
Proof.
  intros src events n.
  destruct (reconstructed_intervals_in_window false events 0 1000)
    as [Hpush Hall].
  split; [reflexivity|]. split; [rewrite Hpush; reflexivity|].
  apply (Hall T_main [n; Note.mk 1 (Some 64) 900 1000 80] n).
  - left. reflexivity.
  - left. reflexivity.
Defined.

(** C4 (as amended).  In a slice without pedal activity whose events all lie
    in the window, and in which every note-on is followed by the termination
    of its key strictly later in time and before the key is struck again, the
    reconstruction holds exactly one interval per note-on: the intervals are,
    up to their order, the intervals [pairedIntervals] running from each
    note-on to its matching termination. *)
Theorem paired_notes_reconstructed :
  forall g events ws we,
    pairedBy Z.ltb events = true ->
    noSustain events = true ->
    inRange ws we events = true ->
    Permutation (intervals (_reconstructNotes g events ws we))
      (pairedIntervals events) /\
    length (intervals (_reconstructNotes g events ws we)) =
      countNoteOn events.
Proof.
  intros g events ws we Hpair Hnos Hrange.
  assert (Hperm : Permutation (intervals (_reconstructNotes g events ws we))
                    (pairedIntervals events)).
  { rewrite reconstruct_intervals. unfold allNotes.
    rewrite (@paired_replay ws we events init); auto.
    - apply JsMapFacts.wf_empty.
    - intros key st Hget. discriminate. }
  split; [exact Hperm|].
  rewrite (Permutation_length Hperm). apply pairedIntervals_length.
  exact Hpair.
Qed.

(** Two overlapping notes of different keys, window [0, 100]. *)
Lemma paired_notes_example :
  let src := {| inputId := "in-1"%string; inputName := "keys"%string |} in
  let events :=
    [E_noteon 0 1 (Some 60) 100 src; E_noteon 10 1 (Some 64) 90 src;
     E_noteoff 40 1 (Some 60) src; E_noteoff 70 1 (Some 64) src] in
  Permutation (intervals (_reconstructNotes false events 0 100))
    (pairedIntervals events) /\
  length (intervals (_reconstructNotes false events 0 100)) =
    countNoteOn events.
Proof.
  intros src events.
  apply (@paired_notes_reconstructed false events 0 100); reflexivity.
Defined.

(** C4 as stated fails: a note-on whose note-off carries the same timestamp
    yields no interval.  Key 60 is held from 0 to 10, key 62 is struck and
    released at 5: the buffer the instance records holds two note-ons, each
    followed by its note-off, and the reconstruction over [0, 10] holds a
    single interval.  Likewise a key struck twice before it is released
    twice (at 0 and 10, then 20 and 30) yields the single interval
    [10, 20]: the second note-on replaces the first. *)
Lemma zero_length_pair_is_dropped :
  let src := {| inputId := "in-1"%string; inputName := "keys"%string |} in
  let s :=
    fold_left (fun s m => _onMIDIMessage src (fst m) (snd m) s)
      [(0, [0x90; 60; 100]); (5, [0x90; 62; 100]); (5, [0x80; 62; 0]);
       (10, [0x80; 60; 0])]
      (create (mkSettings 30 120 false 3) 0 [] []) in
  let events :=
    [E_noteon 0 1 (Some 60) 100 src; E_noteon 5 1 (Some 62) 100 src;
     E_noteoff 5 1 (Some 62) src; E_noteoff 10 1 (Some 60) src] in
  sliceEvents s 0 10 = events /\
  pairedBy Z.leb events = true /\ noSustain events = true /\
  inRange 0 10 events = true /\
  intervals (_reconstructNotes false events 0 10) =
    [Note.mk 1 (Some 60) 0 10 100] /\
  length (intervals (_reconstructNotes false events 0 10)) <>
    countNoteOn events /\
  intervals
    (_reconstructNotes false
       [E_noteon 0 1 (Some 60) 100 src; E_noteon 10 1 (Some 60) 90 src;
        E_noteoff 20 1 (Some 60) src; E_noteoff 30 1 (Some 60) src] 0 30)
    = [Note.mk 1 (Some 60) 10 20 90].
Proof.
  intros src s events. repeat split; try reflexivity.
  vm_compute. discriminate.
Qed.

(** * Facts about the live instance *)

Lemma sameCore_refl s : sameCore s s.
Proof. repeat split. Qed.

Lemma sameCore_trans s1 s2 s3 :
  sameCore s1 s2 -> sameCore s2 s3 -> sameCore s1 s3.
Proof. intros (A & B & C) (A' & B' & C'). repeat split; congruence. Qed.

Lemma sameCore_sym s1 s2 : sameCore s1 s2 -> sameCore s2 s1.
Proof. intros (A & B & C). repeat split; congruence. Qed.

Lemma pendingSound_ext s1 s2 :
  sameCore s1 s2 -> pendingSound s1 -> pendingSound s2.
Proof.
  intros (Ha & Hs & Hp) Hsound c. specialize (Hsound c).
  unfold pendingKeys, sustainDown in *. rewrite <- Ha, <- Hs, <- Hp.
  exact Hsound.
Qed.

(** The take helpers and the sweep leave notes, pedals and pending sets and
    the event log alone. *)
Lemma resetIdleTimer_core s : sameCore (_resetIdleTimer s) s.
Proof. repeat split. Qed.

Lemma startTake_core t s : sameCore (_startTake t s) s.
Proof. unfold _startTake. destruct (_currentTake s); repeat split. Qed.

Lemma markActivity_core t s : sameCore (_markActivity t s) s.
Proof. unfold _markActivity. destruct (_currentTake s); repeat split. Qed.

Lemma endTake_core s : sameCore (_endTake s) s.
Proof. unfold _endTake. destruct (_currentTake s); repeat split. Qed.

Lemma gc_core tNow s : sameCore (_gc tNow s) s.
Proof. unfold _gc. destruct (_ <=? 0); repeat split. Qed.

Lemma onIdleSecondsChange_core v s : sameCore (onIdleSecondsChange v s) s.
Proof.
  unfold onIdleSecondsChange. destruct (v >? 0); [|repeat split].
  simpl. destruct (_currentTake s); repeat split.
Qed.

Lemma destroy_core s : sameCore (destroy s) s.
Proof. repeat split. Qed.

Lemma startTake_events t s : _events (_startTake t s) = _events s.
Proof. unfold _startTake. destruct (_currentTake s); reflexivity. Qed.

Lemma markActivity_events t s : _events (_markActivity t s) = _events s.
Proof. unfold _markActivity. destruct (_currentTake s); reflexivity. Qed.

Lemma markActivity_start t s : _start (_markActivity t s) = _start s.
Proof. unfold _markActivity. destruct (_currentTake s); reflexivity. Qed.

Lemma markActivity_settings t s : settings (_markActivity t s) = settings s.
Proof. unfold _markActivity. destruct (_currentTake s); reflexivity. Qed.

Lemma markActivity_idle t s :
  _currentTake s = None -> _markActivity t s = s.
Proof. unfold _markActivity. intros ->. reflexivity. Qed.

Lemma startTake_opens t s :
  _currentTake s = None ->
  _currentTake (_startTake t s) = Some (CurrentTake.mk t t) /\
  _idleTimer (_startTake t s) = Some (takeIdleSeconds (settings s) * 1000).
Proof. unfold _startTake. intros ->. split; reflexivity. Qed.

(** *** Pending sets *)

Lemma pendKeySet_keys s c : snd (pendKeySet s c) = pendingKeys s c.
Proof.
  unfold pendKeySet, pendingKeys.
  destruct (JsMap.get (_pendingRelease s) c); reflexivity.
Qed.

Lemma pendKeySet_fields s c :
  let s1 := fst (pendKeySet s c) in
  settings s1 = settings s /\ _start s1 = _start s /\
  _events s1 = _events s /\ _active s1 = _active s /\
  _sustain s1 = _sustain s /\ _takes s1 = _takes s /\
  _currentTake s1 = _currentTake s /\ _idleTimer s1 = _idleTimer s.
Proof.
  unfold pendKeySet. destruct (JsMap.get (_pendingRelease s) c);
    repeat split.
Qed.

(** Writing the set of channel [c] after [pendKeySet] was called on it. *)
Lemma pendingKeys_written s c X c' :
  let s1 := fst (pendKeySet s c) in
  match JsMap.get (JsMap.set (_pendingRelease s1) c X) c' with
  | Some keys => keys
  | None => []
  end = if Z.eq_dec c c' then X else pendingKeys s c'.
Proof.
  cbv zeta. destruct (Z.eq_dec c c') as [<-|Hne].
  - rewrite JsMapFacts.get_set_eq. reflexivity.
  - rewrite JsMapFacts.get_set_ne by exact Hne.
    unfold pendKeySet, pendingKeys.
    destruct (JsMap.get (_pendingRelease s) c) eqn:Hc; simpl; auto.
    rewrite JsMapFacts.get_set_ne by exact Hne. reflexivity.
Qed.

(** *** The termination rule *)

Lemma handleNoteOff_orphan t ch note src s :
  JsMap.get (_active s) (mkKey ch note) = None ->
  _handleNoteOff t ch note src s =
  with_events s (_events s ++ [E_noteoff t ch note src]).
Proof. unfold _handleNoteOff. intros ->. reflexivity. Qed.

Lemma handleNoteOff_deferred t ch note src s a :
  JsMap.get (_active s) (mkKey ch note) = Some a ->
  sustainDown s ch = true ->
  let s' := _handleNoteOff t ch note src s in
  _events s' = _events s ++ [E_noteoff_deferred t ch note src] /\
  _active s' = _active s /\ _sustain s' = _sustain s /\
  (forall c, pendingKeys s' c =
             if Z.eq_dec ch c
             then JsSet.add (pendingKeys s ch) (mkKey ch note)
             else pendingKeys s c) /\
  settings s' = settings s /\ _start s' = _start s /\
  _takes s' = _takes s /\ _currentTake s' = _currentTake s /\
  _idleTimer s' = _idleTimer s.
Proof.
  intros Hget Hdown. unfold _handleNoteOff. rewrite Hget, Hdown.
  pose proof (pendKeySet_keys s ch) as Hkeys.
  pose proof (pendKeySet_fields s ch) as Hf.
  pose proof (fun X c' => pendingKeys_written s ch X c') as Hw.
  destruct (pendKeySet s ch) as [s1 keys]. simpl in *.
  destruct Hf as (H1 & H2 & H3 & H4 & H5 & H6 & H7 & H8). subst keys.
  repeat split; try assumption.
  - rewrite H3. reflexivity.
  - intros c. unfold pendingKeys at 1. simpl. apply Hw.
Qed.

Lemma handleNoteOff_immediate t ch note src s a :
  JsMap.get (_active s) (mkKey ch note) = Some a ->
  sustainDown s ch = false ->
  _handleNoteOff t ch note src s =
  with_active (with_events s (_events s ++ [E_noteoff t ch note src]))
    (JsMap.delete (_active s) (mkKey ch note)).
Proof.
  intros Hget Hdown. unfold _handleNoteOff. rewrite Hget, Hdown. reflexivity.
Qed.

(** *** The flush on a pedal release *)

Lemma flushPending_fields t ch src s key :
  let s' := flushPending t ch src s key in
  settings s' = settings s /\ _start s' = _start s /\
  _sustain s' = _sustain s /\ _pendingRelease s' = _pendingRelease s /\
  _takes s' = _takes s /\ _currentTake s' = _currentTake s /\
  _idleTimer s' = _idleTimer s.
Proof.
  unfold flushPending. destruct (JsMap.get (_active s) key); repeat split.
Qed.

Lemma flush_fold_fields t ch src keys :
  forall s,
    let s' := fold_left (flushPending t ch src) keys s in
    settings s' = settings s /\ _start s' = _start s /\
    _sustain s' = _sustain s /\ _pendingRelease s' = _pendingRelease s /\
    _takes s' = _takes s /\ _currentTake s' = _currentTake s /\
    _idleTimer s' = _idleTimer s.
Proof.
  induction keys as [|k keys IH]; intros s; simpl; [repeat split|].
  destruct (IH (flushPending t ch src s k)) as (A & B & C & D & E & F & G).
  destruct (flushPending_fields t ch src s k) as (A' & B' & C' & D' & E' & F' & G').
  repeat split; congruence.
Qed.

(** Keys that are not flushed keep their note. *)
Lemma flush_fold_other t ch src keys :
  forall s key,
    ~ In key keys ->
    JsMap.get (_active (fold_left (flushPending t ch src) keys s)) key =
    JsMap.get (_active s) key.
Proof.
  induction keys as [|k keys IH]; intros s key Hnotin; simpl; auto.
  simpl in Hnotin. rewrite IH by tauto. unfold flushPending.
  destruct (JsMap.get (_active s) k); simpl; auto.
  apply JsMapFacts.get_delete_ne. tauto.
Qed.

(** Every flushed key loses its note, whether or not it had one. *)
Lemma flush_fold_cleared t ch src keys :
  forall s key,
    In key keys ->
    JsMap.get (_active (fold_left (flushPending t ch src) keys s)) key = None.
Proof.
  induction keys as [|k keys IH]; intros s key Hin; simpl in *; [tauto|].
  destruct (in_dec eq_dec key keys) as [Hin'|Hnotin]; [apply IH; exact Hin'|].
  destruct Hin as [->|Hin]; [|contradiction].
  rewrite flush_fold_other by exact Hnotin. unfold flushPending.
  destruct (JsMap.get (_active s) key) eqn:Hk; simpl; auto.
  apply JsMapFacts.get_delete_eq.
Qed.

(** One note-off per pending key, in the order of the set, when every
    pending key is sounding. *)
Lemma flush_fold_events t ch src keys :
  forall s,
    NoDup keys ->
    (forall k, In k keys -> JsMap.get (_active s) k <> None) ->
    _events (fold_left (flushPending t ch src) keys s) =
    _events s ++ map (fun k => E_noteoff t ch (keyNote k) src) keys.
Proof.
  induction keys as [|k keys IH]; intros s Hnd Hact; simpl.
  - rewrite app_nil_r. reflexivity.
  - inversion Hnd as [|? ? Hnotin Hnd']; subst.
    assert (Hk : JsMap.get (_active s) k <> None) by (apply Hact; left; auto).
    unfold flushPending at 2.
    destruct (JsMap.get (_active s) k) as [a|] eqn:Hget; [|congruence].
    rewrite IH; auto.
    + simpl. rewrite <- app_assoc. reflexivity.
    + intros k' Hin. simpl. rewrite JsMapFacts.get_delete_ne.
      * apply Hact. right. exact Hin.
      * intros <-. contradiction.
Qed.

(** *** The invariant of the pending sets *)

Lemma create_sound opts start events takes :
  pendingSound (create opts start events takes).
Proof.
  intros c. unfold pendingKeys. simpl.
  split; [constructor|]. split; [congruence|]. intros k [].
Qed.

Lemma clear_sound s : pendingSound (clear s).
Proof.
  intros c. unfold pendingKeys. simpl.
  split; [constructor|]. split; [congruence|]. intros k [].
Qed.

Lemma pushEvent_core s e : sameCore (pushEvent s e) s.
Proof. repeat split. Qed.

Lemma handleNoteOff_sound t ch note src s :
  pendingSound s -> pendingSound (_handleNoteOff t ch note src s).
Proof.
  intros Hsound.
  destruct (JsMap.get (_active s) (mkKey ch note)) as [a|] eqn:Hget.
  - destruct (sustainDown s ch) eqn:Hdown.
    + destruct (@handleNoteOff_deferred t ch note src s a Hget Hdown)
        as (_ & Ha & Hs & Hp & _).
      intros c. rewrite Hp. unfold sustainDown. rewrite Hs, Ha.
      fold (sustainDown s c). destruct (Hsound c) as (Hnd & Hne & Hk).
      destruct (Z.eq_dec ch c) as [<-|Hc]; [|auto].
      split; [apply JsSetFacts.add_NoDup; exact Hnd|].
      split; [intros _; exact Hdown|].
      intros k Hin. apply JsSetFacts.add_inv in Hin.
      destruct Hin as [->|Hin]; [|auto].
      split; [reflexivity | congruence].
    + rewrite (@handleNoteOff_immediate t ch note src s a Hget Hdown).
      intros c. destruct (Hsound c) as (Hnd & Hne & Hk).
      unfold pendingKeys, sustainDown in *. simpl.
      split; [exact Hnd|]. split; [exact Hne|].
      intros k Hin. destruct (Hk k Hin) as [Hch Hact]. split; auto.
      rewrite JsMapFacts.get_delete_ne; auto.
      intros <-. simpl in Hch. subst c.
      assert (Hnil : match JsMap.get (_pendingRelease s) ch with
                     | Some keys => keys | None => [] end <> [])
        by (intros E; rewrite E in Hin; destruct Hin).
      apply Hne in Hnil. unfold sustainDown in Hdown. congruence.
  - rewrite (handleNoteOff_orphan t ch note src s Hget).
    apply pendingSound_ext with (s1 := s); auto. repeat split.
Qed.

(** *** The sustain block *)

(** A pedal release: everything the block changes. *)
Lemma sustainBlock_release t ch val input s :
  sustainDown s ch = true -> (val >=? 64) = false ->
  let s' := sustainBlock t ch val input s in
  _active s' =
    _active (fold_left (flushPending t ch input) (pendingKeys s ch) s) /\
  _events s' =
    _events (fold_left (flushPending t ch input) (pendingKeys s ch) s) /\
  _sustain s' = JsMap.set (_sustain s) ch false /\
  (forall c, pendingKeys s' c =
             if Z.eq_dec ch c then [] else pendingKeys s c) /\
  settings s' = settings s /\ _start s' = _start s /\
  _takes s' = _takes s /\ _currentTake s' = _currentTake s /\
  _idleTimer s' = _idleTimer s.
Proof.
  intros Hdown Hval. unfold sustainBlock. rewrite Hdown, Hval. simpl.
  set (s3 := setSustain ch false s).
  pose proof (pendKeySet_keys s3 ch) as Hkeys.
  pose proof (pendKeySet_fields s3 ch) as Hf.
  pose proof (fun X c' => pendingKeys_written s3 ch X c') as Hw.
  destruct (pendKeySet s3 ch) as [s5 keys]. simpl in Hkeys, Hf, Hw.
  destruct Hf as (H1 & H2 & H3 & H4 & H5 & H6 & H7 & H8).
  change (pendingKeys s3 ch) with (pendingKeys s ch) in Hkeys. subst keys.
  destruct (flush_fold_fields t ch input (pendingKeys s ch) s5)
    as (A & B & C & D & E & F & G).
  destruct (flush_fold_fields t ch input (pendingKeys s ch) s)
    as (A' & B' & C' & D' & E' & F' & G').
  assert (Hsame : forall keys sa sb,
            _active sa = _active sb -> _events sa = _events sb ->
            _active (fold_left (flushPending t ch input) keys sa) =
            _active (fold_left (flushPending t ch input) keys sb) /\
            _events (fold_left (flushPending t ch input) keys sa) =
            _events (fold_left (flushPending t ch input) keys sb)).
  { induction keys as [|k keys IH]; intros sa sb Ha He; simpl; auto.
    apply IH; unfold flushPending, pushEvent; rewrite Ha;
      destruct (JsMap.get (_active sb) k); simpl; congruence. }
  destruct (Hsame (pendingKeys s ch) s5 s) as [Hact Hev];
    [rewrite H4; reflexivity | rewrite H3; reflexivity |].
  simpl. repeat split; try congruence.
  intros c. unfold pendingKeys at 1. simpl. rewrite D.
  rewrite Hw. destruct (Z.eq_dec ch c); reflexivity.
Qed.

(** No pedal release: only the pedal flag changes, and a take may open. *)
Lemma sustainBlock_no_release t ch val input s :
  sustainDown s ch && negb (val >=? 64) = false ->
  let s' := sustainBlock t ch val input s in
  _active s' = _active s /\ _events s' = _events s /\
  _sustain s' = JsMap.set (_sustain s) ch (val >=? 64) /\
  _pendingRelease s' = _pendingRelease s.
Proof.
  intros Hedge. unfold sustainBlock. rewrite Hedge.
  destruct (negb (sustainDown s ch) && (val >=? 64)); simpl.
  - destruct (startTake_core t (setSustain ch (val >=? 64) s))
      as (A & B & C).
    rewrite A, B, C, startTake_events. repeat split.
  - repeat split.
Qed.

Lemma sustainDown_set_eq s ch b :
  sustainDown (with_sustain s (JsMap.set (_sustain s) ch b)) ch = b.
Proof. unfold sustainDown. simpl. rewrite JsMapFacts.get_set_eq. reflexivity. Qed.

Lemma sustainBlock_sound t ch val input s :
  pendingSound s -> pendingSound (sustainBlock t ch val input s).
Proof.
  intros Hsound.
  destruct (sustainDown s ch && negb (val >=? 64)) eqn:Hedge.
  - apply andb_true_iff in Hedge. destruct Hedge as [Hdown Hval].
    apply negb_true_iff in Hval.
    destruct (sustainBlock_release t ch val input s Hdown Hval)
      as (Ha & _ & Hs & Hp & _).
    intros c. rewrite Hp. unfold sustainDown. rewrite Hs, Ha.
    destruct (Hsound c) as (Hnd & Hne & Hk).
    destruct (Z.eq_dec ch c) as [<-|Hc].
    + split; [constructor|]. split; [congruence|]. intros k [].
    + split; [exact Hnd|]. split.
      * intros Hnil. rewrite JsMapFacts.get_set_ne by exact Hc.
        apply Hne. exact Hnil.
      * intros k Hin. destruct (Hk k Hin) as [Hch Hact]. split; auto.
        rewrite flush_fold_other; auto.
        intros Hin'. destruct (Hsound ch) as (_ & _ & Hk').
        destruct (Hk' k Hin') as [Hch' _]. congruence.
  - destruct (sustainBlock_no_release t ch val input s Hedge)
      as (Ha & _ & Hs & Hp).
    intros c. unfold pendingKeys, sustainDown. rewrite Hp, Hs, Ha.
    destruct (Hsound c) as (Hnd & Hne & Hk).
    fold (pendingKeys s c).
    split; [exact Hnd|]. split; [|exact Hk].
    intros Hnil. destruct (Z.eq_dec ch c) as [<-|Hc].
    + rewrite JsMapFacts.get_set_eq.
      pose proof (Hne Hnil) as Hd. rewrite Hd in Hedge. simpl in Hedge.
      apply negb_false_iff in Hedge. exact Hedge.
    + rewrite JsMapFacts.get_set_ne by exact Hc. apply Hne. exact Hnil.
Qed.

Lemma onMIDIMessage_sound input tNow data s :
  pendingSound s -> pendingSound (_onMIDIMessage input tNow data s).
Proof.
  intros Hsound. unfold _onMIDIMessage.
  destruct data as [|status rest]; [exact Hsound|]. cbv zeta.
  set (t := tNow - _start s). set (ch := Z.land status 15 + 1).
  assert (H1 : pendingSound (_markActivity t s)).
  { apply pendingSound_ext with (s1 := s); auto.
    apply sameCore_sym, markActivity_core. }
  set (s1 := _markActivity t s) in *. clearbody s1.
  assert (Htake : forall s0, pendingSound s0 ->
            pendingSound (if hasTake s0 then s0 else _startTake t s0)).
  { intros s0 H0. destruct (hasTake s0); auto.
    apply pendingSound_ext with (s1 := s0); auto.
    apply sameCore_sym, startTake_core. }
  destruct (Z.land status 240 =? 144).
  { destruct (orZero (nth_error (status :: rest) 2) >? 0).
    - specialize (Htake s1 H1).
      set (s2 := if hasTake s1 then s1 else _startTake t s1) in *.
      clearbody s2. intros c. destruct (Htake c) as (Hnd & Hne & Hk).
      split; [exact Hnd|]. split; [exact Hne|].
      intros k Hin. destruct (Hk k Hin) as [Hch Hact]. split; auto.
      simpl. destruct (eq_dec (mkKey ch (nth_error (status :: rest) 1)) k)
        as [<-|Hkne].
      + rewrite JsMapFacts.get_set_eq. discriminate.
      + rewrite JsMapFacts.get_set_ne by exact Hkne. exact Hact.
    - apply handleNoteOff_sound. exact H1. }
  destruct (Z.land status 240 =? 128).
  { apply handleNoteOff_sound. exact H1. }
  destruct (Z.land status 240 =? 176).
  { set (s2 := if negb (hasTake s1) && _ then _startTake t s1 else s1).
    assert (H2 : pendingSound s2).
    { unfold s2. destruct (negb (hasTake s1) && _); auto.
      apply pendingSound_ext with (s1 := s1); auto.
      apply sameCore_sym, startTake_core. }
    clearbody s2.
    assert (H3 : pendingSound (pushEvent s2
                   (E_cc t ch (nth_error (status :: rest) 1)
                      (orZero (nth_error (status :: rest) 2)) input))).
    { apply pendingSound_ext with (s1 := s2); auto. repeat split. }
    destruct (is64 _); auto. apply sustainBlock_sound. exact H3. }
  destruct (Z.land status 240 =? 224).
  { apply pendingSound_ext with (s1 := if hasTake s1 then s1
                                       else _startTake t s1); auto.
    repeat split. }
  apply pendingSound_ext with (s1 := s1); auto. repeat split.
Qed.

Lemma reachable_sound s : reachable s -> pendingSound s.
Proof.
  induction 1.
  - apply create_sound.
  - apply onMIDIMessage_sound. assumption.
  - apply pendingSound_ext with (s1 := s); auto.
    apply sameCore_sym, endTake_core.
  - apply pendingSound_ext with (s1 := s); auto.
    apply sameCore_sym, gc_core.
  - apply clear_sound.
  - apply pendingSound_ext with (s1 := s); auto.
    apply sameCore_sym, onIdleSecondsChange_core.
  - apply pendingSound_ext with (s1 := s); auto.
    apply sameCore_sym, destroy_core.
Qed.

(** * Properties of the live instance *)

Lemma statusType_tests status ty :
  statusType status = ty ->
  (Z.land status 240 =? 144) = (ty =? 144) /\
  (Z.land status 240 =? 128) = (ty =? 128) /\
  (Z.land status 240 =? 176) = (ty =? 176) /\
  (Z.land status 240 =? 224) = (ty =? 224).
Proof. unfold statusType. intros ->. repeat split. Qed.

(** A controller-64 message runs the sustain block on the logged event. *)
Lemma onMIDIMessage_cc64 input tNow status val rest s :
  statusType status = 0xb0 ->
  _onMIDIMessage input tNow (status :: 64 :: val :: rest) s =
  sustainBlock (tNow - _start s) (statusCh status) val input
    (pushEvent (_markActivity (tNow - _start s) s)
       (E_cc (tNow - _start s) (statusCh status) (Some 64) val input)).
Proof.
  intros Hty. unfold _onMIDIMessage. cbv zeta.
  destruct (@statusType_tests status _ Hty) as (-> & -> & -> & _). simpl.
  rewrite andb_false_r. reflexivity.
Qed.



(** C3. The flush on a pedal-up edge.  In a reachable state where the pedal
    of the channel is down, a controller-64 message with a value below 64,
    arriving at time [t], logs the controller event and then one [noteoff]
    at [t] for each pending key of the channel, in the order of the set.
    Every pending key is a key of the channel and loses its active note, the
    other active notes are left alone, and the channel ends with an empty
    pending set and its pedal up. *)
Theorem pedal_release_flushes_pending :
  forall s input tNow status val rest,
    reachable s ->
    statusType status = 0xb0 ->
    sustainDown s (statusCh status) = true ->
    val < 64 ->
    let ch := statusCh status in
    let t := tNow - _start s in
    let s' := _onMIDIMessage input tNow (status :: 64 :: val :: rest) s in
    _events s' =
      _events s ++ E_cc t ch (Some 64) val input
        :: map (fun key => E_noteoff t ch (keyNote key) input)
             (pendingKeys s ch) /\
    (forall key, In key (pendingKeys s ch) ->
                 keyCh key = ch /\ JsMap.get (_active s') key = None) /\
    (forall key, ~ In key (pendingKeys s ch) ->
                 JsMap.get (_active s') key = JsMap.get (_active s) key) /\
    pendingKeys s' ch = [] /\
    sustainDown s' ch = false.
Proof.
  intros s input tNow status val rest Hreach Hty Hdown Hval ch t s'.
  pose proof (reachable_sound Hreach) as Hsound.
  unfold s'. rewrite onMIDIMessage_cc64 by exact Hty. fold ch t.
  set (s2 := pushEvent (_markActivity t s) (E_cc t ch (Some 64) val input)).
  destruct (markActivity_core t s) as (Ca & Cs & Cp).
  assert (Hact2 : _active s2 = _active s) by exact Ca.
  assert (Hkeys2 : pendingKeys s2 ch = pendingKeys s ch).
  { unfold pendingKeys. simpl. rewrite Cp. reflexivity. }
  assert (Hdown2 : sustainDown s2 ch = true).
  { unfold sustainDown. simpl. rewrite Cs. exact Hdown. }
  assert (Hval2 : (val >=? 64) = false) by lia.
  destruct (sustainBlock_release t ch val input s2 Hdown2 Hval2)
    as (Ha & He & Hs & Hp & _).
  rewrite Hkeys2 in Ha, He.
  destruct (Hsound ch) as (Hnd & _ & Hk).
  repeat split.
  - rewrite He, flush_fold_events.
    + simpl. rewrite markActivity_events, <- app_assoc. reflexivity.
    + exact Hnd.
    + intros k Hin. rewrite Hact2. apply Hk. exact Hin.
  - apply Hk. assumption.
  - rewrite Ha. apply flush_fold_cleared. assumption.
  - intros key Hnotin. rewrite Ha, flush_fold_other by exact Hnotin.
    rewrite Hact2. reflexivity.
  - rewrite Hp. destruct (Z.eq_dec ch ch); congruence.
  - unfold sustainDown. rewrite Hs, JsMapFacts.get_set_eq. reflexivity.
Qed.

(** Scenario A at ingest: note-on at 0, pedal down at 10, note-off at 50
    (deferred), then the pedal comes up at 200. *)
Lemma pedal_release_scenario_A :
  let src := {| inputId := "in-1"%string; inputName := "keys"%string |} in
  let s0 := create (mkSettings 30 120 false 3) 0 [] [] in
  let s :=
    _onMIDIMessage src 50 [0x80; 60; 0]
      (_onMIDIMessage src 10 [0xb0; 64; 127]
         (_onMIDIMessage src 0 [0x90; 60; 100] s0)) in
  let s' := _onMIDIMessage src 200 [0xb0; 64; 0] s in
  pendingKeys s 1 = [mkKey 1 (Some 60)] /\
  _events s' =
    _events s ++ [E_cc 200 1 (Some 64) 0 src; E_noteoff 200 1 (Some 60) src] /\
  JsMap.get (_active s') (mkKey 1 (Some 60)) = None /\
  pendingKeys s' 1 = [].
Proof.
  intros src s0 s s'.
  assert (Hreach : reachable s) by (repeat apply reach_message; apply reach_create).
  destruct (@pedal_release_flushes_pending s src 200 0xb0 0 [] Hreach)
    as (He & Hcl & _ & Hp & _); try reflexivity.
  split; [reflexivity|]. split; [exact He|].
  split; [apply (Hcl (mkKey 1 (Some 60))); left; reflexivity | exact Hp].
Defined.

(** C5 (as amended).  When no take is open and a message that opens takes
    arrives at time [t] (a note-on with positive velocity, a controller
    other than 64, a pedal-down edge of controller 64, or a pitch bend), a
    take [{startMs: t, lastActivityMs: t}] is opened and the idle timer is
    armed for [takeIdleSeconds * 1000] milliseconds. *)
Theorem activity_opens_take :
  forall s input tNow data,
    _currentTake s = None ->
    opensTake s data ->
    let t := tNow - _start s in
    let s' := _onMIDIMessage input tNow data s in
    _currentTake s' = Some (CurrentTake.mk t t) /\
    _idleTimer s' = Some (takeIdleSeconds (settings s) * 1000).
Proof.
  intros s input tNow data Hidle Hopens t s'. unfold s'.
  assert (Hno : hasTake s = false) by (unfold hasTake; rewrite Hidle; reflexivity).
  destruct Hopens as [status note vel rest Hty Hvel
                     |status ctrl rest Hty Hctrl
                     |status val rest Hty Hval Hup
                     |status rest Hty].
  - unfold _onMIDIMessage. cbv zeta.
    destruct (@statusType_tests status _ Hty) as (-> & _).
    rewrite (markActivity_idle _ s Hidle). fold t. simpl.
    replace (vel >? 0) with true by lia. rewrite Hno. simpl.
    apply startTake_opens. exact Hidle.
  - unfold _onMIDIMessage. cbv zeta.
    destruct (@statusType_tests status _ Hty) as (-> & -> & -> & _).
    rewrite (markActivity_idle _ s Hidle). fold t. simpl.
    replace (ctrl =? 64) with false by lia. rewrite Hno. simpl.
    apply startTake_opens. exact Hidle.
  - rewrite onMIDIMessage_cc64 by exact Hty.
    rewrite (markActivity_idle _ s Hidle). fold t.
    unfold sustainBlock.
    change (sustainDown (pushEvent s _) (statusCh status))
      with (sustainDown s (statusCh status)).
    rewrite Hup. replace (val >=? 64) with true by lia. simpl.
    exact (@startTake_opens t
             (setSustain (statusCh status) true
                (pushEvent s (E_cc t (statusCh status) (Some 64) val input)))
             Hidle).
  - unfold _onMIDIMessage. cbv zeta.
    destruct (@statusType_tests status _ Hty) as (-> & -> & -> & ->).
    rewrite (markActivity_idle _ s Hidle). fold t. simpl.
    rewrite Hno. simpl. apply startTake_opens. exact Hidle.
Qed.

(** The first note played on a fresh instance opens a take. *)
Lemma activity_opens_take_example :
  let src := {| inputId := "in-1"%string; inputName := "keys"%string |} in
  let s := create (mkSettings 30 120 false 3) 0 [] [] in
  let s' := _onMIDIMessage src 7 [0x90; 60; 100] s in
  _currentTake s' = Some (CurrentTake.mk 7 7) /\ _idleTimer s' = Some 3000.
Proof.
  intros src s.
  apply (@activity_opens_take s src 7 [0x90; 60; 100]).
  - reflexivity.
  - apply opens_noteon; [reflexivity | lia].
Defined.

(** C5 as stated fails: a raw message (here a program change) arriving
    while no take is open is logged and opens no take. *)
Lemma raw_message_opens_no_take :
  let src := {| inputId := "in-1"%string; inputName := "keys"%string |} in
  let s := create (mkSettings 30 120 false 3) 0 [] [] in
  let s' := _onMIDIMessage src 7 [0xc0; 5] s in
  _currentTake s = None /\
  _events s' = [E_raw 7 [0xc0; 5] 1 src] /\
  _currentTake s' = None /\ _idleTimer s' = None.
Proof. intros src s s'. repeat split. Qed.

(** C8. The sweep is idempotent: at a fixed current time, sweeping twice
    leaves the instance, and so its event buffer, as sweeping once does. *)
Theorem gc_idempotent :
  forall tNow s, _gc tNow (_gc tNow s) = _gc tNow s.
Proof.
  intros tNow s. unfold _gc.
  destruct (tNow - _start s - bufferMinutes (settings s) * 60 * 1000 <=? 0)
    eqn:Hcut.
  - rewrite Hcut. reflexivity.
  - simpl. rewrite Hcut. unfold with_events. simpl. f_equal.
    induction (_events s) as [|e l IH]; simpl; auto.
    destruct (ev_t e >=? _) eqn:He; simpl; [rewrite He|]; congruence.
Qed.

(** C9 (as amended).  Orphan terminations.  At ingest, a termination
    request (a note-off, or a note-on with velocity 0) for a key without
    active note logs one [noteoff] event at the time [t] of the message and
    leaves the active notes, the pedal flags, the pending sets, the closed
    takes, the settings and the clock origin as they are.  It opens no take;
    like every message it marks the activity of a take that is open: the
    last activity of that take becomes [t] and the idle timer is re-armed.
    In the reconstruction, a termination whose key is not locally active
    when it is replayed can be removed from the slice without changing the
    result: it contributes no interval. *)
Theorem orphan_termination_is_pass_through :
  (forall input tNow status rest s,
     isTermination (status :: rest) = true ->
     JsMap.get (_active s)
       (mkKey (statusCh status) (nth_error (status :: rest) 1)) = None ->
     let t := tNow - _start s in
     let e :=
       E_noteoff t (statusCh status) (nth_error (status :: rest) 1) input in
     let s' := _onMIDIMessage input tNow (status :: rest) s in
     s' = pushEvent (_markActivity t s) e /\
     _events s' = _events s ++ [e] /\
     _active s' = _active s /\ _sustain s' = _sustain s /\
     _pendingRelease s' = _pendingRelease s /\
     _takes s' = _takes s /\ settings s' = settings s /\
     _start s' = _start s /\
     match _currentTake s with
     | None => s' = pushEvent s e
     | Some ct =>
         _currentTake s' =
           Some (CurrentTake.mk (CurrentTake.startMs ct) t) /\
         _idleTimer s' = Some (takeIdleSeconds (settings s) * 1000)
     end) /\
  (forall g ws we pre e post key,
     isRelease key e = true ->
     JsMap.get (active (replay ws we pre init)) key = None ->
     _reconstructNotes g (pre ++ e :: post) ws we =
     _reconstructNotes g (pre ++ post) ws we).
Proof.
  split.
  - intros input tNow status rest s Hterm Hget t e s'.
    assert (Hs : s' = pushEvent (_markActivity t s) e).
    { destruct (markActivity_core t s) as (Ca & _ & _).
      assert (Hget' : JsMap.get (_active (_markActivity t s))
                        (mkKey (statusCh status)
                           (nth_error (status :: rest) 1)) = None)
        by (rewrite Ca; exact Hget).
      unfold s', e, pushEvent.
      rewrite <- (handleNoteOff_orphan t (statusCh status)
                    (nth_error (status :: rest) 1) input
                    (_markActivity t s) Hget').
      unfold isTermination in Hterm.
      unfold _onMIDIMessage. cbv zeta. unfold statusType, statusCh in *.
      fold t. apply orb_true_iff in Hterm. destruct Hterm as [H80|H90].
      - apply Z.eqb_eq in H80. rewrite H80. reflexivity.
      - apply andb_true_iff in H90. destruct H90 as [H90 Hvel].
        rewrite H90. apply Z.eqb_eq in Hvel. rewrite Hvel. reflexivity. }
    rewrite Hs. unfold _markActivity.
    destruct (_currentTake s) as [ct|] eqn:Hc; simpl; repeat split.
  - intros g ws we pre e post key Hrel Hget.
    unfold _reconstructNotes, allNotes. rewrite !replay_app, replay_cons.
    rewrite (@replayEvent_orphan ws we _ e key Hrel Hget). reflexivity.
Qed.

(** Scenario C of the specification: an isolated note-off at 5 on a fresh
    instance. *)
Lemma orphan_termination_scenario_C :
  let src := {| inputId := "in-1"%string; inputName := "keys"%string |} in
  let s := create (mkSettings 30 120 false 3) 0 [] [] in
  let s' := _onMIDIMessage src 5 [0x80; 72; 0] s in
  s' = pushEvent s (E_noteoff 5 1 (Some 72) src) /\
  _events s' = [E_noteoff 5 1 (Some 72) src] /\
  _active s' = [] /\ _currentTake s' = None /\
  _reconstructNotes false ([] ++ E_noteoff 5 1 (Some 72) src :: []) 0 10
    = [].
Proof.
  intros src s s'. destruct orphan_termination_is_pass_through as [Hin Hrec].
  destruct (Hin src 5 0x80 [72; 0] s eq_refl eq_refl)
    as (_ & He & Ha & _ & _ & _ & _ & _ & Hs).
  rewrite (Hrec false 0 10 [] (E_noteoff 5 1 (Some 72) src) []
             (mkKey 1 (Some 72)) eq_refl eq_refl).
  split; [exact Hs|]. split; [exact He|]. split; [exact Ha|].
  split; reflexivity.
Defined.

(** C9 as stated fails at ingest while a take is open: the orphan note-off
    for key 72 at 50 is logged, changes no note, and moves the last activity
    of the take opened at 10 from 10 to 50. *)
Lemma orphan_note_off_extends_take :
  let src := {| inputId := "in-1"%string; inputName := "keys"%string |} in
  let s :=
    _onMIDIMessage src 10 [0x90; 60; 100]
      (create (mkSettings 30 120 false 3) 0 [] []) in
  let s' := _onMIDIMessage src 50 [0x80; 72; 0] s in
  JsMap.get (_active s) (mkKey 1 (Some 72)) = None /\
  _events s' = _events s ++ [E_noteoff 50 1 (Some 72) src] /\
  _active s' = _active s /\
  _currentTake s = Some (CurrentTake.mk 10 10) /\
  _currentTake s' = Some (CurrentTake.mk 10 50).
Proof. intros src s s'. repeat split. Qed.

(** C10. [clear()] empties the event log, the active notes, the pedal map
    and the pending sets, drops the open take without closing it, empties the
    list of closed takes and cancels the idle timer; afterwards no window
    holds an interval. *)
Theorem clear_resets_everything :
  forall s,
    let s' := clear s in
    _events s' = [] /\ _active s' = [] /\ _sustain s' = [] /\
    _pendingRelease s' = [] /\ (forall c, pendingKeys s' c = []) /\
    _currentTake s' = None /\ _takes s' = [] /\ _idleTimer s' = None /\
    forall startMs endMs bpm,
      sliceEvents s' startMs endMs = [] /\
      _reconstructNotes (groupByChannel (settings s'))
        (sliceEvents s' startMs endMs) startMs endMs = [] /\
      _saveRange s' startMs endMs bpm = [].
Proof. intros s. simpl. repeat split. Qed.

(** * Facts about the encoder *)

Lemma insertByStart_sorted n l :
  StronglySorted startLe l -> StronglySorted startLe (insertByStart n l).
Proof.
  induction 1 as [|m l Hs IH Hall]; simpl.
  - repeat constructor.
  - destruct (Note.startMs n <=? Note.startMs m) eqn:Hle.
    + apply Z.leb_le in Hle. constructor; [constructor; assumption|].
      constructor; [exact Hle|].
      rewrite Forall_forall in *. intros x Hx. specialize (Hall x Hx).
      unfold startLe in *. lia.
    + apply Z.leb_gt in Hle. constructor; [exact IH|].
      rewrite Forall_forall in *. intros x Hx.
      apply (Permutation_in _ (insertByStart_perm n l)) in Hx.
      destruct Hx as [<-|Hx]; [unfold startLe; lia | auto].
Qed.

Lemma sortByStart_sorted l : StronglySorted startLe (sortByStart l).
Proof.
  induction l as [|n l IH]; simpl; [constructor|].
  apply insertByStart_sorted. exact IH.
Qed.


(** The loop computing [_t0Global]: the result is the accumulator or the
    start of the first note of a track, and it is below both. *)
Lemma t0_fold_spec tracks :
  forall acc,
    let r := fold_left t0Step tracks acc in
    (r = acc \/
     exists k n arr, In (k, n :: arr) tracks /\ r = Some (Note.startMs n)) /\
    (forall a, acc = Some a -> exists m, r = Some m /\ m <= a) /\
    (forall k n arr, In (k, n :: arr) tracks ->
                     exists m, r = Some m /\ m <= Note.startMs n).
Proof.
  induction tracks as [|[k0 arr0] tracks IH]; intros acc; simpl.
  - split; [left; reflexivity|]. split; [|intros ? ? ? []].
    intros a ->. exists a. split; [reflexivity | lia].
  - set (acc' := t0Step acc (k0, arr0)).
    destruct (IH acc') as (Hor & Hacc & Hheads).
    assert (Hstep : (acc' = acc /\ (arr0 = [] \/ exists a, acc = Some a)) \/
                    (exists n arr, arr0 = n :: arr /\
                                   acc' = Some (Note.startMs n))).
    { unfold acc', t0Step. simpl. destruct arr0 as [|n arr]; [auto|].
      destruct acc as [a|]; [|right; eauto].
      destruct (Note.startMs n <? a); [right; eauto | left; eauto]. }
    assert (Hle : forall a, acc = Some a -> exists m, acc' = Some m /\ m <= a).
    { intros a ->. unfold acc', t0Step. simpl.
      destruct arr0 as [|n arr]; [exists a; split; [reflexivity | lia]|].
      destruct (Note.startMs n <? a) eqn:Hlt.
      - apply Z.ltb_lt in Hlt. eexists; split; [reflexivity | lia].
      - exists a; split; [reflexivity | lia]. }
    assert (Hhead : forall n arr, arr0 = n :: arr ->
               exists m, acc' = Some m /\ m <= Note.startMs n).
    { intros n arr ->. unfold acc', t0Step. simpl.
      destruct acc as [a|]; [|eexists; split; [reflexivity | lia]].
      destruct (Note.startMs n <? a) eqn:Hlt.
      - eexists; split; [reflexivity | lia].
      - apply Z.ltb_ge in Hlt. exists a; split; [reflexivity | lia]. }
    clearbody acc'. split; [|split].
    + destruct Hor as [Hr|(k & n & arr & Hin & Hr)].
      * destruct Hstep as [[Hs _]|(n & arr & Harr & Hs)].
        -- left. rewrite Hr. exact Hs.
        -- right. exists k0, n, arr.
           split; [left; rewrite Harr; reflexivity | rewrite Hr; exact Hs].
      * right. exists k, n, arr. split; [right; exact Hin | exact Hr].
    + intros a Ha. destruct (Hle a Ha) as (m & Hm & Hma).
      destruct (Hacc m Hm) as (m' & Hm' & Hle'). exists m'. split; [auto | lia].
    + intros k n arr [Heq|Hin].
      * inversion Heq; subst. destruct (Hhead n arr eq_refl) as (m & Hm & Hmn).
        destruct (Hacc m Hm) as (m' & Hm' & Hle'). exists m'. split; [auto | lia].
      * apply (Hheads k n arr Hin).
Qed.







(** * Properties of the encoder *)




(** * Runs of the live instance: the log and the takes *)

Lemma sameTakes_refl s : sameTakes s s.
Proof. repeat split. Qed.

Lemma sameTakes_trans s1 s2 s3 :
  sameTakes s1 s2 -> sameTakes s2 s3 -> sameTakes s1 s3.
Proof.
  intros (A & B & C & D & E) (A' & B' & C' & D' & E').
  repeat split; congruence.
Qed.

Lemma sameTakes_sym s1 s2 : sameTakes s1 s2 -> sameTakes s2 s1.
Proof. intros (A & B & C & D & E). repeat split; congruence. Qed.

Lemma startTake_sameTakes t s1 s2 :
  sameTakes s1 s2 -> sameTakes (_startTake t s1) (_startTake t s2).
Proof.
  intros (A & B & C & D & E). unfold _startTake. rewrite D.
  destruct (_currentTake s2) eqn:Hc; [repeat split; congruence|].
  unfold _resetIdleTimer. simpl. rewrite A. repeat split; simpl; congruence.
Qed.

Lemma startTake_open t s ct :
  _currentTake s = Some ct -> _startTake t s = s.
Proof. unfold _startTake. intros ->. reflexivity. Qed.

Lemma handleNoteOff_takes t ch note src s :
  sameTakes (_handleNoteOff t ch note src s) s.
Proof.
  unfold _handleNoteOff.
  destruct (JsMap.get (_active s) (mkKey ch note)); [|repeat split].
  destruct (sustainDown s ch); [|repeat split].
  pose proof (pendKeySet_fields s ch) as Hf.
  destruct (pendKeySet s ch) as [s1 keys]. simpl in Hf.
  destruct Hf as (H1 & H2 & H3 & H4 & H5 & H6 & H7 & H8).
  repeat split; assumption.
Qed.

(** The sustain block touches the take only through [_startTake]. *)
Lemma sustainBlock_takes t ch val input s :
  sameTakes (sustainBlock t ch val input s) s \/
  sameTakes (sustainBlock t ch val input s) (_startTake t s).
Proof.
  unfold sustainBlock.
  set (s1 := setSustain ch (val >=? 64) s).
  assert (H1 : sameTakes s1 s) by (repeat split).
  set (s2 := if negb (sustainDown s ch) && (val >=? 64)
             then _startTake t s1 else s1).
  assert (H2 : sameTakes s2 s \/ sameTakes s2 (_startTake t s)).
  { unfold s2. destruct (negb (sustainDown s ch) && (val >=? 64)).
    - right. apply startTake_sameTakes. exact H1.
    - left. exact H1. }
  clearbody s2.
  assert (H3 : sameTakes
                 (if sustainDown s ch && negb (val >=? 64)
                  then
                    let (s3, keys) := pendKeySet s2 ch in
                    let s4 := fold_left (flushPending t ch input) keys s3 in
                    with_pendingRelease s4
                      (JsMap.set (_pendingRelease s4) ch JsSet.empty)
                  else s2) s2).
  { destruct (sustainDown s ch && negb (val >=? 64)); [|repeat split].
    pose proof (pendKeySet_fields s2 ch) as Hf.
    destruct (pendKeySet s2 ch) as [s3 keys]. simpl in Hf.
    destruct Hf as (F1 & F2 & F3 & F4 & F5 & F6 & F7 & F8).
    destruct (flush_fold_fields t ch input keys s3)
      as (A & B & C & D & E & F & G).
    repeat split; simpl; congruence. }
  destruct H2 as [H2|H2]; [left|right];
    exact (sameTakes_trans H3 H2).
Qed.

(** A message marks the activity, opens a take or not, and does nothing else
    to the takes. *)
Lemma onMIDIMessage_takes input tNow status rest s :
  let t := tNow - _start s in
  let s' := _onMIDIMessage input tNow (status :: rest) s in
  sameTakes s' (_markActivity t s) \/
  sameTakes s' (_startTake t (_markActivity t s)).
Proof.
  intros t s'. unfold s', _onMIDIMessage. cbv zeta. fold t.
  set (s1 := _markActivity t s). clearbody s1.
  set (ch := Z.land status 15 + 1).
  assert (Htake : forall s0 : Catchonika,
            (if hasTake s0 then s0 else _startTake t s0) = _startTake t s0).
  { intros s0. unfold hasTake. destruct (_currentTake s0) eqn:Hc; auto.
    symmetry. exact (startTake_open t s0 Hc). }
  destruct (Z.land status 240 =? 144).
  { destruct (orZero (nth_error (status :: rest) 2) >? 0).
    - right. rewrite Htake. repeat split.
    - left. apply handleNoteOff_takes. }
  destruct (Z.land status 240 =? 128).
  { left. apply handleNoteOff_takes. }
  destruct (Z.land status 240 =? 176).
  { set (ctrl := nth_error (status :: rest) 1).
    set (val := orZero (nth_error (status :: rest) 2)).
    destruct (is64 ctrl).
    - rewrite andb_false_r.
      destruct (sustainBlock_takes t ch val input
                  (pushEvent s1 (E_cc t ch ctrl val input))) as [H|H].
      + left. exact H.
      + right. apply (sameTakes_trans H). apply startTake_sameTakes.
        repeat split.
    - rewrite andb_true_r. unfold hasTake.
      destruct (_currentTake s1) eqn:Hc; simpl.
      + left. repeat split.
      + right. repeat split. }
  destruct (Z.land status 240 =? 224).
  { right. rewrite Htake. repeat split. }
  left. repeat split.
Qed.

Lemma onMIDIMessage_nil input tNow s : _onMIDIMessage input tNow [] s = s.
Proof. reflexivity. Qed.

(** *** What a message adds to the log *)

Lemma handleNoteOff_appends t ch note src s :
  exists e,
    _events (_handleNoteOff t ch note src s) = _events s ++ [e] /\
    ev_t e = t /\ ev_ch e = ch /\ ev_src e = src.
Proof.
  unfold _handleNoteOff.
  destruct (JsMap.get (_active s) (mkKey ch note)).
  - destruct (sustainDown s ch).
    + pose proof (pendKeySet_fields s ch) as Hf.
      destruct (pendKeySet s ch) as [s1 keys]. simpl in Hf.
      destruct Hf as (H1 & H2 & H3 & _).
      exists (E_noteoff_deferred t ch note src). simpl. rewrite H3.
      repeat split.
    + exists (E_noteoff t ch note src). repeat split.
  - exists (E_noteoff t ch note src). repeat split.
Qed.

Lemma flush_fold_appends t ch src keys :
  forall s,
    exists new,
      _events (fold_left (flushPending t ch src) keys s) = _events s ++ new /\
      Forall (fun e => ev_t e = t /\ ev_ch e = ch /\ ev_src e = src) new.
Proof.
  induction keys as [|k keys IH]; intros s; simpl.
  - exists []. rewrite app_nil_r. split; [reflexivity | constructor].
  - destruct (IH (flushPending t ch src s k)) as (new & He & Hall).
    assert (Hk : exists new0,
               _events (flushPending t ch src s k) = _events s ++ new0 /\
               Forall (fun e => ev_t e = t /\ ev_ch e = ch /\ ev_src e = src)
                 new0).
    { unfold flushPending. destruct (JsMap.get (_active s) k).
      - exists [E_noteoff t ch (keyNote k) src]. split; [reflexivity|].
        constructor; [repeat split | constructor].
      - exists []. rewrite app_nil_r. split; [reflexivity | constructor]. }
    destruct Hk as (new0 & He0 & Hall0).
    exists (new0 ++ new). rewrite He, He0, <- app_assoc.
    split; [reflexivity|]. apply Forall_app. split; assumption.
Qed.

Lemma sustainBlock_appends t ch val input s :
  exists new,
    _events (sustainBlock t ch val input s) = _events s ++ new /\
    Forall (fun e => ev_t e = t /\ ev_ch e = ch /\ ev_src e = input) new.
Proof.
  unfold sustainBlock.
  set (s2 := if negb (sustainDown s ch) && (val >=? 64)
             then _startTake t (setSustain ch (val >=? 64) s)
             else setSustain ch (val >=? 64) s).
  assert (H2 : _events s2 = _events s).
  { unfold s2. destruct (negb (sustainDown s ch) && (val >=? 64)); auto.
    rewrite startTake_events. reflexivity. }
  clearbody s2.
  destruct (sustainDown s ch && negb (val >=? 64)).
  - pose proof (pendKeySet_fields s2 ch) as Hf.
    destruct (pendKeySet s2 ch) as [s3 keys]. simpl in Hf.
    destruct Hf as (F1 & F2 & F3 & _).
    destruct (flush_fold_appends t ch input keys s3) as (new & He & Hall).
    exists new. simpl. rewrite He, F3, H2. split; [reflexivity | exact Hall].
  - exists []. rewrite app_nil_r. split; [exact H2 | constructor].
Qed.

(** A message only appends to the log: at least one event, each stamped with
    the time and the channel of the message and with its device. *)
Lemma onMIDIMessage_appends input tNow status rest s :
  exists new,
    _events (_onMIDIMessage input tNow (status :: rest) s) =
      _events s ++ new /\
    new <> [] /\
    Forall (fun e => ev_t e = tNow - _start s /\
                     ev_ch e = statusCh status /\ ev_src e = input) new.
Proof.
  unfold _onMIDIMessage. cbv zeta.
  set (t := tNow - _start s). fold (statusCh status).
  set (ch := statusCh status).
  pose proof (markActivity_events t s) as H1.
  set (s1 := _markActivity t s) in *. clearbody s1.
  assert (Htake : forall b : bool,
            _events (if b then s1 else _startTake t s1) = _events s).
  { intros []; [|rewrite startTake_events]; exact H1. }
  assert (Hoff : forall note,
            exists new,
              _events (_handleNoteOff t ch note input s1) = _events s ++ new /\
              new <> [] /\
              Forall (fun e => ev_t e = t /\ ev_ch e = ch /\ ev_src e = input)
                new).
  { intros note.
    destruct (handleNoteOff_appends t ch note input s1)
      as (e & He & Ht & Hc & Hs).
    exists [e]. rewrite He, H1. split; [reflexivity|].
    split; [discriminate|]. constructor; [auto | constructor]. }
  destruct (Z.land status 240 =? 144).
  { destruct (orZero (nth_error (status :: rest) 2) >? 0); [|apply Hoff].
    eexists. simpl. rewrite Htake. split; [reflexivity|].
    split; [discriminate|]. constructor; [repeat split | constructor]. }
  destruct (Z.land status 240 =? 128); [apply Hoff|].
  destruct (Z.land status 240 =? 176).
  { set (ctrl := nth_error (status :: rest) 1).
    set (val := orZero (nth_error (status :: rest) 2)).
    set (s2 := if negb (hasTake s1) && negb (is64 ctrl)
               then _startTake t s1 else s1).
    assert (H2 : _events s2 = _events s).
    { unfold s2. destruct (negb (hasTake s1) && negb (is64 ctrl)); auto.
      rewrite startTake_events. exact H1. }
    clearbody s2.
    destruct (is64 ctrl).
    - destruct (sustainBlock_appends t ch val input
                  (pushEvent s2 (E_cc t ch ctrl val input)))
        as (new & He & Hall).
      exists (E_cc t ch ctrl val input :: new). rewrite He. simpl.
      rewrite H2, <- app_assoc. split; [reflexivity|].
      split; [discriminate|]. constructor; [repeat split | exact Hall].
    - eexists. simpl. rewrite H2. split; [reflexivity|].
      split; [discriminate|]. constructor; [repeat split | constructor]. }
  destruct (Z.land status 240 =? 224).
  { eexists. simpl. rewrite Htake. split; [reflexivity|].
    split; [discriminate|]. constructor; [repeat split | constructor]. }
  eexists. simpl. rewrite H1. split; [reflexivity|].
  split; [discriminate|]. constructor; [repeat split | constructor].
Qed.

(** *** Supporting facts on ordered lists *)

Lemma sorted_snoc {A} (R : A -> A -> Prop) l x :
  StronglySorted R l -> Forall (fun y => R y x) l ->
  StronglySorted R (l ++ [x]).
Proof.
  induction 1 as [|a l Hs IH Ha]; intros Hall; simpl.
  - constructor; constructor.
  - inversion Hall; subst. constructor; [apply IH; assumption|].
    apply Forall_app. split; [assumption | constructor; [assumption|constructor]].
Qed.

Lemma sorted_app {A} (R : A -> A -> Prop) l new :
  StronglySorted R l -> StronglySorted R new ->
  (forall x y, In x l -> In y new -> R x y) ->
  StronglySorted R (l ++ new).
Proof.
  induction 1 as [|a l Hs IH Ha]; intros Hnew Hcross; simpl; [assumption|].
  constructor.
  - apply IH; [assumption|]. intros x y Hx Hy. apply Hcross; [right|]; assumption.
  - apply Forall_app. split; [assumption|].
    apply Forall_forall. intros y Hy. apply Hcross; [left; reflexivity | assumption].
Qed.

Lemma sorted_filter {A} (R : A -> A -> Prop) f l :
  StronglySorted R l -> StronglySorted R (filter f l).
Proof.
  induction 1 as [|a l Hs IH Ha]; simpl; [constructor|].
  destruct (f a); [|assumption]. constructor; [assumption|].
  apply Forall_forall. intros y Hy. apply filter_In in Hy.
  rewrite Forall_forall in Ha. apply Ha. tauto.
Qed.

Lemma sorted_same_time new t :
  Forall (fun e => ev_t e = t) new -> StronglySorted timeLe new.
Proof.
  induction 1 as [|e new He Hall IH]; constructor; [assumption|].
  apply Forall_forall. intros y Hy. rewrite Forall_forall in Hall.
  unfold timeLe. rewrite He, (Hall y Hy). lia.
Qed.

(** *** The clock of a run *)

Lemma clocked_start now s : clocked now s -> _start s <= now.
Proof.
  induction 1; simpl; try lia.
  - destruct data as [|status rest]; [simpl; lia|].
    destruct (onMIDIMessage_takes input tNow status rest s)
      as [(_ & B & _)|(_ & B & _)]; rewrite B.
    + rewrite markActivity_start. lia.
    + unfold _startTake. destruct (_currentTake _); simpl;
        rewrite markActivity_start; lia.
  - unfold _endTake. destruct (_currentTake s); simpl; lia.
  - unfold _gc. destruct (_ <=? 0); simpl; lia.
  - unfold onIdleSecondsChange. destruct (v >? 0); [|lia]. simpl.
    destruct (_currentTake s); simpl; lia.
Qed.

Lemma clocked_reachable now s : clocked now s -> reachable s.
Proof. induction 1; constructor; assumption. Qed.

Lemma takesOrdered_mono b b' takes :
  b <= b' -> takesOrdered b takes -> takesOrdered b' takes.
Proof.
  intros Hle [Hs Hall]. split; [exact Hs|].
  eapply Forall_impl; [|exact Hall]. simpl. intros tk H. lia.
Qed.

(** X1. In every state an instance can reach, the pending set of a channel
    lists no key twice, holds keys only while the pedal of the channel is
    down, and every key in it is a key of that channel whose note is still
    in the active map. *)
Theorem pending_keys_are_sounding_notes :
  forall s c,
    reachable s ->
    NoDup (pendingKeys s c) /\
    (pendingKeys s c <> [] -> sustainDown s c = true) /\
    (forall k, In k (pendingKeys s c) ->
               keyCh k = c /\ JsMap.has (_active s) k = true).
Proof.
  intros s c Hreach. destruct (reachable_sound Hreach c) as (Hnd & Hne & Hk).
  split; [exact Hnd|]. split; [exact Hne|].
  intros k Hin. destruct (Hk k Hin) as [Hch Hact]. split; [exact Hch|].
  unfold JsMap.has. destruct (JsMap.get (_active s) k); congruence.
Qed.

(** Two notes released under the pedal, one of them struck again. *)
Lemma pending_keys_scenario :
  let src := {| inputId := "in-1"%string; inputName := "keys"%string |} in
  let s0 := create (mkSettings 30 120 false 3) 0 [] [] in
  let s :=
    _onMIDIMessage src 60 [0x90; 60; 90]
      (_onMIDIMessage src 50 [0x80; 64; 0]
         (_onMIDIMessage src 40 [0x80; 60; 0]
            (_onMIDIMessage src 30 [0xb0; 64; 127]
               (_onMIDIMessage src 20 [0x90; 64; 100]
                  (_onMIDIMessage src 10 [0x90; 60; 100] s0))))) in
  pendingKeys s 1 = [mkKey 1 (Some 60); mkKey 1 (Some 64)] /\
  NoDup (pendingKeys s 1) /\
  (pendingKeys s 1 <> [] -> sustainDown s 1 = true) /\
  (forall k, In k (pendingKeys s 1) ->
             keyCh k = 1 /\ JsMap.has (_active s) k = true).
Proof.
  intros src s0 s. split; [reflexivity|].
  apply (@pending_keys_are_sounding_notes s 1).
  repeat apply reach_message. apply reach_create.
Defined.

(** X2. In every reachable state the idle timer is armed only while a take
    is open, and then for [takeIdleSeconds * 1000] milliseconds of the
    current settings. *)
Theorem idle_timer_only_during_take :
  forall s d,
    reachable s ->
    _idleTimer s = Some d ->
    d = takeIdleSeconds (settings s) * 1000 /\ hasTake s = true.
Proof.
  intros s d Hreach. revert d.
  assert (Hmark : forall t s0,
            (forall d, _idleTimer s0 = Some d ->
               d = takeIdleSeconds (settings s0) * 1000 /\ hasTake s0 = true) ->
            forall d, _idleTimer (_markActivity t s0) = Some d ->
               d = takeIdleSeconds (settings (_markActivity t s0)) * 1000 /\
               hasTake (_markActivity t s0) = true).
  { intros t s0 IH d. unfold _markActivity, hasTake in *.
    destruct (_currentTake s0) eqn:Hc; [|rewrite Hc; apply IH].
    simpl. intros [= <-]. split; reflexivity. }
  assert (Hstart : forall t s0,
            (forall d, _idleTimer s0 = Some d ->
               d = takeIdleSeconds (settings s0) * 1000 /\ hasTake s0 = true) ->
            forall d, _idleTimer (_startTake t s0) = Some d ->
               d = takeIdleSeconds (settings (_startTake t s0)) * 1000 /\
               hasTake (_startTake t s0) = true).
  { intros t s0 IH d. unfold _startTake.
    destruct (_currentTake s0) eqn:Hc; [apply IH|].
    simpl. intros [= <-]. split; reflexivity. }
  induction Hreach as [opts start events takes | s input tNow data Hr IH
                      | s Hr IH | s tNow Hr IH | s Hr IH | s v Hr IH
                      | s Hr IH]; intros d.
  - discriminate.
  - destruct data as [|status rest]; [apply IH|].
    destruct (onMIDIMessage_takes input tNow status rest s)
      as [(A & _ & _ & D & E)|(A & _ & _ & D & E)];
      unfold hasTake; rewrite A, D, E.
    + apply Hmark. exact IH.
    + apply Hstart, Hmark. exact IH.
  - unfold _endTake. destruct (_currentTake s) eqn:Hc; [discriminate|].
    apply IH.
  - unfold _gc. destruct (_ <=? 0); apply IH.
  - discriminate.
  - unfold onIdleSecondsChange. destruct (v >? 0); [|apply IH].
    unfold hasTake. simpl. destruct (_currentTake s) eqn:Hc; simpl.
    + rewrite Hc. intros [= <-]. split; reflexivity.
    + rewrite Hc. intros Hd. destruct (IH d Hd) as [_ Ht].
      unfold hasTake in Ht. rewrite Hc in Ht. discriminate.
  - discriminate.
Qed.

(** A take is open, and the idle setting is changed to 5 seconds. *)
Lemma idle_timer_example :
  let src := {| inputId := "in-1"%string; inputName := "keys"%string |} in
  let s :=
    onIdleSecondsChange 5
      (_onMIDIMessage src 10 [0x90; 60; 100]
         (create (mkSettings 30 120 false 3) 0 [] [])) in
  _idleTimer s = Some 5000 /\
  5000 = takeIdleSeconds (settings s) * 1000 /\ hasTake s = true.
Proof.
  intros src s. split; [reflexivity|].
  apply (@idle_timer_only_during_take s 5000); [|reflexivity].
  apply reach_setting, reach_message, reach_create.
Defined.

Lemma clocked_log now s :
  clocked now s ->
  StronglySorted timeLe (_events s) /\
  Forall (fun e => 0 <= ev_t e <= now - _start s) (_events s).
Proof.
  intros Hc.
  induction Hc as [opts start | now s input tNow data Hc IH Hle
                  | now s tNow Hc IH Hle | now s tNow Hc IH Hle
                  | now s tNow Hc IH Hle | now s tNow v Hc IH Hle
                  | now s tNow Hc IH Hle].
  - split; constructor.
  - pose proof (clocked_start Hc) as Hst. destruct IH as [Hs Hall].
    destruct data as [|status rest].
    + simpl. split; [exact Hs|].
      eapply Forall_impl; [|exact Hall]. simpl. intros e He. lia.
    + destruct (onMIDIMessage_takes input tNow status rest s)
        as [(_ & B & _)|(_ & B & _)].
      all: assert (Hstart : _start (_onMIDIMessage input tNow (status :: rest) s)
                            = _start s)
        by (rewrite B; unfold _startTake;
            try destruct (_currentTake (_markActivity _ s)); simpl;
            apply markActivity_start).
      all: rewrite Hstart;
        destruct (onMIDIMessage_appends input tNow status rest s)
          as (new & He & _ & Hnew); rewrite He.
      all: rewrite Forall_forall in Hall, Hnew.
      all: split;
        [apply sorted_app;
         [exact Hs
         |apply sorted_same_time with (t := tNow - _start s);
          apply Forall_forall; intros e Hin; apply Hnew; exact Hin
         |intros x y Hx Hy; unfold timeLe;
          pose proof (Hall x Hx); destruct (Hnew y Hy) as (Ht & _); lia]
        |apply Forall_forall; intros e Hin; apply in_app_or in Hin;
         destruct Hin as [Hin|Hin];
         [pose proof (Hall e Hin); lia
         |destruct (Hnew e Hin) as (Ht & _); lia]].
  - destruct IH as [Hs Hall].
    assert (He : _events (_endTake s) = _events s /\
                 _start (_endTake s) = _start s)
      by (unfold _endTake; destruct (_currentTake s); split; reflexivity).
    destruct He as [-> ->]. split; [exact Hs|].
    eapply Forall_impl; [|exact Hall]. simpl. intros e He. lia.
  - destruct IH as [Hs Hall]. unfold _gc.
    destruct (_ <=? 0); simpl.
    + split; [exact Hs|].
      eapply Forall_impl; [|exact Hall]. simpl. intros e He. lia.
    + split; [apply sorted_filter; exact Hs|].
      apply Forall_forall. intros e Hin. apply filter_In in Hin.
      rewrite Forall_forall in Hall. pose proof (Hall e (proj1 Hin)). lia.
  - split; constructor.
  - destruct IH as [Hs Hall].
    assert (He : _events (onIdleSecondsChange v s) = _events s /\
                 _start (onIdleSecondsChange v s) = _start s).
    { unfold onIdleSecondsChange. destruct (v >? 0); [|split; reflexivity].
      simpl. destruct (_currentTake s); split; reflexivity. }
    destruct He as [-> ->]. split; [exact Hs|].
    eapply Forall_impl; [|exact Hall]. simpl. intros e He. lia.
  - destruct IH as [Hs Hall]. simpl. split; [exact Hs|].
    eapply Forall_impl; [|exact Hall]. simpl. intros e He. lia.
Qed.


(** X3. On a clock that does not go backwards, the event log of a fresh
    instance stays in time order, and no event is stamped before 0 or after
    the current time [now - _start]. *)
Theorem log_is_chronological :
  forall now s,
    clocked now s ->
    StronglySorted timeLe (_events s) /\
    Forall (fun e => 0 <= ev_t e <= now - _start s) (_events s).
Proof. intros now s Hc. exact (clocked_log Hc). Qed.

(** Three messages at 10, 10 and 25 on an instance started at 0. *)
Lemma log_is_chronological_example :
  let src := {| inputId := "in-1"%string; inputName := "keys"%string |} in
  let s :=
    _onMIDIMessage src 25 [0x80; 60; 0]
      (_onMIDIMessage src 10 [0xc0; 5]
         (_onMIDIMessage src 10 [0x90; 60; 100]
            (create (mkSettings 30 120 false 3) 0 [] []))) in
  map ev_t (_events s) = [10; 10; 25] /\
  StronglySorted timeLe (_events s) /\
  Forall (fun e => 0 <= ev_t e <= 25 - _start s) (_events s).
Proof.
  intros src s. split; [reflexivity|].
  apply (@log_is_chronological 25 s).
  apply clocked_message with (now := 10); [|lia].
  apply clocked_message with (now := 10); [|lia].
  apply clocked_message with (now := 0); [|lia].
  apply clocked_create.
Defined.

(** *** Takes *)

Lemma markActivity_ordered b t s :
  b <= t -> takesOrdered b (_takes s) -> openTakeOrdered b s ->
  takesOrdered t (_takes (_markActivity t s)) /\
  openTakeOrdered t (_markActivity t s).
Proof.
  intros Hle Ht Ho. unfold _markActivity, openTakeOrdered in *.
  destruct (_currentTake s) as [ct|] eqn:Hc; simpl.
  - split; [apply takesOrdered_mono with (b := b); assumption|].
    destruct Ho as (H1 & H2 & H3 & H4). repeat split; try assumption; lia.
  - rewrite Hc. split; [apply takesOrdered_mono with (b := b); assumption|].
    exact I.
Qed.

Lemma startTake_ordered t s :
  0 <= t -> takesOrdered t (_takes s) -> openTakeOrdered t s ->
  takesOrdered t (_takes (_startTake t s)) /\
  openTakeOrdered t (_startTake t s).
Proof.
  intros H0 Ht Ho. unfold _startTake, openTakeOrdered in *.
  destruct (_currentTake s) as [ct|] eqn:Hc; simpl.
  - rewrite Hc. split; assumption.
  - split; [exact Ht|]. split; [|lia].
    destruct Ht as [_ Hall]. eapply Forall_impl; [|exact Hall].
    simpl. intros tk H. lia.
Qed.

Lemma endTake_ordered b s :
  takesOrdered b (_takes s) -> openTakeOrdered b s ->
  takesOrdered b (_takes (_endTake s)) /\ openTakeOrdered b (_endTake s).
Proof.
  intros Ht Ho. unfold _endTake, openTakeOrdered in *.
  destruct (_currentTake s) as [ct|] eqn:Hc; simpl.
  - split; [|exact I]. destruct Ht as [Hs Hall].
    destruct Ho as (H1 & H2 & H3 & H4). split.
    + apply sorted_snoc; assumption.
    + apply Forall_app. split; [exact Hall|].
      constructor; [simpl; lia | constructor].
  - rewrite Hc. split; assumption.
Qed.

Lemma ordered_ext b s1 s2 :
  sameTakes s1 s2 ->
  takesOrdered b (_takes s2) /\ openTakeOrdered b s2 ->
  takesOrdered b (_takes s1) /\ openTakeOrdered b s1.
Proof.
  intros (A & B & C & D & E). unfold openTakeOrdered. rewrite C, D. auto.
Qed.

(** X4. On a clock that does not go backwards, the closed takes of a fresh
    instance follow one another in time without overlap, none ends before it
    starts or after the current time; an open take starts after every closed
    take has ended. *)
Theorem takes_are_chronological :
  forall now s,
    clocked now s ->
    takesOrdered (now - _start s) (_takes s) /\
    openTakeOrdered (now - _start s) s.
Proof.
  intros now s Hc.
  induction Hc as [opts start | now s input tNow data Hc IH Hle
                  | now s tNow Hc IH Hle | now s tNow Hc IH Hle
                  | now s tNow Hc IH Hle | now s tNow v Hc IH Hle
                  | now s tNow Hc IH Hle].
  - simpl. split; [split; constructor | exact I].
  - pose proof (clocked_start Hc) as Hst. destruct IH as [Ht Ho].
    assert (Hb : now - _start s <= tNow - _start s) by lia.
    destruct (markActivity_ordered s Hb Ht Ho) as [Ht1 Ho1].
    destruct data as [|status rest].
    + simpl. split; [apply takesOrdered_mono with (b := now - _start s); auto|].
      unfold openTakeOrdered in *. destruct (_currentTake s); auto.
      destruct Ho as (H1 & H2 & H3 & H4). repeat split; try assumption; lia.
    + destruct (onMIDIMessage_takes input tNow status rest s) as [H|H].
      * destruct H as (A & B & C & D & E).
        rewrite B, markActivity_start.
        apply ordered_ext with (s2 := _markActivity (tNow - _start s) s);
          [repeat split; assumption | split; assumption].
      * assert (Hstart : _start (_onMIDIMessage input tNow (status :: rest) s)
                         = _start s).
        { destruct H as (_ & B & _). rewrite B. unfold _startTake.
          destruct (_currentTake _); simpl; apply markActivity_start. }
        rewrite Hstart.
        apply ordered_ext
          with (s2 := _startTake (tNow - _start s)
                        (_markActivity (tNow - _start s) s));
          [exact H|].
        apply startTake_ordered; [lia | assumption | assumption].
  - destruct IH as [Ht Ho].
    assert (He : _start (_endTake s) = _start s)
      by (unfold _endTake; destruct (_currentTake s); reflexivity).
    rewrite He. apply endTake_ordered.
    + apply takesOrdered_mono with (b := now - _start s); [lia | exact Ht].
    + unfold openTakeOrdered in *. destruct (_currentTake s); auto.
      destruct Ho as (H1 & H2 & H3 & H4). repeat split; try assumption; lia.
  - assert (He : sameTakes (_gc tNow s) s)
      by (unfold _gc; destruct (_ <=? 0); repeat split).
    destruct IH as [Ht Ho]. destruct He as (A & B & C & D & E).
    unfold openTakeOrdered in *. rewrite B, C, D.
    split; [apply takesOrdered_mono with (b := now - _start s); [lia | exact Ht]|].
    destruct (_currentTake s); auto.
    destruct Ho as (H1 & H2 & H3 & H4). repeat split; try assumption; lia.
  - simpl. split; [split; constructor | exact I].
  - assert (He : _start (onIdleSecondsChange v s) = _start s /\
                 _takes (onIdleSecondsChange v s) = _takes s /\
                 _currentTake (onIdleSecondsChange v s) = _currentTake s).
    { unfold onIdleSecondsChange. destruct (v >? 0); [|repeat split].
      simpl. destruct (_currentTake s) eqn:Hcur; repeat split; simpl;
        congruence. }
    destruct IH as [Ht Ho]. destruct He as (B & C & D).
    unfold openTakeOrdered in *. rewrite B, C, D.
    split; [apply takesOrdered_mono with (b := now - _start s); [lia | exact Ht]|].
    destruct (_currentTake s); auto.
    destruct Ho as (H1 & H2 & H3 & H4). repeat split; try assumption; lia.
  - destruct IH as [Ht Ho]. unfold openTakeOrdered in *. simpl.
    split; [apply takesOrdered_mono with (b := now - _start s); [lia | exact Ht]|].
    destruct (_currentTake s); auto.
    destruct Ho as (H1 & H2 & H3 & H4). repeat split; try assumption; lia.
Qed.

(** Two takes: a note at 10 and 20, the timer fires, a note at 5000, the
    timer fires again. *)
Lemma takes_are_chronological_example :
  let src := {| inputId := "in-1"%string; inputName := "keys"%string |} in
  let s :=
    _endTake
      (_onMIDIMessage src 5000 [0x90; 62; 100]
         (_endTake
            (_onMIDIMessage src 20 [0x80; 60; 0]
               (_onMIDIMessage src 10 [0x90; 60; 100]
                  (create (mkSettings 30 120 false 3) 0 [] []))))) in
  _takes s = [Take.mk 10 20; Take.mk 5000 5000] /\
  takesOrdered (8000 - _start s) (_takes s) /\
  openTakeOrdered (8000 - _start s) s.
Proof.
  intros src s. split; [reflexivity|].
  apply (@takes_are_chronological 8000 s).
  apply clocked_idle with (now := 5000); [|lia].
  apply clocked_message with (now := 3020); [|lia].
  apply clocked_idle with (now := 20); [|lia].
  apply clocked_message with (now := 10); [|lia].
  apply clocked_message with (now := 0); [|lia].
  apply clocked_create.
Defined.

(** X5. While a take is open, every message with at least one byte, of
    whatever kind, moves the last activity of the take to the time of the
    message and re-arms the idle timer; when the timer then fires, the take
    is closed as the span from its start to that time. *)
Theorem message_extends_open_take :
  forall s input tNow status rest ct,
    _currentTake s = Some ct ->
    let t := tNow - _start s in
    let s' := _onMIDIMessage input tNow (status :: rest) s in
    _currentTake s' = Some (CurrentTake.mk (CurrentTake.startMs ct) t) /\
    _idleTimer s' = Some (takeIdleSeconds (settings s) * 1000) /\
    _takes s' = _takes s /\
    _takes (_endTake s') = _takes s ++ [Take.mk (CurrentTake.startMs ct) t] /\
    _currentTake (_endTake s') = None /\ _idleTimer (_endTake s') = None.
Proof.
  intros s input tNow status rest ct Hc t s'.
  assert (Hm : _currentTake (_markActivity t s) =
               Some (CurrentTake.mk (CurrentTake.startMs ct) t) /\
               _idleTimer (_markActivity t s) =
               Some (takeIdleSeconds (settings s) * 1000) /\
               _takes (_markActivity t s) = _takes s)
    by (unfold _markActivity; rewrite Hc; repeat split).
  destruct Hm as (M1 & M2 & M3).
  assert (H : sameTakes s' (_markActivity t s)).
  { destruct (onMIDIMessage_takes input tNow status rest s) as [H|H];
      [exact H|].
    fold t in H. rewrite (startTake_open t _ M1) in H. exact H. }
  destruct H as (A & B & C & D & E).
  assert (D' : _currentTake s' =
               Some (CurrentTake.mk (CurrentTake.startMs ct) t))
    by congruence.
  repeat split; try congruence.
  all: unfold _endTake; rewrite D'; simpl; congruence.
Qed.

(** A program change at 900 while the take opened at 10 is running. *)
Lemma message_extends_open_take_example :
  let src := {| inputId := "in-1"%string; inputName := "keys"%string |} in
  let s :=
    _onMIDIMessage src 10 [0x90; 60; 100]
      (create (mkSettings 30 120 false 3) 0 [] []) in
  let s' := _onMIDIMessage src 900 [0xc0; 5] s in
  _currentTake s = Some (CurrentTake.mk 10 10) /\
  _currentTake s' = Some (CurrentTake.mk 10 900) /\
  _idleTimer s' = Some 3000 /\
  _takes (_endTake s') = [Take.mk 10 900].
Proof.
  intros src s s'. split; [reflexivity|].
  destruct (@message_extends_open_take s src 900 0xc0 [5]
              (CurrentTake.mk 10 10) eq_refl)
    as (H1 & H2 & _ & H4 & _).
  split; [exact H1|]. split; [exact H2 | exact H4].
Defined.

(** *** The log *)

Lemma statusCh_range status : 1 <= statusCh status <= 16.
Proof.
  unfold statusCh. change 15 with (Z.ones 4).
  rewrite Z.land_ones by lia.
  pose proof (Z.mod_pos_bound status (2 ^ 4)). lia.
Qed.

(** X6. A message with at least one byte only appends to the event log: at
    least one event, and every new event carries the time of the message,
    its device and the channel of the status byte, [(status & 0x0f) + 1],
    a number from 1 to 16. *)
Theorem message_appends_to_log :
  forall input tNow status rest s,
    1 <= statusCh status <= 16 /\
    exists new,
      _events (_onMIDIMessage input tNow (status :: rest) s) =
        _events s ++ new /\
      new <> [] /\
      Forall (fun e => ev_t e = tNow - _start s /\ ev_src e = input /\
                       ev_ch e = Z.land status 0x0f + 1 /\
                       1 <= ev_ch e <= 16) new.
Proof.
  intros input tNow status rest s. split; [apply statusCh_range|].
  destruct (onMIDIMessage_appends input tNow status rest s)
    as (new & He & Hne & Hall).
  exists new. split; [exact He|]. split; [exact Hne|].
  eapply Forall_impl; [|exact Hall]. simpl.
  intros e (Ht & Hc & Hs). rewrite Hc.
  split; [exact Ht|]. split; [exact Hs|].
  split; [reflexivity | apply statusCh_range].
Qed.

Lemma bend_value lsb msb :
  0 <= lsb < 128 -> 0 <= msb < 128 ->
  Z.lor (Z.shiftl msb 7) lsb = 128 * msb + lsb.
Proof.
  intros Hl Hm.
  assert (Hland : Z.land (Z.shiftl msb 7) lsb = 0).
  { apply Z.bits_inj'. intros n Hn. rewrite Z.land_spec, Z.bits_0.
    destruct (Z_lt_le_dec n 7) as [Hlt|Hge].
    - rewrite Z.shiftl_spec_low by exact Hlt. reflexivity.
    - assert (Hb : Z.testbit lsb n = false).
      { destruct (Z.eq_dec lsb 0) as [->|Hnz]; [apply Z.bits_0|].
        apply Z.bits_above_log2; [lia|].
        assert (Z.log2 lsb < 7) by (apply Z.log2_lt_pow2; lia). lia. }
      rewrite Hb. apply andb_false_r. }
  rewrite <- Z.lxor_lor by exact Hland.
  rewrite <- Z.add_nocarry_lxor by exact Hland.
  rewrite Z.shiftl_mul_pow2 by lia. lia.
Qed.

(** X7. A pitch-bend message with data bytes [lsb] and [msb] in 0..127 logs
    one [pitchbend] event whose value is [128 * msb + lsb - 8192], a number
    from -8192 to 8191 that is 0 when the wheel is centred. *)
Theorem pitch_bend_is_centred :
  forall input tNow status lsb msb rest s,
    statusType status = 0xe0 ->
    0 <= lsb < 128 -> 0 <= msb < 128 ->
    let value := 128 * msb + lsb - 8192 in
    _events (_onMIDIMessage input tNow (status :: lsb :: msb :: rest) s) =
      _events s ++
      [E_pitchbend (tNow - _start s) (statusCh status) value input] /\
    -8192 <= value <= 8191.
Proof.
  intros input tNow status lsb msb rest s Hty Hl Hm value.
  split; [|unfold value; lia].
  unfold _onMIDIMessage. cbv zeta.
  destruct (@statusType_tests status _ Hty) as (-> & -> & -> & ->).
  cbn [nth_error orZero]. rewrite bend_value by assumption. simpl.
  fold (statusCh status).
  destruct (hasTake (_markActivity (tNow - _start s) s)); simpl;
    [|rewrite startTake_events]; rewrite markActivity_events; reflexivity.
Qed.

(** The wheel at rest: [lsb = 0], [msb = 64]. *)
Lemma pitch_bend_example :
  let src := {| inputId := "in-1"%string; inputName := "keys"%string |} in
  let s := create (mkSettings 30 120 false 3) 0 [] [] in
  _events (_onMIDIMessage src 7 [0xe0; 0; 64] s) = [E_pitchbend 7 1 0 src] /\
  -8192 <= 128 * 64 + 0 - 8192 <= 8191.
Proof.
  intros src s.
  apply (@pitch_bend_is_centred src 7 0xe0 0 64 [] s); [reflexivity|lia|lia].
Defined.

(** * The log as a journal of the tracker *)

Lemma localView_get m k :
  JsMap.get (localView m) k = option_map localOf (JsMap.get m k).
Proof.
  induction m as [|[k' a] m IH]; simpl; auto.
  destruct (eq_dec k k'); auto.
Qed.

Lemma localView_set m k a :
  localView (JsMap.set m k a) = JsMap.set (localView m) k (localOf a).
Proof.
  induction m as [|[k' a'] m IH]; simpl; auto.
  destruct (eq_dec k k'); simpl; [reflexivity | rewrite IH; reflexivity].
Qed.

Lemma localView_delete m k :
  localView (JsMap.delete m k) = JsMap.delete (localView m) k.
Proof.
  induction m as [|[k' a'] m IH]; simpl; auto.
  destruct (eq_dec k k'); simpl; [exact IH | rewrite IH; reflexivity].
Qed.

Lemma pendKeySet_ensureSet s c :
  _pendingRelease (fst (pendKeySet s c)) =
    fst (ensureSet (_pendingRelease s) c) /\
  snd (pendKeySet s c) = snd (ensureSet (_pendingRelease s) c).
Proof.
  unfold pendKeySet, ensureSet.
  destruct (JsMap.get (_pendingRelease s) c); split; reflexivity.
Qed.

Section Journal.
Variables ws we : Z.

Lemma journal_ext s1 s2 :
  sameCore s1 s2 -> _events s1 = _events s2 ->
  journal ws we s1 -> journal ws we s2.
Proof.
  intros (A & B & C) He (J1 & J2 & J3). unfold journal, trackerMatches.
  rewrite <- He, <- A, <- B, <- C. auto.
Qed.

Lemma flush_fold_view t ch src keys :
  forall sa ns,
    fst (fold_left (flushKey ws we ch t) keys (localView (_active sa), ns)) =
    localView (_active (fold_left (flushPending t ch src) keys sa)).
Proof.
  induction keys as [|k keys IH]; intros sa ns; simpl; [reflexivity|].
  rewrite localView_get. unfold flushPending at 2.
  destruct (JsMap.get (_active sa) k) as [a|]; simpl.
  - rewrite <- localView_delete.
    apply (IH (with_active (pushEvent sa (E_noteoff t ch (keyNote k) src))
                 (JsMap.delete (_active sa) k))).
  - apply IH.
Qed.

Lemma journal_noteon s t ch note vel input :
  journal ws we s ->
  journal ws we
    (with_active (pushEvent s (E_noteon t ch note vel input))
       (JsMap.set (_active s) (mkKey ch note)
          (Active.mk t vel (inputId input)))).
Proof.
  intros (J1 & J2 & J3). unfold journal, trackerMatches, replay in *. simpl.
  rewrite fold_left_app. simpl. rewrite J1, localView_set. auto.
Qed.

Lemma journal_handleNoteOff s t ch note src :
  journal ws we s -> journal ws we (_handleNoteOff t ch note src s).
Proof.
  intros (J1 & J2 & J3). unfold _handleNoteOff.
  destruct (JsMap.get (_active s) (mkKey ch note)) as [a|] eqn:Hget.
  - destruct (sustainDown s ch) eqn:Hdown.
    + destruct (pendKeySet_ensureSet s ch) as [Hp Hk].
      pose proof (pendKeySet_fields s ch) as Hf.
      destruct (pendKeySet s ch) as [s1 keys]. simpl in Hp, Hk, Hf.
      destruct Hf as (F1 & F2 & F3 & F4 & F5 & _).
      unfold journal, trackerMatches, replay in *. simpl.
      rewrite F3, fold_left_app. simpl.
      rewrite J1, localView_get, Hget. simpl.
      unfold isDown. rewrite J2. unfold sustainDown in Hdown. rewrite Hdown.
      rewrite J3, Hp, Hk, F4, F5.
      destruct (ensureSet (_pendingRelease s) ch) as [p ks]. simpl.
      rewrite ?J1, ?J2. auto.
    + unfold journal, trackerMatches, replay in *. simpl.
      rewrite fold_left_app. simpl.
      rewrite J1, localView_get, Hget. simpl.
      unfold isDown. rewrite J2. unfold sustainDown in Hdown. rewrite Hdown.
      simpl. rewrite ?J1, ?localView_delete, ?J2, ?J3. auto.
  - unfold journal, trackerMatches, replay in *. simpl.
    rewrite fold_left_app. simpl.
    rewrite J1, localView_get, Hget. simpl. auto.
Qed.

(** The note-offs logged by a flush find nothing to end in the replay. *)
Lemma replay_flushed r t ch src keys :
  (forall k, In k keys -> keyCh k = ch /\ JsMap.get (active r) k = None) ->
  fold_left (replayEvent ws we)
    (map (fun k => E_noteoff t ch (keyNote k) src) keys) r = r.
Proof.
  intros Hk. induction keys as [|k keys IH]; simpl; [reflexivity|].
  destruct (Hk k (or_introl eq_refl)) as [Hch Hnone].
  assert (Hkey : mkKey ch (keyNote k) = k)
    by (destruct k as [c n]; simpl in *; subst; reflexivity).
  rewrite Hkey, Hnone. apply IH. intros k' Hin. apply Hk. right. exact Hin.
Qed.

Lemma journal_sustainBlock s t ch ctrl val input :
  is64 ctrl = true -> pendingSound s -> journal ws we s ->
  journal ws we
    (sustainBlock t ch val input (pushEvent s (E_cc t ch ctrl val input))).
Proof.
  intros H64 Hsound (J1 & J2 & J3).
  set (s0 := pushEvent s (E_cc t ch ctrl val input)).
  destruct (sustainDown s0 ch && negb (val >=? 64)) eqn:Hedge.
  - apply andb_true_iff in Hedge. destruct Hedge as [Hdown Hval].
    apply negb_true_iff in Hval.
    destruct (sustainBlock_release t ch val input s0 Hdown Hval)
      as (Ha & He & Hs & _).
    assert (Hp : _pendingRelease (sustainBlock t ch val input s0) =
                 JsMap.set (fst (ensureSet (_pendingRelease s) ch)) ch
                   JsSet.empty).
    { unfold sustainBlock. rewrite Hdown, Hval. simpl.
      set (s1 := setSustain ch false s0).
      destruct (pendKeySet_ensureSet s1 ch) as [Hp _].
      destruct (pendKeySet s1 ch) as [s3 keys]. simpl in Hp. simpl.
      destruct (flush_fold_fields t ch input keys s3) as (_ & _ & _ & D & _).
      rewrite D, Hp. reflexivity. }
    change (pendingKeys s0 ch) with (pendingKeys s ch) in Ha, He.
    destruct (Hsound ch) as (Hnd & _ & Hk).
    rewrite flush_fold_events in He;
      [|exact Hnd | intros k Hin; apply Hk; exact Hin].
    unfold journal, trackerMatches, replay in *. rewrite He, Ha, Hs, Hp.
    change (_events s0) with (_events s ++ [E_cc t ch ctrl val input]).
    rewrite !fold_left_app.
    set (r := fold_left (replayEvent ws we) (_events s) init) in *.
    assert (Hr : let r1 :=
                   fold_left (replayEvent ws we) [E_cc t ch ctrl val input] r in
                 active r1 =
                   localView
                     (_active (fold_left (flushPending t ch input)
                                 (pendingKeys s ch) s0)) /\
                 sustain r1 = JsMap.set (_sustain s0) ch false /\
                 pending r1 =
                   JsMap.set (fst (ensureSet (_pendingRelease s) ch)) ch
                     JsSet.empty).
    { simpl. rewrite H64, Hval. unfold isDown. rewrite J2.
      unfold sustainDown in Hdown. simpl in Hdown. rewrite Hdown. simpl.
      rewrite J3. pose proof (ensureSet_keys (_pendingRelease s) ch) as Hkeys.
      destruct (ensureSet (_pendingRelease s) ch) as [p keys]. simpl in Hkeys.
      fold (pendingKeys s ch) in Hkeys. subst keys. rewrite J1.
      pose proof (@flush_fold_view t ch input (pendingKeys s ch) s0 (notes r))
        as Hv.
      change (_active s0) with (_active s) in Hv at 1.
      destruct (fold_left (flushKey ws we ch t) (pendingKeys s ch)
                  (localView (_active s), notes r)) as [a ns].
      simpl in Hv. simpl. rewrite Hv. auto. }
    cbv zeta in Hr. destruct Hr as (R1 & R2 & R3).
    rewrite replay_flushed; [auto|].
    intros k Hin. split; [apply Hk; exact Hin|].
    rewrite R1, localView_get, flush_fold_cleared by exact Hin. reflexivity.
  - destruct (sustainBlock_no_release t ch val input s0 Hedge)
      as (Ha & He & Hs & Hp).
    unfold journal, trackerMatches, replay in *. rewrite He, Ha, Hs, Hp.
    change (_events s0) with (_events s ++ [E_cc t ch ctrl val input]).
    rewrite fold_left_app. simpl. rewrite H64. unfold isDown. rewrite J2.
    unfold sustainDown in Hedge. simpl in Hedge. rewrite Hedge.
    simpl. auto.
Qed.

Lemma journal_message input tNow data s :
  pendingSound s -> journal ws we s ->
  journal ws we (_onMIDIMessage input tNow data s).
Proof.
  intros Hsound J. unfold _onMIDIMessage.
  destruct data as [|status rest]; [exact J|]. cbv zeta.
  set (t := tNow - _start s). set (ch := Z.land status 15 + 1).
  assert (J1 : journal ws we (_markActivity t s)).
  { apply journal_ext with (s1 := s); auto.
    - apply sameCore_sym, markActivity_core.
    - symmetry. apply markActivity_events. }
  assert (S1 : pendingSound (_markActivity t s)).
  { apply pendingSound_ext with (s1 := s); auto.
    apply sameCore_sym, markActivity_core. }
  set (s1 := _markActivity t s) in *. clearbody s1.
  assert (Jtake : forall b : bool,
            journal ws we (if b then s1 else _startTake t s1)).
  { intros []; [exact J1|]. apply journal_ext with (s1 := s1); auto.
    - apply sameCore_sym, startTake_core.
    - symmetry. apply startTake_events. }
  assert (Jpush : forall s0 e,
            isTrackerEvent e = false -> journal ws we s0 ->
            journal ws we (pushEvent s0 e)).
  { intros s0 e He (A & B & C).
    unfold journal, trackerMatches, replay in *. simpl.
    rewrite fold_left_app. simpl.
    assert (Hr : forall r, replayEvent ws we r e = r).
    { intros r. destruct e; simpl in *; try discriminate; try reflexivity.
      rewrite He. reflexivity. }
    rewrite Hr. auto. }
  destruct (Z.land status 240 =? 144).
  { destruct (orZero (nth_error (status :: rest) 2) >? 0).
    - exact (@journal_noteon (if hasTake s1 then s1 else _startTake t s1)
               t ch _ _ input (Jtake _)).
    - apply journal_handleNoteOff. exact J1. }
  destruct (Z.land status 240 =? 128).
  { apply journal_handleNoteOff. exact J1. }
  destruct (Z.land status 240 =? 176).
  { set (ctrl := nth_error (status :: rest) 1).
    set (val := orZero (nth_error (status :: rest) 2)).
    destruct (is64 ctrl) eqn:H64.
    - rewrite andb_false_r. apply journal_sustainBlock; assumption.
    - apply Jpush; [simpl; exact H64|].
      rewrite andb_true_r.
      destruct (negb (hasTake s1)); [|exact J1].
      exact (Jtake false). }
  destruct (Z.land status 240 =? 224).
  { apply Jpush; [reflexivity|]. apply Jtake. }
  apply Jpush; [reflexivity | exact J1].
Qed.

Lemma logging_reachable s : logging s -> reachable s.
Proof. induction 1; constructor; assumption. Qed.

Lemma logging_journal s : logging s -> journal ws we s.
Proof.
  induction 1 as [opts start takes | s input tNow data Hl IH | s Hl IH
                 | s Hl IH | s v Hl IH | s Hl IH].
  - repeat split.
  - apply journal_message; [|exact IH].
    apply reachable_sound, logging_reachable. exact Hl.
  - apply journal_ext with (s1 := s); auto.
    + apply sameCore_sym, endTake_core.
    + unfold _endTake. destruct (_currentTake s); reflexivity.
  - repeat split.
  - apply journal_ext with (s1 := s); auto.
    + apply sameCore_sym, onIdleSecondsChange_core.
    + unfold onIdleSecondsChange. destruct (v >? 0); [|reflexivity].
      simpl. destruct (_currentTake s); reflexivity.
  - apply journal_ext with (s1 := s); auto. apply sameCore_sym, destroy_core.
Qed.

End Journal.

(** X8. As long as the log started empty and was never swept, replaying it
    the way [_reconstructNotes] does rebuilds the tracker of the live
    instance: the same notes sounding (without their device), the same pedal
    flags and the same pending sets, whatever the window. *)
Theorem log_replay_rebuilds_tracker :
  forall ws we s,
    logging s ->
    let r := replay ws we (_events s) init in
    active r = localView (_active s) /\
    sustain r = _sustain s /\
    pending r = _pendingRelease s.
Proof. intros ws we s Hl. exact (logging_journal ws we Hl). Qed.

(** Two notes under the pedal, one released, then the pedal comes up while
    the other is still held. *)
Lemma log_replay_scenario :
  let src := {| inputId := "in-1"%string; inputName := "keys"%string |} in
  let s :=
    _onMIDIMessage src 90 [0xb0; 64; 0]
      (_onMIDIMessage src 50 [0x80; 60; 0]
         (_onMIDIMessage src 30 [0xb0; 64; 127]
            (_onMIDIMessage src 20 [0x90; 64; 100]
               (_onMIDIMessage src 10 [0x90; 60; 100]
                  (create (mkSettings 30 120 false 3) 0 [] []))))) in
  let r := replay 0 100 (_events s) init in
  _active s = [(mkKey 1 (Some 64), Active.mk 20 100 "in-1"%string)] /\
  active r = localView (_active s) /\
  sustain r = _sustain s /\
  pending r = _pendingRelease s.
Proof.
  intros src s r. split; [reflexivity|].
  apply (@log_replay_rebuilds_tracker 0 100 s).
  repeat apply logging_message. apply logging_create.
Defined.

(** * Further properties of the reconstruction *)

Section ReplayProps.
Variables ws we : Z.

Lemma replayEvent_irrelevant s e :
  isTrackerEvent e = false -> replayEvent ws we s e = s.
Proof.
  destruct e; simpl; try discriminate; try reflexivity.
  intros ->. reflexivity.
Qed.

Lemma replay_filter l :
  forall s, replay ws we (filter isTrackerEvent l) s = replay ws we l s.
Proof.
  induction l as [|e l IH]; intros s; simpl; [reflexivity|].
  destruct (isTrackerEvent e) eqn:He; simpl.
  - apply IH.
  - rewrite (replayEvent_irrelevant s e He). apply IH.
Qed.

(** *** Notes left sounding *)

Lemma replayEvent_keeps_open s e key st :
  pendingOwn s -> JsMap.get (active s) key = Some st ->
  leavesOpen key e = true ->
  JsMap.get (active (replayEvent ws we s e)) key = Some st.
Proof.
  intros Hown Hget Hleave. unfold leavesOpen in Hleave.
  apply andb_true_iff in Hleave. destruct Hleave as [Hleave Hup].
  apply andb_true_iff in Hleave. destruct Hleave as [Hon Hrel].
  apply negb_true_iff in Hon, Hrel, Hup.
  destruct e as [t ch note vel src|t ch note src|t ch note src
                |t ch ctrl val src|t ch value src|t bytes ch src];
    try exact Hget.
  - simpl in *. rewrite JsMapFacts.get_set_ne; [exact Hget|].
    intros Heq. apply keyEqb_true in Heq. congruence.
  - simpl in *.
    assert (Hne : mkKey ch note <> key)
      by (intros Heq; apply keyEqb_true in Heq; congruence).
    destruct (JsMap.get (active s) (mkKey ch note)); [|exact Hget].
    destruct (isDown (sustain s) ch).
    + destruct (ensureSet (pending s) ch). exact Hget.
    + simpl. rewrite JsMapFacts.get_delete_ne; assumption.
  - simpl in *.
    assert (Hne : mkKey ch note <> key)
      by (intros Heq; apply keyEqb_true in Heq; congruence).
    destruct (JsMap.get (active s) (mkKey ch note)); [|exact Hget].
    destruct (isDown (sustain s) ch).
    + destruct (ensureSet (pending s) ch). exact Hget.
    + simpl. rewrite JsMapFacts.get_delete_ne; assumption.
  - destruct (is64 ctrl) eqn:H64;
      [|rewrite replayEvent_cc_other by exact H64; exact Hget].
    destruct (@replayEvent_cc64 ws we s t ch ctrl val src H64)
      as (_ & Hno & Hedge).
    destruct (isDown (sustain s) ch && negb (val >=? 64)) eqn:He.
    + destruct (Hedge eq_refl) as (Hfold & _).
      assert (Ha : active (replayEvent ws we s (E_cc t ch ctrl val src)) =
                   fst (fold_left (flushKey ws we ch t) (pendingSet s ch)
                          (active s, notes s)))
        by (rewrite <- Hfold; reflexivity).
      rewrite Ha, flush_get_other; [exact Hget|].
      intros Hin. apply Hown in Hin. simpl in Hup. rewrite H64 in Hup.
      apply andb_true_iff in He. destruct He as [_ Hval].
      rewrite Hval, andb_true_r in Hup. simpl in Hup.
      apply Z.eqb_neq in Hup. congruence.
    + destruct (Hno eq_refl) as (Ha & _). rewrite Ha. exact Hget.
Qed.

Lemma replay_keeps_open l key st :
  forall s,
    pendingOwn s -> JsMap.get (active s) key = Some st ->
    forallb (leavesOpen key) l = true ->
    JsMap.get (active (replay ws we l s)) key = Some st.
Proof.
  induction l as [|e l IH]; intros s Hown Hget Hall; simpl in *; [exact Hget|].
  apply andb_true_iff in Hall. destruct Hall as [He Hall].
  apply IH; [|apply replayEvent_keeps_open; assumption|exact Hall].
  apply replayEvent_pendingOwn. exact Hown.
Qed.

Lemma truncate_fold_incl entries :
  forall ns n,
    In n ns ->
    In n (fold_left
            (fun ns '(key, st) =>
               pushNote ws we (keyCh key) (keyNote key) (Local.tOn st) we
                 (Local.vel st) ns) entries ns).
Proof.
  induction entries as [|[k st] entries IH]; intros ns n Hin; simpl; auto.
  apply IH. apply pushNote_incl. exact Hin.
Qed.

Lemma truncateOpen_closes s key st :
  In (key, st) (active s) -> ws <= Local.tOn st -> Local.tOn st < we ->
  In (Note.mk (keyCh key) (keyNote key) (Local.tOn st) we (Local.vel st))
     (truncateOpen ws we s).
Proof.
  intros Hin H1 H2. unfold truncateOpen. generalize (notes s).
  induction (active s) as [|[k st'] entries IH]; intros ns; simpl in *;
    [tauto|].
  destruct Hin as [Heq|Hin]; [|apply IH; exact Hin].
  inversion Heq; subst. apply truncate_fold_incl.
  rewrite pushNote_exact by lia. apply in_or_app. right. left. reflexivity.
Qed.

End ReplayProps.

(** *** How many intervals *)

Section ReplayCount.
Variables ws we : Z.

Lemma pushNote_length ch note tOn tOff vel ns :
  (length (pushNote ws we ch note tOn tOff vel ns) <= S (length ns))%nat.
Proof.
  destruct (pushNote_cases ws we ch note tOn tOff vel ns)
    as [[_ ->]|[_ ->]]; [|lia].
  rewrite length_app. simpl. lia.
Qed.

Lemma flush_length ch t keys :
  forall act ns,
    let r := fold_left (flushKey ws we ch t) keys (act, ns) in
    (length (snd r) + length (fst r) <= length ns + length act)%nat.
Proof.
  induction keys as [|k keys IH]; intros act ns; simpl; [lia|].
  destruct (JsMap.get act k) as [st|] eqn:Hget; [|apply IH].
  eapply Nat.le_trans; [apply IH|].
  pose proof (length_delete act k Hget).
  pose proof (pushNote_length ch (keyNote k) (Local.tOn st) t (Local.vel st) ns).
  lia.
Qed.

Lemma replayEvent_length s e :
  (length (notes (replayEvent ws we s e)) +
   length (active (replayEvent ws we s e)) <=
   length (notes s) + length (active s) +
   (if isAnyNoteOn e then 1 else 0))%nat.
Proof.
  assert (Hrel : forall t ch note,
            let key := mkKey ch note in
            let s' :=
              match JsMap.get (active s) key with
              | None => s
              | Some st =>
                  if isDown (sustain s) ch then
                    let (pending', keys) := ensureSet (pending s) ch in
                    {| active := active s; sustain := sustain s;
                       pending := JsMap.set pending' ch (JsSet.add keys key);
                       notes := notes s |}
                  else
                    {| active := JsMap.delete (active s) key;
                       sustain := sustain s; pending := pending s;
                       notes := pushNote ws we ch note (Local.tOn st) t
                                  (Local.vel st) (notes s) |}
              end in
            (length (notes s') + length (active s') <=
             length (notes s) + length (active s) + 0)%nat).
  { intros t ch note key s'. unfold s'.
    destruct (JsMap.get (active s) key) as [st|] eqn:Hget; [|lia].
    destruct (isDown (sustain s) ch).
    - destruct (ensureSet (pending s) ch). simpl. lia.
    - simpl. pose proof (length_delete (active s) key Hget).
      pose proof (pushNote_length ch note (Local.tOn st) t (Local.vel st)
                    (notes s)).
      lia. }
  destruct e as [t ch note vel src|t ch note src|t ch note src
                |t ch ctrl val src|t ch value src|t bytes ch src];
    try (simpl; lia).
  - simpl. pose proof (length_set (active s) (mkKey ch note) (Local.mk t vel)).
    lia.
  - apply Hrel.
  - apply Hrel.
  - destruct (is64 ctrl) eqn:H64;
      [|rewrite replayEvent_cc_other by exact H64; simpl; lia].
    destruct (@replayEvent_cc64 ws we s t ch ctrl val src H64)
      as (_ & Hno & Hedge).
    destruct (isDown (sustain s) ch && negb (val >=? 64)) eqn:He.
    + destruct (Hedge eq_refl) as (Hfold & _).
      pose proof (flush_length ch t (pendingSet s ch) (active s) (notes s))
        as Hl.
      cbv zeta in Hl. rewrite <- Hfold in Hl. simpl in Hl |- *. lia.
    + destruct (Hno eq_refl) as (Ha & _ & Hn). rewrite Ha, Hn. simpl. lia.
Qed.

Lemma replay_length l :
  forall s,
    (length (notes (replay ws we l s)) + length (active (replay ws we l s)) <=
     length (notes s) + length (active s) + countNoteOn l)%nat.
Proof.
  induction l as [|e l IH]; intros s; simpl; [unfold countNoteOn; simpl; lia|].
  eapply Nat.le_trans; [apply IH|].
  pose proof (replayEvent_length s e). unfold countNoteOn in *. simpl.
  destruct (isAnyNoteOn e); simpl; lia.
Qed.

Lemma truncateOpen_length s :
  (length (truncateOpen ws we s) <= length (notes s) + length (active s))%nat.
Proof.
  unfold truncateOpen. generalize (notes s).
  induction (active s) as [|[k st] entries IH]; intros ns; simpl; [lia|].
  eapply Nat.le_trans; [apply IH|].
  pose proof (pushNote_length (keyCh k) (keyNote k) (Local.tOn st) we
                (Local.vel st) ns).
  lia.
Qed.

End ReplayCount.

(** *** The tracks *)

Lemma group_tracks g l :
  forall m : JsMap.t TrackKey (list Note.t),
    JsMap.wf m ->
    (forall k arr, In (k, arr) m ->
       arr <> [] /\ forall n, In n arr -> trackKeyFor g (Note.ch n) = k) ->
    JsMap.wf (fold_left (groupNote g) l m) /\
    (forall k arr, In (k, arr) (fold_left (groupNote g) l m) ->
       arr <> [] /\ forall n, In n arr -> trackKeyFor g (Note.ch n) = k).
Proof.
  induction l as [|n l IH]; intros m Hwf Hm; simpl; [split; assumption|].
  apply IH.
  - unfold groupNote. destruct (JsMap.get m _); apply JsMapFacts.wf_set;
      exact Hwf.
  - intros k arr Hin. unfold groupNote in Hin.
    destruct (JsMap.get m (trackKeyFor g (Note.ch n))) as [arr0|] eqn:Hget;
      apply In_set_inv in Hin; destruct Hin as [[-> ->]|Hin];
      try (apply Hm; exact Hin).
    + destruct (Hm _ _ (JsMapFacts.get_In _ _ Hget)) as [_ Hk].
      split; [destruct arr0; discriminate|].
      intros n' Hn'. apply in_app_or in Hn'.
      destruct Hn' as [Hn'|[<-|[]]]; [apply Hk; exact Hn' | reflexivity].
    + split; [discriminate|]. intros n' [<-|[]]. reflexivity.
Qed.

Lemma sortTracks_keys (m : JsMap.t TrackKey (list Note.t)) :
  JsMap.keys (sortTracks m) = JsMap.keys m.
Proof.
  unfold sortTracks, JsMap.keys. rewrite map_map. apply map_ext.
  intros [k arr]. reflexivity.
Qed.

Lemma sortTracks_In (m : JsMap.t TrackKey (list Note.t)) k arr :
  In (k, arr) (sortTracks m) ->
  exists arr0, In (k, arr0) m /\ arr = sortByStart arr0.
Proof.
  unfold sortTracks. intros Hin. apply in_map_iff in Hin.
  destruct Hin as ([k0 arr0] & Heq & Hin). inversion Heq; subst.
  exists arr0. split; [exact Hin | reflexivity].
Qed.

(** X9. Events other than note-ons, terminations and controller 64 (other
    controllers, pitch bends, raw messages) play no part in the
    reconstruction: leaving them out of the slice gives the same tracks. *)
Theorem reconstruction_ignores_other_events :
  forall g events ws we,
    _reconstructNotes g (filter isTrackerEvent events) ws we =
    _reconstructNotes g events ws we.
Proof.
  intros g events ws we. unfold _reconstructNotes, allNotes.
  rewrite replay_filter. reflexivity.
Qed.

(** X10. The tracks returned by [_reconstructNotes]: no track key occurs
    twice, no track is empty, every track is ordered by start time, and a
    track holds exactly the notes its key stands for (with [groupByChannel]
    the notes of one channel, without it all notes in the one track
    "main"). *)
Theorem tracks_are_grouped_and_sorted :
  forall g events ws we,
    let tracks := _reconstructNotes g events ws we in
    NoDup (JsMap.keys tracks) /\
    (forall k arr, In (k, arr) tracks ->
       arr <> [] /\ StronglySorted startLe arr /\
       forall n, In n arr -> trackKeyFor g (Note.ch n) = k) /\
    (g = false -> forall k arr, In (k, arr) tracks -> k = T_main).
Proof.
  intros g events ws we tracks. unfold tracks, _reconstructNotes.
  destruct (@group_tracks g (allNotes ws we events) JsMap.empty)
    as [Hwf Hm]; [apply JsMapFacts.wf_empty | intros k arr [] |].
  assert (Hall : forall k arr,
            In (k, arr)
              (sortTracks
                 (fold_left (groupNote g) (allNotes ws we events)
                    JsMap.empty)) ->
            arr <> [] /\ StronglySorted startLe arr /\
            forall n, In n arr -> trackKeyFor g (Note.ch n) = k).
  { intros k arr Hin. apply sortTracks_In in Hin.
    destruct Hin as (arr0 & Hin & ->). destruct (Hm k arr0 Hin) as [Hne Hk].
    split; [|split].
    - intros Hnil. apply Hne.
      apply Permutation_nil. rewrite <- Hnil. apply sortByStart_perm.
    - apply sortByStart_sorted.
    - intros n Hn. apply Hk.
      apply (Permutation_in n (sortByStart_perm arr0)). exact Hn. }
  split; [rewrite sortTracks_keys; exact Hwf|]. split; [exact Hall|].
  intros -> k arr Hin. destruct (Hall k arr Hin) as (Hne & _ & Hk).
  destruct arr as [|n arr]; [congruence|].
  symmetry. apply (Hk n). left. reflexivity.
Qed.

(** X11. A note that is struck inside the window and, in the rest of the
    slice, neither struck again nor terminated, while the pedal of its
    channel is not released, is closed at the end of the window: the result
    holds the interval from its note-on to [windowEnd]. *)
Theorem open_note_ends_at_window_end :
  forall g ws we pre post t ch note vel src,
    ws <= t -> t < we ->
    forallb (leavesOpen (mkKey ch note)) post = true ->
    In (Note.mk ch note t we vel)
       (intervals
          (_reconstructNotes g (pre ++ E_noteon t ch note vel src :: post)
             ws we)).
Proof.
  intros g ws we pre post t ch note vel src H1 H2 Hpost.
  apply (Permutation_in _
           (Permutation_sym (reconstruct_intervals g _ ws we))).
  unfold allNotes. rewrite replay_app, replay_cons.
  set (s0 := replay ws we pre init).
  assert (Hown : pendingOwn s0)
    by (apply replay_pendingOwn, pendingOwn_init).
  set (s1 := replayEvent ws we s0 (E_noteon t ch note vel src)).
  assert (Hget : JsMap.get (active s1) (mkKey ch note) = Some (Local.mk t vel))
    by (simpl; apply JsMapFacts.get_set_eq).
  assert (Hown1 : pendingOwn s1) by (apply replayEvent_pendingOwn; exact Hown).
  pose proof (@replay_keeps_open ws we post (mkKey ch note) (Local.mk t vel)
                s1 Hown1 Hget Hpost) as Hfinal.
  apply JsMapFacts.get_In in Hfinal.
  exact (@truncateOpen_closes ws we _ (mkKey ch note) (Local.mk t vel)
           Hfinal H1 H2).
Qed.

(** Scenario B of the specification with a pitch bend after the note-on:
    a note struck at 100 is never released, the window is [0, 500]. *)
Lemma open_note_scenario_B :
  let src := {| inputId := "in-1"%string; inputName := "keys"%string |} in
  In (Note.mk 1 (Some 60) 100 500 90)
     (intervals
        (_reconstructNotes false
           ([] ++ E_noteon 100 1 (Some 60) 90 src
               :: [E_pitchbend 200 1 0 src]) 0 500)).
Proof.
  intros src.
  apply (@open_note_ends_at_window_end false 0 500 [] [E_pitchbend 200 1 0 src]
           100 1 (Some 60) 90 src); [lia | lia | reflexivity].
Defined.

(** X12. The reconstruction invents no note: every interval it returns has
    the channel, note number and velocity of a note-on event of the slice,
    and starts at the time of that note-on clamped to the window. *)
Theorem intervals_stem_from_note_ons :
  forall g events ws we,
    Forall (fromNoteOn ws we events)
      (intervals (_reconstructNotes g events ws we)).
Proof.
  intros g events ws we. apply Forall_forall. intros n Hin.
  apply (Permutation_in _ (reconstruct_intervals g events ws we)) in Hin.
  apply clampedSpan_fromNoteOn.
  pose proof (allNotes_span ws we events) as Hall.
  rewrite Forall_forall in Hall. exact (Hall n Hin).
Qed.

(** X13. The reconstruction returns at most one interval per note-on event
    of the slice. *)
Theorem at_most_one_interval_per_note_on :
  forall g events ws we,
    (length (intervals (_reconstructNotes g events ws we)) <=
     countNoteOn events)%nat.
Proof.
  intros g events ws we.
  rewrite (Permutation_length (reconstruct_intervals g events ws we)).
  unfold allNotes.
  pose proof (truncateOpen_length ws we (replay ws we events init)).
  pose proof (replay_length ws we events init). simpl in *. lia.
Qed.

(** * Buffer hygiene and export *)

Lemma filter_filter_weaker {A} (f g : A -> bool) l :
  (forall x, f x = true -> g x = true) ->
  filter f (filter g l) = filter f l.
Proof.
  intros Himp. induction l as [|x l IH]; simpl; [reflexivity|].
  destruct (g x) eqn:Hg; simpl.
  - destruct (f x); [rewrite IH|]; auto.
  - destruct (f x) eqn:Hf; [|exact IH].
    apply Himp in Hf. congruence.
Qed.

Lemma insertByT_perm e l : Permutation (insertByT e l) (e :: l).
Proof.
  induction l as [|e' l IH]; simpl; [reflexivity|].
  destruct (ev_t e <=? ev_t e'); [reflexivity|].
  rewrite IH. apply perm_swap.
Qed.

Lemma sortByT_perm l : Permutation (sortByT l) l.
Proof.
  induction l as [|e l IH]; simpl; [reflexivity|].
  rewrite insertByT_perm, IH. reflexivity.
Qed.

Lemma insertByT_sorted e l :
  StronglySorted timeLe l -> StronglySorted timeLe (insertByT e l).
Proof.
  induction 1 as [|e' l Hs IH Hall]; simpl.
  - repeat constructor.
  - destruct (ev_t e <=? ev_t e') eqn:Hle.
    + apply Z.leb_le in Hle. constructor; [constructor; assumption|].
      constructor; [exact Hle|].
      rewrite Forall_forall in *. intros x Hx. specialize (Hall x Hx).
      unfold timeLe in *. lia.
    + apply Z.leb_gt in Hle. constructor; [exact IH|].
      rewrite Forall_forall in *. intros x Hx.
      apply (Permutation_in _ (insertByT_perm e l)) in Hx.
      destruct Hx as [<-|Hx]; [unfold timeLe; lia | auto].
Qed.

Lemma sortByT_sorted l : StronglySorted timeLe (sortByT l).
Proof.
  induction l as [|e l IH]; simpl; [constructor|].
  apply insertByT_sorted. exact IH.
Qed.

(** Sorting a list that is in time order changes nothing. *)
Lemma sortByT_id l : StronglySorted timeLe l -> sortByT l = l.
Proof.
  induction 1 as [|e l Hs IH Hall]; simpl; [reflexivity|].
  rewrite IH. destruct l as [|e' l]; [reflexivity|]. simpl.
  inversion Hall as [|? ? Hle _]; subst. unfold timeLe in Hle.
  replace (ev_t e <=? ev_t e') with true by lia. reflexivity.
Qed.

(** X14. Sweeps compose: a sweep followed by a later sweep leaves the
    instance as the later sweep alone does. *)
Theorem gc_absorbs_earlier_sweep :
  forall t1 t2 s, t1 <= t2 -> _gc t2 (_gc t1 s) = _gc t2 s.
Proof.
  intros t1 t2 s Hle. unfold _gc.
  destruct (t1 - _start s - bufferMinutes (settings s) * 60 * 1000 <=? 0)
    eqn:H1; [reflexivity|].
  apply Z.leb_gt in H1. simpl.
  destruct (t2 - _start s - bufferMinutes (settings s) * 60 * 1000 <=? 0)
    eqn:H2; [apply Z.leb_le in H2; lia|].
  unfold with_events. simpl. f_equal.
  apply filter_filter_weaker. intros e He. lia.
Qed.

(** A sweep at 2,000,000 ms after one at 1,900,000 ms, with a buffer of 30
    minutes. *)
Lemma gc_absorbs_example :
  let src := {| inputId := "in-1"%string; inputName := "keys"%string |} in
  let s :=
    create (mkSettings 30 120 false 3) 0
      [E_noteon 50000 1 (Some 60) 100 src; E_noteoff 150000 1 (Some 60) src;
       E_noteon 250000 1 (Some 62) 100 src] [] in
  _events (_gc 2000000 s) = [E_noteon 250000 1 (Some 62) 100 src] /\
  _gc 2000000 (_gc 1900000 s) = _gc 2000000 s.
Proof.
  intros src s. split; [reflexivity|].
  apply (@gc_absorbs_earlier_sweep 1900000 2000000 s). lia.
Defined.

(** X15. A sweep does not change an export whose range starts at or after
    the retention horizon of the sweep: [_saveRange] returns the same
    tracks before and after. *)
Theorem gc_keeps_recent_exports :
  forall tNow s startMs endMs bpm,
    tNow - _start s - bufferMinutes (settings s) * 60 * 1000 <= startMs ->
    sliceEvents (_gc tNow s) startMs endMs = sliceEvents s startMs endMs /\
    _saveRange (_gc tNow s) startMs endMs bpm = _saveRange s startMs endMs bpm.
Proof.
  intros tNow s startMs endMs bpm Hcut.
  assert (Hslice : sliceEvents (_gc tNow s) startMs endMs =
                   sliceEvents s startMs endMs).
  { unfold _gc. destruct (_ <=? 0); [reflexivity|].
    unfold sliceEvents. simpl. f_equal.
    apply filter_filter_weaker. intros e He. lia. }
  split; [exact Hslice|].
  unfold _saveRange. rewrite Hslice.
  assert (Hset : settings (_gc tNow s) = settings s)
    by (unfold _gc; destruct (_ <=? 0); reflexivity).
  rewrite Hset. reflexivity.
Qed.

(** The last take survives a sweep that drops the first note. *)
Lemma gc_keeps_recent_example :
  let src := {| inputId := "in-1"%string; inputName := "keys"%string |} in
  let s :=
    create (mkSettings 30 120 false 3) 0
      [E_noteon 50000 1 (Some 60) 100 src; E_noteoff 150000 1 (Some 60) src;
       E_noteon 250000 1 (Some 62) 100 src;
       E_noteoff 251000 1 (Some 62) src] [] in
  length (_events (_gc 2000000 s)) = 2%nat /\
  sliceEvents (_gc 2000000 s) 250000 251000 = sliceEvents s 250000 251000 /\
  _saveRange (_gc 2000000 s) 250000 251000 None =
  _saveRange s 250000 251000 None.
Proof.
  intros src s. split; [reflexivity|].
  apply (@gc_keeps_recent_exports 2000000 s 250000 251000 None).
  simpl. lia.
Defined.

(** X16. The slice [_saveRange] replays holds exactly the logged events
    whose time lies in the range, both ends included, and holds them in time
    order. *)
Theorem slice_is_range_in_time_order :
  forall s startMs endMs,
    StronglySorted timeLe (sliceEvents s startMs endMs) /\
    Permutation (sliceEvents s startMs endMs)
      (filter (fun e => (ev_t e >=? startMs) && (ev_t e <=? endMs))
         (_events s)) /\
    (forall e, In e (sliceEvents s startMs endMs) <->
               In e (_events s) /\ startMs <= ev_t e <= endMs).
Proof.
  intros s startMs endMs. unfold sliceEvents.
  split; [apply sortByT_sorted|]. split; [apply sortByT_perm|].
  intros e. split.
  - intros Hin. apply (Permutation_in _ (sortByT_perm _)) in Hin.
    apply filter_In in Hin. destruct Hin as [Hin Hr]. split; [exact Hin|lia].
  - intros [Hin Hr].
    apply (Permutation_in _ (Permutation_sym (sortByT_perm _))).
    apply filter_In. split; [exact Hin | lia].
Qed.

(** X17. On a clock that does not go backwards, the sort of [_saveRange]
    changes nothing: the slice is the log of a fresh instance restricted to
    the range, in the order of the log, so that events with equal times are
    replayed in the order they arrived. *)
Theorem slice_of_run_keeps_log_order :
  forall now s startMs endMs,
    clocked now s ->
    sliceEvents s startMs endMs =
    filter (fun e => (ev_t e >=? startMs) && (ev_t e <=? endMs)) (_events s).
Proof.
  intros now s startMs endMs Hc. unfold sliceEvents.
  apply sortByT_id, sorted_filter. exact (proj1 (clocked_log Hc)).
Qed.

(** A pedal release at 40 logs the controller event and the note-off at the
    same time; the slice keeps them in that order. *)
Lemma slice_of_run_example :
  let src := {| inputId := "in-1"%string; inputName := "keys"%string |} in
  let s :=
    _onMIDIMessage src 40 [0xb0; 64; 0]
      (_onMIDIMessage src 30 [0x80; 60; 0]
         (_onMIDIMessage src 20 [0xb0; 64; 127]
            (_onMIDIMessage src 10 [0x90; 60; 100]
               (create (mkSettings 30 120 false 3) 0 [] [])))) in
  sliceEvents s 25 40 =
    [E_noteoff_deferred 30 1 (Some 60) src; E_cc 40 1 (Some 64) 0 src;
     E_noteoff 40 1 (Some 60) src] /\
  sliceEvents s 25 40 =
  filter (fun e => (ev_t e >=? 25) && (ev_t e <=? 40)) (_events s).
Proof.
  intros src s. split; [reflexivity|].
  apply (@slice_of_run_keeps_log_order 40 s 25 40).
  apply clocked_message with (now := 30); [|lia].
  apply clocked_message with (now := 20); [|lia].
  apply clocked_message with (now := 10); [|lia].
  apply clocked_message with (now := 0); [|lia].
  apply clocked_create.
Defined.

(** *** The encoder *)

Lemma t0_fold_shift d tracks :
  forall acc,
    fold_left t0Step (shiftTracks d tracks)
      (option_map (fun m => m + d) acc) =
    option_map (fun m => m + d) (fold_left t0Step tracks acc).
Proof.
  induction tracks as [|[k arr] tracks IH]; intros acc; simpl; [reflexivity|].
  rewrite <- IH. f_equal. unfold t0Step. simpl.
  destruct arr as [|first arr]; [reflexivity|]. simpl.
  destruct acc as [m|]; simpl; [|reflexivity].
  destruct (Note.startMs first <? m) eqn:Hlt.
  - replace (Note.startMs first + d <? m + d) with true by lia. reflexivity.
  - replace (Note.startMs first + d <? m + d) with false by lia. reflexivity.
Qed.

Lemma encodeNote_shift d t0 bpm n :
  encodeNote (t0 + d) bpm (shiftNote d n) = encodeNote t0 bpm n.
Proof.
  unfold encodeNote, shiftNote. simpl.
  replace (Note.startMs n + d - (t0 + d)) with (Note.startMs n - t0) by lia.
  replace (Note.endMs n + d - (Note.startMs n + d))
    with (Note.endMs n - Note.startMs n) by lia.
  reflexivity.
Qed.

(** X18. On times in whole milliseconds, as the embedding has them, the
    encoder sees only relative times: moving every interval of every track
    by the same whole number of milliseconds gives the same tracks, tick for
    tick.  (The subtractions [startMs - t0] and [endMs - startMs] are then
    exact; the statement says nothing of fractional times, whose
    differences are rounded.) *)
Theorem encoding_is_translation_invariant :
  forall d tracks bpm,
    _buildMidi (shiftTracks d tracks) bpm = _buildMidi tracks bpm.
Proof.
  intros d tracks bpm. unfold _buildMidi.
  pose proof (t0_fold_shift d tracks None) as Hfold. simpl in Hfold.
  destruct (t0_fold_spec tracks None) as (_ & _ & Hheads).
  unfold t0Global. rewrite Hfold.
  destruct (fold_left t0Step tracks None) as [m|] eqn:Hm; simpl.
  - unfold shiftTracks. rewrite map_map. apply map_ext.
    intros [k arr]. simpl. destruct arr as [|n arr]; [reflexivity|]. simpl.
    rewrite encodeNote_shift. f_equal. f_equal.
    rewrite map_map. apply map_ext. intros n'. apply encodeNote_shift.
  - unfold shiftTracks. rewrite map_map. apply map_ext_in.
    intros [k arr] Hin. simpl. destruct arr as [|n arr]; [reflexivity|].
    destruct (Hheads k n arr Hin) as (m & Hm' & _). discriminate.
Qed.

(** X19. Every note the encoder emits starts at tick 1 or later, lasts at
    least one tick and has a velocity from 1 to 100, whatever the intervals
    and the tempo. *)
Theorem encoded_notes_are_in_range :
  forall tracks bpm,
    Forall
      (fun tr =>
         Forall
           (fun e =>
              1 <= NoteEvent.tick e /\ 1 <= NoteEvent.duration e /\
              1 <= NoteEvent.velocity e <= 100)
           (Track.events tr))
      (_buildMidi tracks bpm).
Proof.
  intros tracks bpm. unfold _buildMidi. apply Forall_forall.
  intros tr Hin. apply in_map_iff in Hin.
  destruct Hin as ([k arr] & <- & _). simpl.
  assert (Hnotes : Forall
            (fun e =>
               1 <= NoteEvent.tick e /\ 1 <= NoteEvent.duration e /\
               1 <= NoteEvent.velocity e <= 100)
            (map (encodeNote (t0Global tracks) bpm) arr)).
  { apply Forall_forall. intros e He. apply in_map_iff in He.
    destruct He as (n & <- & _). unfold encodeNote, msToTicks, clamp. simpl.
    lia. }
  destruct arr; [constructor | exact Hnotes].
Qed.

(** X20. The encoder keeps the shape of its input: one track per entry, in
    the same order and under the same key, each with the tempo asked for and
    one note event per interval, in order, with the interval's note number
    and channel; an entry without intervals gives a track without notes. *)
Theorem encoding_keeps_tracks_and_notes :
  forall tracks bpm,
    map Track.name (_buildMidi tracks bpm) = JsMap.keys tracks /\
    Forall (fun tr => Track.tempo tr = bpm) (_buildMidi tracks bpm) /\
    map (fun tr =>
           map (fun e => (NoteEvent.channel e, NoteEvent.pitch e))
             (Track.events tr))
      (_buildMidi tracks bpm) =
    map (fun entry => map (fun n => (Note.ch n, Note.note n)) (snd entry))
      tracks.
Proof.
  intros tracks bpm. unfold _buildMidi, JsMap.keys.
  split; [|split].
  - rewrite map_map. apply map_ext. intros [k arr]. simpl.
    destruct arr; reflexivity.
  - apply Forall_forall. intros tr Hin. apply in_map_iff in Hin.
    destruct Hin as ([k arr] & <- & _). simpl. destruct arr; reflexivity.
  - rewrite map_map. apply map_ext. intros [k arr]. simpl.
    destruct arr as [|n arr]; [reflexivity|]. simpl. f_equal.
    rewrite map_map. reflexivity.
Qed.

(** * Persistence, take export, note names *)

Lemma round_id x : round x = x.
Proof.
  unfold round, roundDiv.
  replace (2 * x + 1) with (1 + x * (2 * 1)) by lia.
  rewrite Z.div_add by lia. reflexivity.
Qed.

Lemma withT_same e : withT e (ev_t e) = e.
Proof. destruct e; reflexivity. Qed.

Lemma withT_withT e t1 t2 : withT (withT e t1) t2 = withT e t2.
Proof. destruct e; reflexivity. Qed.

Lemma ev_t_withT e t : ev_t (withT e t) = t.
Proof. destruct e; reflexivity. Qed.

(** Storing events that are not before time 0 and reading them back. *)
Lemma restore_events startEpoch l :
  Forall (fun e => 0 <= ev_t e) l ->
  map (fun e => withT e (Z.max 0 (ev_t e - startEpoch)))
    (map (fun e => withT e (round (startEpoch + ev_t e))) l) = l.
Proof.
  induction 1 as [|e l He Hall IH]; simpl; [reflexivity|].
  rewrite IH, ev_t_withT, withT_withT, round_id.
  replace (Z.max 0 (startEpoch + ev_t e - startEpoch)) with (ev_t e) by lia.
  rewrite withT_same. reflexivity.
Qed.

Lemma restore_takes startEpoch takes :
  flat_map
    (fun tk : Z * option Z =>
       match snd tk with
       | Some endAbs =>
           [Take.mk (Z.max 0 (fst tk - startEpoch))
              (Z.max 0 (endAbs - startEpoch))]
       | None => []
       end)
    (map (fun tk => (round (startEpoch + Take.startMs tk),
                     Some (round (startEpoch + Take.endMs tk)))) takes) =
  map (fun tk => Take.mk (Z.max 0 (Take.startMs tk)) (Z.max 0 (Take.endMs tk)))
    takes.
Proof.
  induction takes as [|tk takes IH]; simpl; [reflexivity|].
  rewrite IH, !round_id. f_equal. f_equal; f_equal; lia.
Qed.

Lemma pruned_nonneg c l :
  Forall (fun e => 0 <= ev_t e) (filter (fun e => ev_t e >=? Z.max 0 c) l).
Proof.
  apply Forall_forall. intros e He. apply filter_In in He. lia.
Qed.

Lemma skipn_nonneg n (l : list Event) :
  Forall (fun e => 0 <= ev_t e) l -> Forall (fun e => 0 <= ev_t e) (skipn n l).
Proof.
  intros Hall. apply Forall_forall. intros e He.
  rewrite Forall_forall in Hall. apply Hall.
  rewrite <- (firstn_skipn n l). apply in_or_app. right. exact He.
Qed.

(** X21. Reading back what [_saveState] stored.  When the store accepts
    the state, a new instance built from it has the settings of the saved
    one, its events from the retention horizon on (and none from before
    time 0) with their times, and its closed takes (a negative bound moved
    to 0); it has no open take, no idle timer and an empty tracker, and its
    clock origin is set so that new events continue the stored time line. *)
Theorem stored_state_is_restored :
  forall fits startEpoch tNow s old opts nowPerf nowEpoch,
    fits (stateToStore startEpoch tNow s) = true ->
    let cutoff := tNow - _start s - bufferMinutes (settings s) * 60 * 1000 in
    let s' :=
      _loadState opts nowPerf nowEpoch
        (_saveState fits startEpoch tNow s old) in
    settings s' = settings s /\
    _events s' = filter (fun e => ev_t e >=? Z.max 0 cutoff) (_events s) /\
    _takes s' =
      map (fun tk =>
             Take.mk (Z.max 0 (Take.startMs tk)) (Z.max 0 (Take.endMs tk)))
        (_takes s) /\
    _start s' = nowPerf - (nowEpoch - startEpoch) /\
    _currentTake s' = None /\ _idleTimer s' = None /\
    _active s' = [] /\ _sustain s' = [] /\ _pendingRelease s' = [].
Proof.
  intros fits startEpoch tNow s old opts nowPerf nowEpoch Hfits cutoff s'.
  unfold s', _saveState. rewrite Hfits. unfold _loadState, stateToStore.
  cbn [baseEpoch storedSettings storedEvents storedTakes create settings
       _events _takes _start _currentTake _idleTimer _active _sustain
       _pendingRelease].
  rewrite restore_events by apply pruned_nonneg.
  rewrite restore_takes. repeat split.
Qed.

(** An instance with one event before and one after the horizon, saved at
    2,000,000 ms with a buffer of 30 minutes and read back. *)
Lemma stored_state_example :
  let src := {| inputId := "in-1"%string; inputName := "keys"%string |} in
  let s :=
    create (mkSettings 30 120 false 3) 0
      [E_noteon 50000 1 (Some 60) 100 src;
       E_noteon 250000 1 (Some 62) 100 src]
      [Take.mk 50000 50000; Take.mk 250000 250000] in
  let s' :=
    _loadState (mkSettings 10 90 true 5) 700 1700002000000
      (_saveState (fun _ => true) 1700000000000 2000000 s None) in
  settings s' = mkSettings 30 120 false 3 /\
  _events s' = [E_noteon 250000 1 (Some 62) 100 src] /\
  _takes s' = [Take.mk 50000 50000; Take.mk 250000 250000] /\
  _start s' = 700 - 2000000.
Proof.
  intros src s s'.
  destruct (@stored_state_is_restored (fun _ => true) 1700000000000 2000000 s
              None (mkSettings 10 90 true 5) 700 1700002000000 eq_refl)
    as (H1 & H2 & H3 & H4 & _).
  split; [exact H1|]. split; [exact H2|]. split; [exact H3 | exact H4].
Defined.

(** X22. A full store.  When the store refuses the state, [_saveState]
    retries once without the older half of the stored events: if that is
    accepted, reading it back gives the newer half of the events (the first
    [floor(n / 2)] of the [n] retained events are lost) and all closed
    takes; if it is refused too, the store keeps what it held before. *)
Theorem full_store_drops_older_half :
  forall fits startEpoch tNow s old opts nowPerf nowEpoch,
    fits (stateToStore startEpoch tNow s) = false ->
    let cutoff := tNow - _start s - bufferMinutes (settings s) * 60 * 1000 in
    let pruned := filter (fun e => ev_t e >=? Z.max 0 cutoff) (_events s) in
    let saved := _saveState fits startEpoch tNow s old in
    let s' := _loadState opts nowPerf nowEpoch saved in
    if fits (trimmedState (stateToStore startEpoch tNow s)) then
      _events s' = skipn (Nat.div (length pruned) 2) pruned /\
      _takes s' =
        map (fun tk =>
               Take.mk (Z.max 0 (Take.startMs tk)) (Z.max 0 (Take.endMs tk)))
          (_takes s) /\
      settings s' = settings s
    else saved = old.
Proof.
  intros fits startEpoch tNow s old opts nowPerf nowEpoch Hfits cutoff pruned
    saved s'.
  unfold s', saved, _saveState. rewrite Hfits.
  destruct (fits (trimmedState (stateToStore startEpoch tNow s)));
    [|reflexivity].
  unfold _loadState, trimmedState, stateToStore.
  cbn [baseEpoch storedSettings storedEvents storedTakes create settings
       _events _takes].
  fold cutoff. fold pruned.
  rewrite restore_takes. split; [|split; reflexivity].
  rewrite length_map, skipn_map.
  apply restore_events, skipn_nonneg, pruned_nonneg.
Qed.

(** A store that takes at most two events: of three retained events the
    first is lost. *)
Lemma full_store_example :
  let src := {| inputId := "in-1"%string; inputName := "keys"%string |} in
  let fits := fun st : Stored => (length (storedEvents st) <=? 2)%nat in
  let s :=
    create (mkSettings 30 120 false 3) 0
      [E_noteon 10 1 (Some 60) 100 src; E_noteoff 20 1 (Some 60) src;
       E_noteon 30 1 (Some 62) 100 src] [Take.mk 10 30] in
  let s' := _loadState (mkSettings 30 120 false 3) 0 1700000000040
              (_saveState fits 1700000000000 40 s None) in
  _events s' =
    [E_noteoff 20 1 (Some 60) src; E_noteon 30 1 (Some 62) 100 src] /\
  _takes s' = [Take.mk 10 30].
Proof.
  intros src fits s s'.
  pose proof (@full_store_drops_older_half fits 1700000000000 40 s None
                (mkSettings 30 120 false 3) 0 1700000000040 eq_refl) as H.
  cbv zeta in H.
  change (fits (trimmedState (stateToStore 1700000000000 40 s))) with true in H.
  destruct H as (H1 & H2 & _). split; [exact H1 | exact H2].
Defined.

(** *** Export of a take *)

Lemma reconstruct_degenerate g events ws we :
  we <= ws -> _reconstructNotes g events ws we = [].
Proof.
  intros Hle. unfold _reconstructNotes.
  pose proof (allNotes_inWindow ws we events) as Hall.
  destruct (allNotes ws we events) as [|n l]; [reflexivity|].
  inversion Hall as [|? ? Hn _]; subst. unfold inWindow in Hn. lia.
Qed.

(** X23. An export over a range that ends where it starts, or before,
    holds no track at all; such is the export of a take made of a single
    message, whose end is its start. *)
Theorem empty_range_exports_no_track :
  forall s startMs endMs bpm,
    endMs <= startMs -> _saveRange s startMs endMs bpm = [].
Proof.
  intros s startMs endMs bpm Hle. unfold _saveRange.
  rewrite reconstruct_degenerate by exact Hle. reflexivity.
Qed.

(** One note-on at 10, then the idle timer: the take is [10, 10]. *)
Lemma single_message_take_example :
  let src := {| inputId := "in-1"%string; inputName := "keys"%string |} in
  let s :=
    _endTake
      (_onMIDIMessage src 10 [0x90; 60; 100]
         (create (mkSettings 30 120 false 3) 0 [] [])) in
  _takes s = [Take.mk 10 10] /\ _saveRange s 10 10 None = [].
Proof.
  intros src s. split; [reflexivity|].
  apply (@empty_range_exports_no_track s 10 10 None). lia.
Defined.

(** X24. [saveTake] exports nothing exactly when the list of closed takes
    has no entry at the index (negative, or not below the number of takes);
    for a take of the list it exports the range from the start to the end of
    that take. *)
Theorem save_take_needs_a_take :
  forall index bpm s,
    (saveTake index bpm s = None <->
     index < 0 \/ Z.of_nat (length (_takes s)) <= index) /\
    (forall tk,
       0 <= index -> nth_error (_takes s) (Z.to_nat index) = Some tk ->
       saveTake index bpm s =
       Some (_saveRange s (Take.startMs tk) (Take.endMs tk) bpm)).
Proof.
  intros index bpm s. unfold saveTake. split.
  - destruct (index <? 0) eqn:Hneg.
    + split; [intros _; left; lia | reflexivity].
    + destruct (nth_error (_takes s) (Z.to_nat index)) as [tk|] eqn:Hnth.
      * split; [discriminate|]. intros [Hlt|Hge]; [lia|].
        assert (Hsome : nth_error (_takes s) (Z.to_nat index) <> None)
          by congruence.
        apply nth_error_Some in Hsome. lia.
      * split; [|reflexivity]. intros _. right.
        apply nth_error_None in Hnth. lia.
  - intros tk H0 Hnth. replace (index <? 0) with false by lia.
    rewrite Hnth. reflexivity.
Qed.

(** *** Note names *)

Lemma distinctStrings_NoDup l : distinctStrings l = true -> NoDup l.
Proof.
  induction l as [|x l IH]; simpl; [constructor|].
  intros H. apply andb_true_iff in H. destruct H as [Hx Hl].
  constructor; [|apply IH; exact Hl].
  intros Hin. apply negb_true_iff in Hx.
  assert (Hex : existsb (String.eqb x) l = true).
  { apply existsb_exists. exists x. split; [exact Hin|].
    apply String.eqb_refl. }
  congruence.
Qed.

Lemma NoDup_map_inj {A B} (f : A -> B) l a b :
  NoDup (map f l) -> In a l -> In b l -> f a = f b -> a = b.
Proof.
  induction l as [|x l IH]; simpl; [tauto|].
  intros Hnd Ha Hb Heq. inversion Hnd as [|? ? Hnotin Hnd']; subst.
  destruct Ha as [->|Ha], Hb as [->|Hb]; auto.
  - exfalso. apply Hnotin. rewrite Heq. apply in_map. exact Hb.
  - exfalso. apply Hnotin. rewrite <- Heq. apply in_map. exact Ha.
Qed.

Lemma midiNotes_In n : 0 <= n <= 127 -> In n midiNotes.
Proof.
  intros Hn. unfold midiNotes. apply in_map_iff.
  exists (Z.to_nat n). split; [lia|]. apply in_seq. lia.
Qed.

(** X25. [midiNoteToName] gives the 128 MIDI note numbers 128 different
    names: two different numbers from 0 to 127 never share a name. *)
Theorem note_names_are_distinct :
  forall a b,
    0 <= a <= 127 -> 0 <= b <= 127 -> a <> b ->
    midiNoteToName a <> midiNoteToName b.
Proof.
  intros a b Ha Hb Hne Heq. apply Hne.
  apply (@NoDup_map_inj _ _ midiNoteToName midiNotes a b);
    [|apply midiNotes_In; exact Ha|apply midiNotes_In; exact Hb|exact Heq].
  apply distinctStrings_NoDup. vm_compute. reflexivity.
Qed.

(** Middle C and the C an octave above. *)
Lemma note_names_example :
  midiNoteToName 60 = "C4"%string /\ midiNoteToName 72 = "C5"%string /\
  midiNoteToName 60 <> midiNoteToName 72.
Proof.
  split; [reflexivity|]. split; [reflexivity|].
  apply (@note_names_are_distinct 60 72); lia.
Defined.

(** *** What a message leaves alone *)

Lemma sustainBlock_no_press t ch val input s :
  negb (sustainDown s ch) && (val >=? 64) = false ->
  sameTakes (sustainBlock t ch val input s) s.
Proof.
  intros Hno. unfold sustainBlock. rewrite Hno.
  destruct (sustainDown s ch && negb (val >=? 64)); [|repeat split].
  set (s1 := setSustain ch (val >=? 64) s).
  pose proof (pendKeySet_fields s1 ch) as Hf.
  destruct (pendKeySet s1 ch) as [s3 keys]. simpl in Hf.
  destruct Hf as (F1 & F2 & F3 & F4 & F5 & F6 & F7 & F8).
  destruct (flush_fold_fields t ch input keys s3)
    as (A & B & C & D & E & F & G).
  repeat split; simpl; congruence.
Qed.

(** X26. The messages that open no take.  While no take is open, a
    termination request (a note-off, or a note-on with velocity 0), a
    controller 64 that is not a pedal press (its value is below 64, or the
    pedal is already down) and a message that is neither note, controller
    nor pitch bend leave the instance without open take, and leave the idle
    timer and the closed takes as they are. *)
Theorem quiet_messages_open_no_take :
  forall s input tNow data,
    _currentTake s = None ->
    keepsIdle s data ->
    let s' := _onMIDIMessage input tNow data s in
    _currentTake s' = None /\ _idleTimer s' = _idleTimer s /\
    _takes s' = _takes s.
Proof.
  intros s input tNow data Hidle Hquiet s'.
  assert (Hsame : sameTakes s' s);
    [|destruct Hsame as (_ & _ & C & D & E); rewrite C, D, E; auto].
  unfold s'.
  destruct Hquiet as [data Hterm|status val rest Hty Hval
                     |status val rest Hty Hheld|status rest H80 H90 Hb0 He0].
  - destruct data as [|status rest]; [discriminate|].
    unfold isTermination, statusType in Hterm.
    unfold _onMIDIMessage. cbv zeta.
    rewrite (markActivity_idle _ s Hidle).
    apply orb_true_iff in Hterm. destruct Hterm as [H80|H90].
    + apply Z.eqb_eq in H80. rewrite H80. simpl. apply handleNoteOff_takes.
    + apply andb_true_iff in H90. destruct H90 as [H90 Hvel].
      rewrite H90. apply Z.eqb_eq in Hvel. rewrite Hvel. simpl.
      apply handleNoteOff_takes.
  - rewrite onMIDIMessage_cc64 by exact Hty.
    rewrite (markActivity_idle _ s Hidle).
    apply (@sameTakes_trans _
             (pushEvent s
                (E_cc (tNow - _start s) (statusCh status) (Some 64) val input)));
      [|repeat split].
    apply sustainBlock_no_press.
    replace (val >=? 64) with false by lia. apply andb_false_r.
  - rewrite onMIDIMessage_cc64 by exact Hty.
    rewrite (markActivity_idle _ s Hidle).
    apply (@sameTakes_trans _
             (pushEvent s
                (E_cc (tNow - _start s) (statusCh status) (Some 64) val input)));
      [|repeat split].
    apply sustainBlock_no_press.
    change (sustainDown (pushEvent s _) (statusCh status))
      with (sustainDown s (statusCh status)).
    rewrite Hheld. reflexivity.
  - unfold _onMIDIMessage. cbv zeta. unfold statusType in *.
    rewrite (markActivity_idle _ s Hidle).
    replace (Z.land status 240 =? 144) with false by lia.
    replace (Z.land status 240 =? 128) with false by lia.
    replace (Z.land status 240 =? 176) with false by lia.
    replace (Z.land status 240 =? 224) with false by lia.
    repeat split.
Qed.

(** The pedal comes up on an idle instance: the pending note is ended, no
    take is opened. *)
Lemma quiet_messages_example :
  let src := {| inputId := "in-1"%string; inputName := "keys"%string |} in
  let s :=
    _endTake
      (_onMIDIMessage src 50 [0x80; 60; 0]
         (_onMIDIMessage src 30 [0xb0; 64; 127]
            (_onMIDIMessage src 10 [0x90; 60; 100]
               (create (mkSettings 30 120 false 3) 0 [] [])))) in
  let s' := _onMIDIMessage src 9000 [0xb0; 64; 0] s in
  _takes s = [Take.mk 10 50] /\
  _active s' = [] /\
  _currentTake s' = None /\ _idleTimer s' = _idleTimer s /\
  _takes s' = _takes s.
Proof.
  intros src s s'. split; [reflexivity|]. split; [reflexivity|].
  apply (@quiet_messages_open_no_take s src 9000 [0xb0; 64; 0]).
  - reflexivity.
  - apply idle_pedal_up; [reflexivity | lia].
Defined.

(** X27. Only notes and the sustain pedal touch the tracker: a message that
    is neither note-on nor note-off nor a controller message for controller
    64 (any other controller, a pitch bend, a program change, aftertouch,
    ...) leaves the active notes, the pedal flags and the pending sets
    unchanged. *)
Theorem only_notes_and_pedal_touch_tracker :
  forall input tNow status rest s,
    statusType status <> 0x90 -> statusType status <> 0x80 ->
    (statusType status = 0xb0 ->
     is64 (nth_error (status :: rest) 1) = false) ->
    sameCore (_onMIDIMessage input tNow (status :: rest) s) s.
Proof.
  intros input tNow status rest s H90 H80 H64.
  unfold _onMIDIMessage. cbv zeta. unfold statusType in *.
  replace (Z.land status 240 =? 144) with false by lia.
  replace (Z.land status 240 =? 128) with false by lia.
  pose proof (markActivity_core (tNow - _start s) s) as Hm.
  set (s1 := _markActivity (tNow - _start s) s) in *. clearbody s1.
  assert (Hst : forall b : bool,
            sameCore (if b then _startTake (tNow - _start s) s1 else s1) s).
  { intros []; [|exact Hm].
    exact (sameCore_trans (startTake_core _ s1) Hm). }
  destruct (Z.land status 240 =? 176) eqn:Hb0.
  { apply Z.eqb_eq in Hb0. rewrite (H64 Hb0).
    apply (@sameCore_trans _ _ _ (pushEvent_core _ _)). apply Hst. }
  destruct (Z.land status 240 =? 224).
  { apply (@sameCore_trans _ _ _ (pushEvent_core _ _)).
    destruct (hasTake s1); [exact Hm|].
    exact (sameCore_trans (startTake_core _ s1) Hm). }
  apply (@sameCore_trans _ _ _ (pushEvent_core _ _)). exact Hm.
Qed.

(** While a note is held under the pedal: a modulation wheel message, and a
    pitch bend whose second byte is 64. *)
Lemma only_notes_example :
  let src := {| inputId := "in-1"%string; inputName := "keys"%string |} in
  let s :=
    _onMIDIMessage src 30 [0x80; 60; 0]
      (_onMIDIMessage src 20 [0xb0; 64; 127]
         (_onMIDIMessage src 10 [0x90; 60; 100]
            (create (mkSettings 30 120 false 3) 0 [] []))) in
  pendingKeys s 1 = [mkKey 1 (Some 60)] /\
  sameCore (_onMIDIMessage src 40 [0xb0; 1; 64] s) s /\
  sameCore (_onMIDIMessage src 40 [0xe0; 64; 64] s) s.
Proof.
  intros src s. split; [reflexivity|]. split.
  - apply (@only_notes_and_pedal_touch_tracker src 40 0xb0 [1; 64] s);
      [discriminate | discriminate | reflexivity].
  - apply (@only_notes_and_pedal_touch_tracker src 40 0xe0 [64; 64] s);
      [discriminate | discriminate | discriminate].
Defined.

Lemma delete_set_absent {K V} `{EqDec K} (m : JsMap.t K V) k v :
  JsMap.get m k = None -> JsMap.delete (JsMap.set m k v) k = m.
Proof.
  induction m as [|[k' v'] m IH]; simpl.
  - intros _. destruct (eq_dec k k); congruence.
  - destruct (eq_dec k k') as [->|Hne]; [discriminate|].
    intros Hg. simpl. destruct (eq_dec k k'); [congruence|].
    rewrite IH by exact Hg. reflexivity.
Qed.

(** X28. A note played and released while the pedal of its channel is up,
    on a key that was not sounding, leaves no trace in the tracker: the
    active notes, pedal flags and pending sets are as before, and the log
    has gained the note-on and the note-off. *)
Theorem played_note_leaves_no_trace :
  forall s input t1 t2 on off note vel rest1 rest2,
    statusType on = 0x90 -> vel > 0 ->
    statusType off = 0x80 -> statusCh off = statusCh on ->
    JsMap.get (_active s) (mkKey (statusCh on) (Some note)) = None ->
    sustainDown s (statusCh on) = false ->
    let s' :=
      _onMIDIMessage input t2 (off :: note :: rest2)
        (_onMIDIMessage input t1 (on :: note :: vel :: rest1) s) in
    sameCore s' s /\
    _events s' =
      _events s ++
      [E_noteon (t1 - _start s) (statusCh on) (Some note) vel input;
       E_noteoff (t2 - _start s) (statusCh on) (Some note) input].
Proof.
  intros s input t1 t2 on off note vel rest1 rest2 Hon Hvel Hoff Hch Hget
    Hup.
  set (ch := statusCh on) in *.
  set (s1 := _onMIDIMessage input t1 (on :: note :: vel :: rest1) s).
  assert (H1 : _active s1 =
               JsMap.set (_active s) (mkKey ch (Some note))
                 (Active.mk (t1 - _start s) vel (inputId input)) /\
               _sustain s1 = _sustain s /\
               _pendingRelease s1 = _pendingRelease s /\
               _events s1 =
                 _events s ++
                 [E_noteon (t1 - _start s) ch (Some note) vel input] /\
               _start s1 = _start s).
  { unfold s1, _onMIDIMessage. cbv zeta.
    destruct (@statusType_tests on _ Hon) as (-> & _). simpl.
    replace (vel >? 0) with true by lia. fold (statusCh on). fold ch.
    destruct (markActivity_core (t1 - _start s) s) as (A & B & C).
    pose proof (markActivity_events (t1 - _start s) s) as E.
    pose proof (markActivity_start (t1 - _start s) s) as F.
    set (sm := _markActivity (t1 - _start s) s) in *. clearbody sm.
    destruct (hasTake sm); simpl.
    - rewrite A, B, C, E, F. repeat split.
    - destruct (startTake_core (t1 - _start s) sm) as (A' & B' & C').
      rewrite A', B', C', startTake_events, A, B, C, E.
      repeat split. unfold _startTake.
      destruct (_currentTake sm); simpl; exact F. }
  destruct H1 as (A1 & B1 & C1 & E1 & F1). clearbody s1.
  unfold _onMIDIMessage. cbv zeta.
  destruct (@statusType_tests off _ Hoff) as (-> & -> & _). simpl.
  fold (statusCh off). rewrite Hch. fold ch. rewrite F1.
  destruct (markActivity_core (t2 - _start s) s1) as (A & B & C).
  pose proof (markActivity_events (t2 - _start s) s1) as E.
  set (sm := _markActivity (t2 - _start s) s1) in *. clearbody sm.
  assert (Hg : JsMap.get (_active sm) (mkKey ch (Some note)) =
               Some (Active.mk (t1 - _start s) vel (inputId input)))
    by (rewrite A, A1; apply JsMapFacts.get_set_eq).
  assert (Hd : sustainDown sm ch = false)
    by (unfold sustainDown in *; rewrite B, B1; exact Hup).
  rewrite (@handleNoteOff_immediate (t2 - _start s) ch (Some note) input sm
             _ Hg Hd).
  split.
  - unfold sameCore. simpl. rewrite A, A1, B, B1, C, C1.
    rewrite delete_set_absent by exact Hget. repeat split.
  - simpl. rewrite E, E1, <- app_assoc. reflexivity.
Qed.

(** Middle C played for 40 ms on a fresh instance. *)
Lemma played_note_example :
  let src := {| inputId := "in-1"%string; inputName := "keys"%string |} in
  let s := create (mkSettings 30 120 false 3) 0 [] [] in
  let s' :=
    _onMIDIMessage src 50 [0x80; 60; 0]
      (_onMIDIMessage src 10 [0x90; 60; 100] s) in
  sameCore s' s /\
  _events s' = [E_noteon 10 1 (Some 60) 100 src; E_noteoff 50 1 (Some 60) src].
Proof.
  intros src s.
  apply (@played_note_leaves_no_trace s src 10 50 0x90 0x80 60 100 [] [0]);
    reflexivity.
Defined.
